(** * A shallow embedding of the React todo application (src/app.js)

    The state logic of [App], [AddTodo], [TodoItem] and [TodoList] is
    translated to functions over lists of records.  A todo is a record, the
    collection a list, an update of [setTodos] a function from the
    previous list to the next one.  What a handler reads from outside the
    state (the clock, [Math.random()]) is an argument; what it does to the
    outside (writing to [localStorage], [console.error]) is kept in the
    state, as the store and as a trace.

    The platform the script runs on is modelled as far as the handlers use
    it: strings as lists of UTF-16 code units with [trim], Numbers as
    binary64 values with [+] and [===], [JSON.stringify] and [JSON.parse]
    on texts, following ECMA-262. *)

From Stdlib Require Import ZArith NArith List Bool Lia String Ascii.
From stdpp Require Import base option list gmap.
Import ListNotations.

Local Open Scope Z_scope.

(** ** ECMAScript strings

    A string value is a finite sequence of UTF-16 code units. *)

Module JSString.

Abbreviation code_unit := Z (only parsing).
Abbreviation jsstring := (list Z) (only parsing).

(** Code units are the integers below [2^16]. *)
Definition wf_string (s : jsstring) : bool :=
  forallb (fun c => (0 <=? c) && (c <? 65536)) s.

(** A literal of the script, written with the characters of its source. *)
Definition lit (s : string) : jsstring :=
  List.map (fun a => Z.of_N (N_of_ascii a)) (list_ascii_of_string s).

(** [WhiteSpace] and [LineTerminator] code points of the language, the
    characters that [String.prototype.trim] strips. *)
Definition is_white_space (c : code_unit) : bool :=
  ((c =? 0x9) || (c =? 0xA) || (c =? 0xB) || (c =? 0xC) || (c =? 0xD)
   || (c =? 0x20) || (c =? 0xA0) || (c =? 0x1680)
   || ((0x2000 <=? c) && (c <=? 0x200A))
   || (c =? 0x2028) || (c =? 0x2029) || (c =? 0x202F) || (c =? 0x205F)
   || (c =? 0x3000) || (c =? 0xFEFF)).

Fixpoint trimStart (s : jsstring) : jsstring :=
  match s with
  | c :: s' => if is_white_space c then trimStart s' else s
  | [] => []
  end.

Definition trimEnd (s : jsstring) : jsstring :=
  rev (trimStart (rev s)).

(** [s.trim()] *)
Definition trim (s : jsstring) : jsstring := trimEnd (trimStart s).

(** The rest of [s] after its first code unit, if that is [c]. *)
Definition eat (c : code_unit) (s : jsstring) : option jsstring :=
  match s with
  | d :: s' => if d =? c then Some s' else None
  | [] => None
  end.

(** [ToBoolean] of a string: the empty string is the only falsy one. *)
Definition truthy (s : jsstring) : bool :=
  match s with [] => false | _ :: _ => true end.

(** [s.length] *)
Definition js_length (s : jsstring) : Z := Z.of_nat (length s).

End JSString.
Export JSString.

(** ** ECMAScript numbers

    A Number is an IEEE 754 binary64 value.  A finite one is kept as its
    integral significand and exponent, [Finite m e] standing for
    [m * 2^e], in the normal form of the format: [|m| < 2^53],
    [-1074 <= e <= 971], and [2^52 <= |m|] unless [e = -1074].  The two
    zeros are not told apart: [===] does not tell them apart either, and
    the script never divides. *)

Module Num.

Inductive number :=
| Finite (m : Z) (e : Z)
| Infinity (neg : bool)
| NaN.

#[global] Instance number_eq_dec : EqDecision number.
Proof. solve_decision. Defined.

Definition emin : Z := -1074.
Definition emax : Z := 971.
Definition prec : Z := 53.

(** The normal form of a finite Number. *)
Definition wf_number (x : number) : bool :=
  match x with
  | Finite m e =>
      (Z.abs m <? 2 ^ prec) && (emin <=? e) && (e <=? emax)
      && ((2 ^ (prec - 1) <=? Z.abs m) || (e =? emin))
  | Infinity _ | NaN => true
  end.

(** [q * 2^l <= p], for an exponent [l] of either sign. *)
Definition scaled_le (q l p : Z) : bool :=
  if 0 <=? l then q * 2 ^ l <=? p else q <=? p * 2 ^ (- l).

(** For positive [p] and [q], the [l] with [2^l <= p/q < 2^(l+1)]. *)
Definition floor_log2_ratio (p q : Z) : Z :=
  let l := Z.log2 p - Z.log2 q in
  if scaled_le q l p then l else l - 1.

(** Round the non-negative rational [p/q] to the nearest value of the
    format, ties to the even significand. *)
Definition round_ratio (neg : bool) (p q : Z) : number :=
  if p =? 0 then Finite 0 emin else
  let e := Z.max emin (floor_log2_ratio p q - (prec - 1)) in
  let num := p * 2 ^ Z.max 0 (- e) in
  let den := q * 2 ^ Z.max 0 e in
  let m0 := num / den in
  let r := num mod den in
  let m1 :=
    if 2 * r <? den then m0
    else if den <? 2 * r then m0 + 1
    else if Z.odd m0 then m0 + 1 else m0 in
  let '(m2, e2) := if m1 =? 2 ^ prec then (2 ^ (prec - 1), e + 1) else (m1, e) in
  if emax <? e2 then Infinity neg
  else Finite (if neg then - m2 else m2) e2.

(** The Number of a mathematical integer. *)
Definition of_Z (z : Z) : number :=
  round_ratio (z <? 0) (Z.abs z) 1.

(** [x + y] on Numbers: the exact sum, rounded. *)
Definition num_add (x y : number) : number :=
  match x, y with
  | Finite m1 e1, Finite m2 e2 =>
      let e := Z.min e1 e2 in
      let s := m1 * 2 ^ (e1 - e) + m2 * 2 ^ (e2 - e) in
      round_ratio (s <? 0) (Z.abs s * 2 ^ Z.max 0 e) (2 ^ Z.max 0 (- e))
  | Infinity n, Finite _ _ => Infinity n
  | Finite _ _, Infinity n => Infinity n
  | Infinity n1, Infinity n2 => if Bool.eqb n1 n2 then Infinity n1 else NaN
  | NaN, _ | _, NaN => NaN
  end.

(** [- x] *)
Definition negate (x : number) : number :=
  match x with
  | Finite m e => Finite (- m) e
  | Infinity neg => Infinity (negb neg)
  | NaN => NaN
  end.

(** [x === y] on Numbers: NaN is equal to nothing, itself included. *)
Definition strict_eq (x y : number) : bool :=
  match x, y with
  | NaN, _ | _, NaN => false
  | _, _ => bool_decide (x = y)
  end.

Definition is_finite (x : number) : bool :=
  match x with Finite _ _ => true | _ => false end.

End Num.
Export Num.

(** ** Numbers as text

    [Number::toString] (radix 10) and the reading of a numeric literal,
    as [JSON.stringify] and [JSON.parse] use them. *)

Module NumText.

(** The value [s * 10^t], rounded to a Number. *)
Definition round_decimal (neg : bool) (s t : Z) : number :=
  round_ratio neg (s * 10 ^ Z.max 0 t) (10 ^ Z.max 0 (- t)).

(** Decimal digits of a non-negative integer, most significant first. *)
Fixpoint digits_fuel (fuel : nat) (n : Z) (acc : list Z) : list Z :=
  match fuel with
  | O => acc
  | S fuel' =>
      let acc' := n mod 10 :: acc in
      if n <? 10 then acc' else digits_fuel fuel' (n / 10) acc'
  end.

Definition digits (n : Z) : list Z :=
  digits_fuel (S (Z.to_nat (Z.log2 n))) n [].

Definition digit_char (d : Z) : code_unit := 48 + d.

Definition digit_chars (n : Z) : jsstring := List.map digit_char (digits n).

(** [m * 2^e] written as [W * 10^t] with integers [W] and [t <= 0]. *)
Definition exact_decimal (m e : Z) : Z * Z :=
  if 0 <=? e then (m * 2 ^ e, 0) else (m * 5 ^ (- e), e).

(** The candidates with [k] significant digits for the Number [x], whose
    exact value is [W * 10^t0] with [W] of [D] digits: the [k]-digit
    decimals just below and just above.  One that reads back as [x] is
    returned, the closer one if both do, the even one on a tie. *)
Definition shortest_step (x : number) (W t0 D k : Z) : option (Z * Z) :=
  let drop := D - k in
  let t := t0 + drop in
  let lo := W / 10 ^ drop in
  let r := W mod 10 ^ drop in
  let '(hi, thi) :=
    if lo + 1 =? 10 ^ k then (10 ^ (k - 1), t + 1) else (lo + 1, t) in
  let ok_lo := bool_decide (round_decimal false lo t = x) in
  let ok_hi := bool_decide (round_decimal false hi thi = x) in
  match ok_lo, ok_hi with
  | true, false => Some (lo, t)
  | false, true => Some (hi, thi)
  | true, true =>
      if 2 * r <? 10 ^ drop then Some (lo, t)
      else if 10 ^ drop <? 2 * r then Some (hi, thi)
      else if Z.even lo then Some (lo, t) else Some (hi, thi)
  | false, false => None
  end.

(** Try [k], [k+1], ... digits; with all [D] digits the decimal is exact. *)
Fixpoint shortest_from (fuel : nat) (x : number) (W t0 D k : Z) : Z * Z :=
  match fuel with
  | O => (W, t0)
  | S fuel' =>
      match shortest_step x W t0 D k with
      | Some st => st
      | None => shortest_from fuel' x W t0 D (k + 1)
      end
  end.

(** The integers [s] and [t] of step 5 of [Number::toString] for the
    positive Number [m * 2^e]: [s * 10^t] reads back as that Number, with
    as few digits in [s] as possible ([n] of the standard is [k + t]). *)
Definition shortest_decimal (m e : Z) : Z * Z :=
  let '(W, t0) := exact_decimal m e in
  let D := Z.of_nat (length (digits W)) in
  shortest_from (Z.to_nat (D - 1)) (Finite m e) W t0 D 1.

Definition zeros (n : Z) : jsstring := repeat 48 (Z.to_nat n).

(** Steps 6 to 12 of [Number::toString]: lay out the digits [ds] of [s]
    with the decimal point after the [n]-th. *)
Definition format_decimal (ds : jsstring) (n : Z) : jsstring :=
  let k := Z.of_nat (length ds) in
  if (-6 <? n) && (n <=? 21) then
    if k <=? n then ds ++ zeros (n - k)
    else if 0 <? n then
      take (Z.to_nat n) ds ++ lit "." ++ drop (Z.to_nat n) ds
    else lit "0." ++ zeros (- n) ++ ds
  else
    let e := n - 1 in
    let sign := if e <? 0 then lit "-" else lit "+" in
    match ds with
    | [] => []
    | [d] => d :: lit "e" ++ sign ++ digit_chars (Z.abs e)
    | d :: ds' => d :: lit "." ++ ds' ++ lit "e" ++ sign ++ digit_chars (Z.abs e)
    end.

(** [Number::toString(x, 10)] *)
Definition toString (x : number) : jsstring :=
  match x with
  | NaN => lit "NaN"
  | Infinity neg => if neg then lit "-Infinity" else lit "Infinity"
  | Finite m e =>
      if m =? 0 then lit "0" else
      let '(s, t) := shortest_decimal (Z.abs m) e in
      let ds := digit_chars s in
      (if m <? 0 then lit "-" else []) ++
      format_decimal ds (Z.of_nat (length ds) + t)
  end.

(** *** Reading a JSON number *)

Definition is_digit (c : code_unit) : bool := (48 <=? c) && (c <=? 57).

(** The longest run of digits at the front of [s]: its value continuing
    [acc], its length, and what follows it. *)
Fixpoint read_digits (s : jsstring) (acc : Z) (len : Z) : Z * Z * jsstring :=
  match s with
  | c :: s' =>
      if is_digit c then read_digits s' (acc * 10 + (c - 48)) (len + 1)
      else (acc, len, s)
  | [] => (acc, len, s)
  end.

(** [int]: a single [0], or a digit from 1 to 9 and more digits. *)
Definition read_int (s : jsstring) : option (Z * jsstring) :=
  match s with
  | c :: s' =>
      if c =? 48 then Some (0, s')
      else if is_digit c then
        let '(v, _, r) := read_digits s 0 0 in Some (v, r)
      else None
  | [] => None
  end.

(** [frac]: nothing, or a point and at least one digit.  Returns the
    value of integer and fraction digits together and the number of
    fraction digits. *)
Definition read_frac (int : Z) (s : jsstring) : option (Z * Z * jsstring) :=
  match eat 46 s with
  | Some s' =>
      let '(v, len, r) := read_digits s' int 0 in
      if len =? 0 then None else Some (v, len, r)
  | None => Some (int, 0, s)
  end.

(** [exp]: nothing, or [e] or [E], an optional sign and at least one digit. *)
Definition read_exp (s : jsstring) : option (Z * jsstring) :=
  match s with
  | c :: s' =>
      if (c =? 101) || (c =? 69) then
        let '(neg, s'') :=
          match eat 43 s', eat 45 s' with
          | Some r, _ => (false, r)
          | None, Some r => (true, r)
          | None, None => (false, s')
          end in
        let '(v, len, r) := read_digits s'' 0 0 in
        if len =? 0 then None else Some (if neg then - v else v, r)
      else Some (0, s)
  | [] => Some (0, s)
  end.

(** A JSON number at the front of [s], rounded to a Number. *)
Definition read_number (s : jsstring) : option (number * jsstring) :=
  let '(neg, s1) :=
    match eat 45 s with Some r => (true, r) | None => (false, s) end in
  match read_int s1 with
  | None => None
  | Some (i, s2) =>
      match read_frac i s2 with
      | None => None
      | Some (d, flen, s3) =>
          match read_exp s3 with
          | None => None
          | Some (ex, s4) => Some (round_decimal neg d (ex - flen), s4)
          end
      end
  end.

(** *** Digit lists *)

(** The value of a digit list read after [acc]. *)
Fixpoint dec_val (acc : Z) (ds : list Z) : Z :=
  match ds with
  | [] => acc
  | d :: ds' => dec_val (acc * 10 + d) ds'
  end.

Definition is_dec (d : Z) : Prop := 0 <= d <= 9.

(** The text [rest] does not go on with a digit. *)
Definition not_digit_first (rest : jsstring) : Prop :=
  match rest with
  | [] => True
  | c :: _ => is_digit c = false
  end.

End NumText.
Export NumText.

(** ** Completions

    A call either returns a value or throws. *)

Module Completion.

Inductive exn :=
| SyntaxError.

Inductive result (A : Type) :=
| Ok (a : A)
| Throw (e : exn).
Arguments Ok {A} a.
Arguments Throw {A} e.

Definition bind {A B} (c : result A) (k : A -> result B) : result B :=
  match c with
  | Ok a => k a
  | Throw e => Throw e
  end.

(** [try { c } catch (error) { handler(error) }] *)
Definition try_catch {A} (c : result A) (handler : exn -> result A) : result A :=
  match c with
  | Ok a => Ok a
  | Throw e => handler e
  end.

Notation "x <- c ;; k" := (bind c (fun x => k))
  (at level 100, c at next level, right associativity).

End Completion.
Export Completion.

(** ** JSON

    The values [JSON.parse] can return, [JSON.stringify] on them (called
    with one argument: no replacer, no indentation), and [JSON.parse]
    (called with one argument: no reviver). *)

Module JSON.

(** An object lists its properties in the order of their creation; no
    key here is an array index, which the language would list first. *)
#[warnings="-register-all"]
Inductive value :=
| VNull
| VBool (b : bool)
| VNum (x : number)
| VStr (s : jsstring)
| VArr (elems : list value)
| VObj (props : list (jsstring * value)).

(** *** QuoteJSONString *)

Definition hex_char (d : Z) : code_unit :=
  if d <? 10 then 48 + d else 87 + d.

(** [\uXXXX] with lower-case hexadecimal digits. *)
Definition unicode_escape (c : code_unit) : jsstring :=
  [92; 117; hex_char (c / 4096 mod 16); hex_char (c / 256 mod 16);
   hex_char (c / 16 mod 16); hex_char (c mod 16)].

Definition is_high_surrogate (c : code_unit) : bool :=
  (0xD800 <=? c) && (c <=? 0xDBFF).

Definition is_low_surrogate (c : code_unit) : bool :=
  (0xDC00 <=? c) && (c <=? 0xDFFF).

(** A code unit that is not half of a surrogate pair. *)
Definition quote_unit (c : code_unit) : jsstring :=
  if c =? 8 then [92; 98]
  else if c =? 9 then [92; 116]
  else if c =? 10 then [92; 110]
  else if c =? 12 then [92; 102]
  else if c =? 13 then [92; 114]
  else if c =? 34 then [92; 34]
  else if c =? 92 then [92; 92]
  else if (c <? 32) || is_high_surrogate c || is_low_surrogate c
  then unicode_escape c
  else [c].

Fixpoint quote_chars (s : jsstring) : jsstring :=
  match s with
  | [] => []
  | c :: s' =>
      if is_high_surrogate c then
        match s' with
        | c2 :: s'' =>
            if is_low_surrogate c2 then c :: c2 :: quote_chars s''
            else unicode_escape c ++ quote_chars s'
        | [] => unicode_escape c
        end
      else quote_unit c ++ quote_chars s'
  end.

Definition quote (s : jsstring) : jsstring :=
  34 :: quote_chars s ++ [34].

(** *** JSON.stringify *)

Fixpoint join_comma (l : list jsstring) : jsstring :=
  match l with
  | [] => []
  | [x] => x
  | x :: l' => x ++ 44 :: join_comma l'
  end.

Fixpoint stringify (v : value) : jsstring :=
  match v with
  | VNull => lit "null"
  | VBool b => if b then lit "true" else lit "false"
  | VNum x => if is_finite x then toString x else lit "null"
  | VStr s => quote s
  | VArr elems => 91 :: join_comma (List.map stringify elems) ++ [93]
  | VObj props =>
      123 :: join_comma
               (List.map (fun p => quote (fst p) ++ 58 :: stringify (snd p)) props)
          ++ [125]
  end.

Definition JSON_stringify (v : value) : jsstring := stringify v.

(** *** JSON.parse *)

Definition is_json_ws (c : code_unit) : bool :=
  (c =? 9) || (c =? 10) || (c =? 13) || (c =? 32).

Fixpoint skip_ws (s : jsstring) : jsstring :=
  match s with
  | c :: s' => if is_json_ws c then skip_ws s' else s
  | [] => []
  end.

Definition hex_val (c : code_unit) : option Z :=
  if (48 <=? c) && (c <=? 57) then Some (c - 48)
  else if (97 <=? c) && (c <=? 102) then Some (c - 87)
  else if (65 <=? c) && (c <=? 70) then Some (c - 55)
  else None.

Definition hex4 (h1 h2 h3 h4 : code_unit) : option code_unit :=
  match hex_val h1, hex_val h2, hex_val h3, hex_val h4 with
  | Some d1, Some d2, Some d3, Some d4 =>
      Some (d1 * 4096 + d2 * 256 + d3 * 16 + d4)
  | _, _, _, _ => None
  end.

(** The character after a backslash, other than [u]. *)
Definition simple_escape (c : code_unit) : option code_unit :=
  if c =? 34 then Some 34
  else if c =? 92 then Some 92
  else if c =? 47 then Some 47
  else if c =? 98 then Some 8
  else if c =? 102 then Some 12
  else if c =? 110 then Some 10
  else if c =? 114 then Some 13
  else if c =? 116 then Some 9
  else None.

Definition cons_chars (c : code_unit) (r : option (jsstring * jsstring))
  : option (jsstring * jsstring) :=
  match r with
  | Some (str, rest) => Some (c :: str, rest)
  | None => None
  end.

(** A string literal whose opening quote has been read. *)
Fixpoint read_string_chars (s : jsstring) : option (jsstring * jsstring) :=
  match s with
  | [] => None
  | c :: s' =>
      if c =? 34 then Some ([], s')
      else if c =? 92 then
        match s' with
        | [] => None
        | e :: s'' =>
            if e =? 117 then
              match s'' with
              | h1 :: h2 :: h3 :: h4 :: s3 =>
                  match hex4 h1 h2 h3 h4 with
                  | Some u => cons_chars u (read_string_chars s3)
                  | None => None
                  end
              | _ => None
              end
            else
              match simple_escape e with
              | Some u => cons_chars u (read_string_chars s'')
              | None => None
              end
        end
      else if c <? 32 then None
      else cons_chars c (read_string_chars s')
  end.

Fixpoint starts_with (word s : jsstring) : option jsstring :=
  match word, s with
  | [], _ => Some s
  | w :: word', c :: s' => if w =? c then starts_with word' s' else None
  | _ :: _, [] => None
  end.

Definition read_literal (word : jsstring) (v : value) (s : jsstring)
  : option (value * jsstring) :=
  match starts_with word s with
  | Some rest => Some (v, rest)
  | None => None
  end.

(** [CreateDataProperty]: a key met again keeps its place and takes the
    new value. *)
Fixpoint define_property (k : jsstring) (v : value)
  (props : list (jsstring * value)) : list (jsstring * value) :=
  match props with
  | [] => [(k, v)]
  | (k', v') :: props' =>
      if bool_decide (k = k') then (k, v) :: props'
      else (k', v') :: define_property k v props'
  end.

Definition build_object (members : list (jsstring * value))
  : list (jsstring * value) :=
  fold_left (fun props m => define_property (fst m) (snd m) props) members [].

Fixpoint read_value (fuel : nat) (s : jsstring) : option (value * jsstring) :=
  match fuel with
  | O => None
  | S fuel' =>
      match skip_ws s with
      | [] => None
      | c :: s' =>
          if c =? 34 then
            match read_string_chars s' with
            | Some (str, r) => Some (VStr str, r)
            | None => None
            end
          else if c =? 91 then
            match eat 93 (skip_ws s') with
            | Some r => Some (VArr [], r)
            | None =>
                match read_elements fuel' s' with
                | Some (elems, r) => Some (VArr elems, r)
                | None => None
                end
            end
          else if c =? 123 then
            match eat 125 (skip_ws s') with
            | Some r => Some (VObj [], r)
            | None =>
                match read_members fuel' s' with
                | Some (members, r) => Some (VObj (build_object members), r)
                | None => None
                end
            end
          else if c =? 110 then read_literal (lit "null") VNull (c :: s')
          else if c =? 116 then read_literal (lit "true") (VBool true) (c :: s')
          else if c =? 102 then read_literal (lit "false") (VBool false) (c :: s')
          else
            match read_number (c :: s') with
            | Some (x, r) => Some (VNum x, r)
            | None => None
            end
      end
  end

with read_elements (fuel : nat) (s : jsstring)
  : option (list value * jsstring) :=
  match fuel with
  | O => None
  | S fuel' =>
      match read_value fuel' s with
      | None => None
      | Some (v, r) =>
          match skip_ws r with
          | c :: r' =>
              if c =? 44 then
                match read_elements fuel' r' with
                | Some (elems, r'') => Some (v :: elems, r'')
                | None => None
                end
              else if c =? 93 then Some ([v], r')
              else None
          | [] => None
          end
      end
  end

with read_members (fuel : nat) (s : jsstring)
  : option (list (jsstring * value) * jsstring) :=
  match fuel with
  | O => None
  | S fuel' =>
      match eat 34 (skip_ws s) with
      | Some s1 =>
          match read_string_chars s1 with
          | None => None
          | Some (k, s2) =>
              match eat 58 (skip_ws s2) with
              | Some s3 =>
                  match read_value fuel' s3 with
                  | None => None
                  | Some (v, s4) =>
                      match skip_ws s4 with
                      | c :: s5 =>
                          if c =? 44 then
                            match read_members fuel' s5 with
                            | Some (members, r) => Some ((k, v) :: members, r)
                            | None => None
                            end
                          else if c =? 125 then Some ([(k, v)], s5)
                          else None
                      | [] => None
                      end
                  end
              | None => None
              end
          end
      | None => None
      end
  end.

(** Two units of fuel for each character and two more: no text needs
    more ([parse_fuel_enough]). *)
Definition parse_fuel (s : jsstring) : nat := 2 * length s + 2.

(** [JSON.parse(text)]: the value of the text, or a [SyntaxError]. *)
Definition JSON_parse (text : jsstring) : result value :=
  match read_value (parse_fuel text) text with
  | Some (v, rest) =>
      match skip_ws rest with
      | [] => Ok v
      | _ :: _ => Throw SyntaxError
      end
  | None => Throw SyntaxError
  end.

(** *** Texts written by JSON.stringify *)

(** The values that [JSON.stringify] writes and [JSON.parse] gives back
    unchanged: the numbers are finite and in normal form, the strings
    are made of code units, the keys of an object are all different. *)
Fixpoint wf_value (v : value) : bool :=
  match v with
  | VNull | VBool _ => true
  | VNum x => is_finite x && wf_number x
  | VStr s => wf_string s
  | VArr elems => forallb wf_value elems
  | VObj props =>
      forallb (fun p => wf_string (fst p) && wf_value (snd p)) props
      && bool_decide (NoDup (List.map fst props))
  end.

(** Fuel that [read_value] needs for the text of a value. *)
Fixpoint need (v : value) : nat :=
  match v with
  | VArr elems => S (list_sum (List.map (fun v => S (need v)) elems))
  | VObj props => S (list_sum (List.map (fun p => S (need (snd p))) props))
  | _ => 1
  end.

(** The first character of the text of a value. *)
Definition value_start (c : code_unit) : Prop :=
  c = 34 \/ c = 91 \/ c = 123 \/ c = 110 \/ c = 116 \/ c = 102
  \/ is_digit c = true \/ c = 45.

(** What may follow a value in a text written by [JSON.stringify]:
    nothing, a comma, or the end of an array or an object. *)
Definition value_end (rest : jsstring) : Prop :=
  match rest with
  | [] => True
  | c :: _ => c = 44 \/ c = 93 \/ c = 125
  end.

(** With enough fuel, the text of [v] reads back as [v], whatever
    follows it. *)
Definition reads_back (v : value) : Prop :=
  wf_value v = true ->
  forall (fuel : nat) (rest : jsstring),
    (need v <= fuel)%nat -> value_end rest ->
    read_value fuel (stringify v ++ rest) = Some (v, rest).

End JSON.
Export JSON.

(** ** The application (src/app.js) *)

Module App.

(** A todo, as [addTodo] builds it. *)
Record Todo := {
  id : number;
  text : jsstring;
  completed : bool;
  createdAt : jsstring
}.

#[global] Instance Todo_eq_dec : EqDecision Todo.
Proof. solve_decision. Defined.

(** What a call of [addTodo] reads from its surroundings: the clock, in
    milliseconds, the draw of [Math.random()], and the text of
    [new Date().toISOString()]. *)
Record Env := {
  Date_now : Z;
  Math_random : number;
  Date_toISOString : jsstring
}.

(** [Math.random()] is a Number at least 0 and less than 1. *)
Definition random_ok (x : number) : bool :=
  match x with
  | Finite m e => wf_number x && (0 <=? m) && ((e <? - 52) || (m =? 0))
  | _ => false
  end.

(** [Date.now()] is a time value: a whole number of milliseconds, at
    most 8.64e15 from the epoch. *)
Definition env_ok (env : Env) : bool :=
  (0 <=? Date_now env) && (Date_now env <=? 8640000000000000)
  && random_ok (Math_random env).

(** *** App: the state updates *)

Definition newTodo (env : Env) (text : jsstring) : Todo :=
  {| id := num_add (of_Z (Date_now env)) (Math_random env);
     text := text;
     completed := false;
     createdAt := Date_toISOString env |}.

Definition addTodo (env : Env) (text : jsstring) (prevTodos : list Todo)
  : list Todo :=
  newTodo env text :: prevTodos.

(** [{ ...todo, completed: c }] *)
Definition set_completed (c : bool) (todo : Todo) : Todo :=
  {| id := id todo; text := text todo; completed := c;
     createdAt := createdAt todo |}.

(** [{ ...todo, text: t }] *)
Definition set_text (t : jsstring) (todo : Todo) : Todo :=
  {| id := id todo; text := t; completed := completed todo;
     createdAt := createdAt todo |}.

Definition toggleTodo (i : number) (prevTodos : list Todo) : list Todo :=
  List.map
    (fun todo =>
       if strict_eq (id todo) i
       then set_completed (negb (completed todo)) todo
       else todo)
    prevTodos.

Definition deleteTodo (i : number) (prevTodos : list Todo) : list Todo :=
  List.filter (fun todo => negb (strict_eq (id todo) i)) prevTodos.

Definition editTodo (i : number) (newText : jsstring) (prevTodos : list Todo)
  : list Todo :=
  List.map
    (fun todo => if strict_eq (id todo) i then set_text newText todo else todo)
    prevTodos.

(** *** App: the counters *)

Definition totalTodos (todos : list Todo) : Z :=
  Z.of_nat (length todos).

Definition completedTodos (todos : list Todo) : Z :=
  Z.of_nat (length (List.filter (fun todo => completed todo) todos)).

Definition pendingTodos (todos : list Todo) : Z :=
  totalTodos todos - completedTodos todos.

(** *** TodoList *)

Definition filteredTodos (todos : list Todo) (filter : jsstring) : list Todo :=
  List.filter
    (fun todo =>
       if bool_decide (filter = lit "completed") then completed todo
       else if bool_decide (filter = lit "pending") then negb (completed todo)
       else true)
    todos.

(** *** AddTodo *)

(** The [maxLength] of both text inputs. *)
Definition maxLength : Z := 100.

(** [handleSubmit] with the input holding [inputValue]: the argument of
    the call of [onAddTodo], if it is made, and the next [inputValue]. *)
Definition handleSubmit (inputValue : jsstring) : option jsstring * jsstring :=
  let trimmedValue := trim inputValue in
  if truthy trimmedValue then (Some trimmedValue, [])
  else (None, inputValue).

(** *** TodoItem *)

Record ItemState := {
  isEditing : bool;
  editValue : jsstring;
  isRemoving : bool
}.

(** [handleEdit]: the arguments of the call of [onEditTodo], if it is
    made, and the next state of the item. *)
Definition handleEdit (todo : Todo) (st : ItemState)
  : option (number * jsstring) * ItemState :=
  if isEditing st then
    let trimmedValue := trim (editValue st) in
    if truthy trimmedValue && negb (bool_decide (trimmedValue = text todo))
    then
      (Some (id todo, trimmedValue),
       {| isEditing := negb (isEditing st); editValue := editValue st;
          isRemoving := isRemoving st |})
    else
      (None,
       {| isEditing := negb (isEditing st); editValue := text todo;
          isRemoving := isRemoving st |})
  else
    (None,
     {| isEditing := negb (isEditing st); editValue := editValue st;
        isRemoving := isRemoving st |}).

(** *** Persistence *)

Definition todoApp_todos : jsstring := lit "todoApp_todos".

(** A todo and a collection as the values [JSON] handles. *)
Definition todo_value (todo : Todo) : value :=
  VObj [(lit "id", VNum (id todo));
        (lit "text", VStr (text todo));
        (lit "completed", VBool (completed todo));
        (lit "createdAt", VStr (createdAt todo))].

Definition todos_value (todos : list Todo) : value :=
  VArr (List.map todo_value todos).

(** The todo that a value is, if it is one. *)
Definition value_todo (v : value) : option Todo :=
  match v with
  | VObj [(k1, VNum i); (k2, VStr t); (k3, VBool c); (k4, VStr d)] =>
      if bool_decide (k1 = lit "id") && bool_decide (k2 = lit "text")
         && bool_decide (k3 = lit "completed")
         && bool_decide (k4 = lit "createdAt")
      then Some {| id := i; text := t; completed := c; createdAt := d |}
      else None
  | _ => None
  end.

Definition value_todos (v : value) : option (list Todo) :=
  match v with
  | VArr elems => mapM value_todo elems
  | _ => None
  end.

(** What the script does to the world outside its state. *)
Inductive effect :=
| SetItem (key val : jsstring)
| ConsoleError (message : jsstring) (error : exn).

Record AppState := {
  todos : list Todo;
  localStorage : gmap jsstring jsstring;
  trace : list effect
}.

(** The message of the [console.error] of the effect of mount. *)
Definition load_error_message : jsstring :=
  lit "Error loading todos from localStorage:".

(** The effect of mount.  Returns the value [todos] holds once it has
    run, [[]] of [useState] unless [setTodos] was called, and what was
    written to the console. *)
Definition load (storage : gmap jsstring jsstring)
  : result (value * list effect) :=
  match storage !! todoApp_todos with
  | Some savedTodos =>
      if truthy savedTodos then
        try_catch
          (parsedTodos <- JSON_parse savedTodos ;;
           Ok (parsedTodos, []))
          (fun error =>
             Ok (VArr [], [ConsoleError load_error_message error]))
      else Ok (VArr [], [])
  | None => Ok (VArr [], [])
  end.

(** The effect on [[todos]]. *)
Definition save (todos : list Todo) (storage : gmap jsstring jsstring)
  : gmap jsstring jsstring :=
  <[todoApp_todos := JSON_stringify (todos_value todos)]> storage.

(** [setTodos(update)] and the render after it: the update always makes a
    new array, so the effect on [[todos]] runs. *)
Definition setTodos (update : list Todo -> list Todo) (st : AppState)
  : AppState :=
  let todos' := update (todos st) in
  {| todos := todos';
     localStorage := save todos' (localStorage st);
     trace := trace st
              ++ [SetItem todoApp_todos (JSON_stringify (todos_value todos'))] |}.

(** *** The operations of the interface *)

(** Submitting the form of [AddTodo] with [inputValue] in the input. *)
Definition add (env : Env) (inputValue : jsstring) (st : AppState) : AppState :=
  match fst (handleSubmit inputValue) with
  | Some trimmedValue => setTodos (addTodo env trimmedValue) st
  | None => st
  end.

(** Clicking the checkbox of the item of id [i]. *)
Definition toggle (i : number) (st : AppState) : AppState :=
  setTodos (toggleTodo i) st.

(** The timeout of [handleDelete] for the item of id [i]. *)
Definition remove (i : number) (st : AppState) : AppState :=
  setTodos (deleteTodo i) st.

(** [handleEdit] of the item showing [todo], in edit mode with [newText]
    typed in (Save, Enter, or leaving the input). *)
Definition edit (todo : Todo) (newText : jsstring) (st : AppState) : AppState :=
  match fst (handleEdit todo
               {| isEditing := true; editValue := newText;
                  isRemoving := false |}) with
  | Some (i, trimmedValue) => setTodos (editTodo i trimmedValue) st
  | None => st
  end.

(** What the user does. [Edit n v] edits the item at place [n]. *)
Inductive event :=
| Add (env : Env) (inputValue : jsstring)
| Toggle (i : number)
| Delete (i : number)
| Edit (n : nat) (newText : jsstring).

Definition step (st : AppState) (ev : event) : AppState :=
  match ev with
  | Add env inputValue => add env inputValue st
  | Toggle i => toggle i st
  | Delete i => remove i st
  | Edit n newText =>
      match todos st !! n with
      | Some todo => edit todo newText st
      | None => st
      end
  end.

Definition run (st : AppState) (evs : list event) : AppState :=
  fold_left step evs st.

(** Both inputs have [maxLength={100}]: what is typed is no longer. *)
Definition event_ok (ev : event) : bool :=
  match ev with
  | Add _ inputValue => js_length inputValue <=? maxLength
  | Edit _ newText => js_length newText <=? maxLength
  | Toggle _ | Delete _ => true
  end.

Definition initial (storage : gmap jsstring jsstring) : AppState :=
  {| todos := []; localStorage := storage; trace := [] |}.

(** *** The data model *)

(** A text is not empty, has no white space at either end, and is at
    most [maxLength] code units long. *)
Definition text_ok (t : jsstring) : bool :=
  truthy t && bool_decide (trim t = t) && (js_length t <=? maxLength).

Definition texts_ok (todos : list Todo) : Prop :=
  Forall (fun todo => text_ok (text todo) = true) todos.

(** No two todos of the collection have the same id. *)
Definition ids_unique (todos : list Todo) : Prop :=
  NoDup (List.map id todos).

(** A collection as the script makes it: the ids are finite Numbers, the
    strings are made of code units. *)
Definition wf_todo (todo : Todo) : bool :=
  is_finite (id todo) && wf_number (id todo)
  && wf_string (text todo) && wf_string (createdAt todo).

Definition wf_todos (todos : list Todo) : bool := forallb wf_todo todos.

End App.
Export App.

(** ** Scenarios *)

Module Scenario.

Definition no_storage : gmap jsstring jsstring := ∅.

(** Two todos added within one millisecond: the clock reads the same,
    the two draws differ, 0.3125 and 0.31256103515625 (both are multiples
    of [2^-52], as the draws of the usual generators are). *)
Definition env_a : Env :=
  {| Date_now := 1700000000000;
     Math_random := round_decimal false 3125 (-4);
     Date_toISOString := lit "2023-11-14T22:13:20.000Z" |}.

Definition env_b : Env :=
  {| Date_now := 1700000000000;
     Math_random := round_decimal false 31256103515625 (-14);
     Date_toISOString := lit "2023-11-14T22:13:20.000Z" |}.

Definition two_adds : list event :=
  [Add env_a (lit "buy milk"); Add env_b (lit "walk dog")].

(** A later millisecond. *)
Definition env_c : Env :=
  {| Date_now := 1700000000001;
     Math_random := round_decimal false 5 (-1);
     Date_toISOString := lit "2023-11-14T22:13:20.001Z" |}.

Definition milk : Todo := newTodo env_a (lit "buy milk").
Definition dog : Todo := newTodo env_c (lit "walk dog").

(** [walk dog] was added after [buy milk]. *)
Definition two_todos : list Todo := [dog; milk].

(** The store with the empty string under the key of the todos. *)
Definition empty_string_stored : gmap jsstring jsstring :=
  {[ todoApp_todos := [] ]}.

(** The store with a text that is not JSON under that key. *)
Definition garbage_stored : gmap jsstring jsstring :=
  {[ todoApp_todos := lit "{oops" ]}.

End Scenario.

(** ** The rest of the components *)

(** *** AddTodo: the button and the keys *)

Module AddTodo.

(** [disabled={!inputValue.trim()}] of the Add button. *)
Definition disabled (inputValue : jsstring) : bool :=
  negb (truthy (trim inputValue)).

(** [handleKeyPress]: Enter submits, another key does nothing here. *)
Definition handleKeyPress (key : jsstring) (inputValue : jsstring)
  : option jsstring * jsstring :=
  if bool_decide (key = lit "Enter") then handleSubmit inputValue
  else (None, inputValue).

End AddTodo.

(** *** TodoItem: the other handlers *)

Module TodoItem.

(** The three [useState] of an item shown for [todo]. *)
Definition mounted (todo : Todo) : ItemState :=
  {| isEditing := false; editValue := text todo; isRemoving := false |}.

(** [onChange] of the input. *)
Definition onChange (v : jsstring) (st : ItemState) : ItemState :=
  {| isEditing := isEditing st; editValue := v; isRemoving := isRemoving st |}.

(** [handleDelete]: the item is marked; the id is what [onDeleteTodo]
    gets when the timeout fires. *)
Definition handleDelete (todo : Todo) (st : ItemState) : number * ItemState :=
  (id todo,
   {| isEditing := isEditing st; editValue := editValue st;
      isRemoving := true |}).

(** [handleKeyPress] of the input: Enter is [handleEdit], Escape gives
    the edit up. *)
Definition handleKeyPress (key : jsstring) (todo : Todo) (st : ItemState)
  : option (number * jsstring) * ItemState :=
  if bool_decide (key = lit "Enter") then handleEdit todo st
  else if bool_decide (key = lit "Escape") then
    (None,
     {| isEditing := false; editValue := text todo;
        isRemoving := isRemoving st |})
  else (None, st).

Definition handleTextClick (st : ItemState) : ItemState :=
  if negb (isEditing st) then
    {| isEditing := true; editValue := editValue st;
       isRemoving := isRemoving st |}
  else st.

(** What the user does to the text of one item.  The input, with its
    [onChange], [onBlur] and [onKeyPress], is there in edit mode only;
    the Edit/Save button always. *)
Inductive item_event :=
| Change (v : jsstring)
| Blur
| KeyPress (key : jsstring)
| TextClick
| EditClick.

(** The handler an event runs: the call of [onEditTodo] it makes, if
    any, and the next state of the item. *)
Definition handle (todo : Todo) (st : ItemState) (ev : item_event)
  : option (number * jsstring) * ItemState :=
  match ev with
  | Change v => (None, if isEditing st then onChange v st else st)
  | Blur => if isEditing st then handleEdit todo st else (None, st)
  | KeyPress key =>
      if isEditing st then handleKeyPress key todo st else (None, st)
  | TextClick => (None, handleTextClick st)
  | EditClick => handleEdit todo st
  end.

(** The todo the item shows after a call of [onEditTodo]: what
    [editTodo] makes of it. *)
Definition shown_after (todo : Todo) (call : option (number * jsstring)) : Todo :=
  match call with
  | Some (i, newText) =>
      match editTodo i newText [todo] with
      | todo' :: _ => todo'
      | [] => todo
      end
  | None => todo
  end.

(** A run of events on one item: the todo shown and the state at the
    end, and the calls of [onEditTodo] made on the way, in order. *)
Fixpoint item_run (todo : Todo) (st : ItemState) (evs : list item_event)
  : Todo * ItemState * list (number * jsstring) :=
  match evs with
  | [] => (todo, st, [])
  | ev :: evs' =>
      let '(call, st') := handle todo st ev in
      let '(todo'', st'', calls) := item_run (shown_after todo call) st' evs' in
      (todo'', st'',
       match call with Some c => c :: calls | None => calls end)
  end.

Definition is_change (ev : item_event) : bool :=
  match ev with Change _ => true | _ => false end.

End TodoItem.

(** *** ThemeProvider *)

Module Theme.

Definition todoApp_darkMode : jsstring := lit "todoApp_darkMode".

(** [ToBoolean] of a value. *)
Definition to_boolean (v : value) : bool :=
  match v with
  | VNull => false
  | VBool b => b
  | VNum (Finite m _) => negb (m =? 0)
  | VNum (Infinity _) => true
  | VNum NaN => false
  | VStr s => truthy s
  | VArr _ | VObj _ => true
  end.

(** The initial state of [isDarkMode].  Nothing catches what
    [JSON.parse] throws here. *)
Definition initial_isDarkMode (storage : gmap jsstring jsstring)
  : result value :=
  match storage !! todoApp_darkMode with
  | Some saved =>
      if truthy saved then JSON_parse saved else Ok (VBool false)
  | None => Ok (VBool false)
  end.

(** The effect on [[isDarkMode]]: the attribute it sets on the document
    and the store after it. *)
Definition color_scheme (isDarkMode : value) : jsstring :=
  if to_boolean isDarkMode then lit "dark" else lit "light".

Definition theme_effect (isDarkMode : value)
    (storage : gmap jsstring jsstring) : gmap jsstring jsstring :=
  <[todoApp_darkMode := JSON_stringify isDarkMode]> storage.

(** [toggleTheme]: [setIsDarkMode(!isDarkMode)]. *)
Definition toggleTheme (isDarkMode : value) : value :=
  VBool (negb (to_boolean isDarkMode)).

End Theme.

(** *** App: a session *)

Module Session.

(** The store holds the text of the collection of the state. *)
Definition synced (st : AppState) : Prop :=
  localStorage st !! todoApp_todos
  = Some (JSON_stringify (todos_value (todos st))).

Definition is_add (ev : event) : bool :=
  match ev with Add _ _ => true | _ => false end.

(** What is typed is made of code units; the clock, the draw and the
    date text are what the platform gives. *)
Definition event_wf (ev : event) : bool :=
  match ev with
  | Add env inputValue =>
      env_ok env && wf_string (Date_toISOString env) && wf_string inputValue
  | Edit _ newText => wf_string newText
  | Toggle _ | Delete _ => true
  end.

(** The state after the two effects of the first render, where [todos]
    is [[]]: what the first one wrote to the console, then the write of
    the second. *)
Definition first_render (storage : gmap jsstring jsstring)
    (console : list effect) : AppState :=
  {| todos := [];
     localStorage := save [] storage;
     trace := console ++ [SetItem todoApp_todos (JSON_stringify (todos_value []))] |}.

(** Mounting [App] on a store.  The effect of mount reads the store and
    may call [setTodos(parsedTodos)]; the effect on [[todos]] then writes
    the [[]] of the first render; the render after [setTodos] writes
    again.  [None] when what was parsed is not a collection of todos:
    rendering it is outside this embedding. *)
Definition mount (storage : gmap jsstring jsstring) : option AppState :=
  match storage !! todoApp_todos with
  | Some savedTodos =>
      if truthy savedTodos then
        match JSON_parse savedTodos with
        | Ok parsedTodos =>
            match value_todos parsedTodos with
            | Some l => Some (setTodos (fun _ => l) (first_render storage []))
            | None => None
            end
        | Throw error =>
            Some (first_render storage
                    [ConsoleError load_error_message error])
        end
      else Some (first_render storage [])
  | None => Some (first_render storage [])
  end.

(** What a todo is known by from its creation on. *)
Definition identity (todo : Todo) : number * jsstring :=
  (id todo, createdAt todo).

(** A write of the text of a collection under the key of the todos. *)
Definition is_save (ef : effect) : Prop :=
  exists l, ef = SetItem todoApp_todos (JSON_stringify (todos_value l)).

End Session.

(** *** More scenarios *)

Module Cases.

(** A store with both keys written by the script. *)
Definition both_stored : gmap jsstring jsstring :=
  Theme.theme_effect (VBool true)
    (save Scenario.two_todos Scenario.no_storage).

(** A store with a text that is not JSON under the key of the theme. *)
Definition garbage_theme : gmap jsstring jsstring :=
  {[ Theme.todoApp_darkMode := lit "dark" ]}.

(** Leaving the input, clicking Save, opening again, pressing Enter. *)
Definition save_twice : list TodoItem.item_event :=
  [TodoItem.Blur; TodoItem.EditClick; TodoItem.KeyPress (lit "Enter");
   TodoItem.EditClick; TodoItem.Blur].

Definition session : list event :=
  [Add Scenario.env_a (lit " buy milk ");
   Add Scenario.env_c (lit "walk dog");
   Toggle (id Scenario.milk);
   Edit 0 (lit "walk the dog");
   Delete (id Scenario.milk)].

End Cases.

(** * Properties *)

(** ** Trimming *)

Section Trim.

Implicit Types s : jsstring.

Lemma trimStart_length s : (length (trimStart s) <= length s)%nat.
Proof.
  induction s as [|c s IH]; simpl; [lia|].
  destruct (is_white_space c); simpl; lia.
Qed.

Lemma trimStart_head s c s' :
  trimStart s = c :: s' -> is_white_space c = false.
Proof.
  induction s as [|d s IH]; simpl; [discriminate|].
  destruct (is_white_space d) eqn:Hd; [exact IH|].
  intros [= <- _]. exact Hd.
Qed.

Lemma trimStart_fixed c s : is_white_space c = false -> trimStart (c :: s) = c :: s.
Proof. intros H. simpl. now rewrite H. Qed.

Lemma trimStart_idem s : trimStart (trimStart s) = trimStart s.
Proof.
  destruct (trimStart s) as [|c s'] eqn:E; [reflexivity|].
  apply trimStart_fixed. eapply trimStart_head; eassumption.
Qed.

(** Trailing white space goes; a first character that is none stays. *)
Lemma trimStart_app_keep s c :
  is_white_space c = false -> trimStart (s ++ [c]) = trimStart s ++ [c].
Proof.
  intros Hc. induction s as [|d s IH]; simpl.
  - now rewrite Hc.
  - destruct (is_white_space d); [exact IH|reflexivity].
Qed.

Lemma trimStart_app_ws s c :
  is_white_space c = true ->
  trimStart (s ++ [c]) = match trimStart s with [] => [] | t => t ++ [c] end.
Proof.
  intros Hc. induction s as [|d s IH]; simpl.
  - now rewrite Hc.
  - destruct (is_white_space d); [exact IH|reflexivity].
Qed.

Lemma trimEnd_length s : (length (trimEnd s) <= length s)%nat.
Proof.
  unfold trimEnd. rewrite length_rev.
  etransitivity; [apply trimStart_length|]. now rewrite length_rev.
Qed.

Lemma trimEnd_idem s : trimEnd (trimEnd s) = trimEnd s.
Proof. unfold trimEnd. now rewrite rev_involutive, trimStart_idem. Qed.

(** [trimEnd] keeps a first character that is not white space. *)
Lemma trimEnd_cons c s :
  is_white_space c = false -> trimEnd (c :: s) = c :: trimEnd s.
Proof.
  intros Hc. unfold trimEnd. simpl rev.
  rewrite trimStart_app_keep by exact Hc.
  now rewrite rev_app_distr.
Qed.

Lemma trim_length s : (length (trim s) <= length s)%nat.
Proof.
  unfold trim. etransitivity; [apply trimEnd_length|apply trimStart_length].
Qed.

Lemma trimStart_trim s : trimStart (trim s) = trim s.
Proof.
  unfold trim. destruct (trimStart s) as [|c t] eqn:E; [reflexivity|].
  pose proof (trimStart_head _ _ _ E) as Hc.
  rewrite (trimEnd_cons c t Hc).
  now apply trimStart_fixed.
Qed.

Lemma trim_idem s : trim (trim s) = trim s.
Proof.
  unfold trim at 1. rewrite trimStart_trim.
  unfold trim. apply trimEnd_idem.
Qed.

Lemma truthy_nil s : truthy s = false <-> s = [].
Proof. destruct s; simpl; split; congruence. Qed.

End Trim.

(** ** Numbers as text: what is written reads back *)

(** *** Rounding *)

Section Rounding.

Implicit Types (p q m e l : Z).

(** [scaled_le] after clearing the negative exponent. *)
Lemma scaled_le_shift q l p K :
  0 <= K -> 0 <= l + K ->
  scaled_le q l p = true <-> q * 2 ^ (l + K) <= p * 2 ^ K.
Proof.
  intros HK HlK. unfold scaled_le.
  assert (H2K : 0 < 2 ^ K) by (apply Z.pow_pos_nonneg; lia).
  destruct (0 <=? l) eqn:Hl.
  - apply Z.leb_le in Hl. rewrite Z.leb_le, Z.pow_add_r by lia.
    rewrite Z.mul_assoc. split; intros H.
    + apply Z.mul_le_mono_nonneg_r; lia.
    + apply Z.mul_le_mono_pos_r in H; lia.
  - apply Z.leb_gt in Hl. rewrite Z.leb_le.
    assert (E : 2 ^ K = 2 ^ (- l) * 2 ^ (l + K)).
    { rewrite <- Z.pow_add_r by lia. f_equal. lia. }
    assert (H2 : 0 < 2 ^ (l + K)) by (apply Z.pow_pos_nonneg; lia).
    rewrite E, Z.mul_assoc. split; intros H.
    + apply Z.mul_le_mono_nonneg_r; lia.
    + apply Z.mul_le_mono_pos_r in H; lia.
Qed.

Lemma scaled_le_mono q x y p :
  0 < q -> y <= x -> scaled_le q x p = true -> scaled_le q y p = true.
Proof.
  intros Hq Hyx H. set (K := Z.max 0 (Z.max (- x) (- y))).
  apply (scaled_le_shift q x p K) in H; [|lia|lia].
  apply (scaled_le_shift q y p K); [lia|lia|].
  etransitivity; [|exact H]. apply Z.mul_le_mono_nonneg_l; [lia|].
  apply Z.pow_le_mono_r; lia.
Qed.

(** The exponent [l] with [2^l <= p/q < 2^(l+1)] is unique. *)
Lemma scaled_le_unique q p x y :
  0 < q ->
  scaled_le q x p = true -> scaled_le q (x + 1) p = false ->
  scaled_le q y p = true -> scaled_le q (y + 1) p = false ->
  x = y.
Proof.
  intros Hq Hx Hx' Hy Hy'.
  destruct (Z.lt_trichotomy x y) as [Hlt | [-> | Hgt]]; [|reflexivity|].
  - rewrite (scaled_le_mono q y (x + 1) p) in Hx'; [discriminate|lia|lia|exact Hy].
  - rewrite (scaled_le_mono q x (y + 1) p) in Hy'; [discriminate|lia|lia|exact Hx].
Qed.

Lemma floor_log2_ratio_spec p q :
  0 < p -> 0 < q ->
  scaled_le q (floor_log2_ratio p q) p = true /\
  scaled_le q (floor_log2_ratio p q + 1) p = false.
Proof.
  intros Hp Hq. unfold floor_log2_ratio.
  pose proof (Z.log2_spec p Hp) as [Hpl Hpu].
  pose proof (Z.log2_spec q Hq) as [Hql Hqu].
  pose proof (Z.log2_nonneg p) as Ha. pose proof (Z.log2_nonneg q) as Hb.
  set (a := Z.log2 p) in *. set (b := Z.log2 q) in *.
  set (K := a + b + 2).
  assert (H2K : 0 < 2 ^ K) by (apply Z.pow_pos_nonneg; lia).
  destruct (scaled_le q (a - b) p) eqn:E.
  - split; [exact E|]. apply not_true_iff_false. intros H.
    apply (scaled_le_shift q (a - b + 1) p K) in H; [|lia|lia].
    assert (2 ^ b * 2 ^ (a - b + 1 + K) <= q * 2 ^ (a - b + 1 + K)).
    { apply Z.mul_le_mono_nonneg_r; [apply Z.pow_nonneg|]; lia. }
    assert (p * 2 ^ K < 2 ^ Z.succ a * 2 ^ K).
    { apply Z.mul_lt_mono_pos_r; lia. }
    rewrite <- !Z.pow_add_r in * by lia.
    replace (b + (a - b + 1 + K)) with (Z.succ a + K) in * by lia. lia.
  - split.
    + apply (scaled_le_shift q (a - b - 1) p K); [lia|lia|].
      assert (q * 2 ^ (a - b - 1 + K) < 2 ^ Z.succ b * 2 ^ (a - b - 1 + K)).
      { apply Z.mul_lt_mono_pos_r; [apply Z.pow_pos_nonneg|]; lia. }
      assert (2 ^ a * 2 ^ K <= p * 2 ^ K).
      { apply Z.mul_le_mono_nonneg_r; lia. }
      rewrite <- !Z.pow_add_r in * by lia.
      replace (Z.succ b + (a - b - 1 + K)) with (a + K) in * by lia. lia.
    + now replace (a - b - 1 + 1) with (a - b) by lia.
Qed.

Lemma wf_number_Finite m e :
  wf_number (Finite m e) = true ->
  Z.abs m < 2 ^ 53 /\ emin <= e <= emax /\ (2 ^ 52 <= Z.abs m \/ e = emin).
Proof.
  unfold wf_number, prec. rewrite !andb_true_iff, orb_true_iff.
  rewrite Z.ltb_lt, !Z.leb_le, Z.eqb_eq. change (53 - 1) with 52. tauto.
Qed.

(** A ratio equal to a Number of the format rounds to it. *)
Lemma round_ratio_exact p q m e :
  0 < p -> 0 < q -> 0 < m -> wf_number (Finite m e) = true ->
  p * 2 ^ Z.max 0 (- e) = m * (q * 2 ^ Z.max 0 e) ->
  round_ratio false p q = Finite m e.
Proof.
  intros Hp Hq Hm Hwf Hpq.
  apply wf_number_Finite in Hwf as (Hm53 & He & Hnorm).
  rewrite Z.abs_eq in * by lia. unfold emin, emax in *.
  destruct (floor_log2_ratio_spec p q Hp Hq) as [HL HL'].
  set (L := floor_log2_ratio p q) in *.
  (* the ratio, cleared of negative exponents *)
  assert (Hshift : forall K, 0 <= K -> 0 <= K + e ->
                     p * 2 ^ K = m * q * 2 ^ (K + e)).
  { intros K HK HKe.
    assert (E1 : 2 ^ K = 2 ^ Z.max 0 (- e) * 2 ^ (K - Z.max 0 (- e))).
    { rewrite <- Z.pow_add_r by lia. f_equal. lia. }
    assert (E2 : 2 ^ (K + e) = 2 ^ Z.max 0 e * 2 ^ (K - Z.max 0 (- e))).
    { rewrite <- Z.pow_add_r by lia. f_equal. lia. }
    rewrite E1, E2, Z.mul_assoc, Hpq. ring. }
  assert (HE : Z.max emin (L - (prec - 1)) = e).
  { unfold emin, prec. change (53 - 1) with 52.
    set (K := Z.max 0 (- L) + 1100).
    assert (HK : 0 <= K) by lia.
    assert (H2 : 0 < 2 ^ (K + e)) by (apply Z.pow_pos_nonneg; lia).
    destruct (Z.le_gt_cases (2 ^ 52) m) as [Hbig | Hsmall];
      [clear Hnorm | assert (e = -1074) as -> by lia].
    - enough (L = 52 + e) by lia.
      apply (scaled_le_unique q p); [exact Hq|exact HL|exact HL'| |].
      + apply (scaled_le_shift q (52 + e) p K); [lia|lia|].
        rewrite Hshift by lia.
        replace (52 + e + K) with (52 + (K + e)) by lia.
        rewrite Z.pow_add_r by lia. nia.
      + apply not_true_iff_false. intros H.
        apply (scaled_le_shift q (52 + e + 1) p K) in H; [|lia|lia].
        rewrite Hshift in H by lia.
        replace (52 + e + 1 + K) with (53 + (K + e)) in H by lia.
        rewrite Z.pow_add_r in H by lia. nia.
    - enough (L < 52 + -1074) by lia.
      apply (scaled_le_shift q L p K) in HL; [|lia|lia].
      rewrite Hshift in HL by lia.
      destruct (Z.lt_ge_cases L (52 + -1074)) as [Hlt|Hge]; [exact Hlt|exfalso].
      assert (2 ^ (52 + (K + -1074)) <= 2 ^ (L + K))
        by (apply Z.pow_le_mono_r; lia).
      rewrite Z.pow_add_r in H by lia.
      set (X := 2 ^ (K + -1074)) in *. set (Y := 2 ^ (L + K)) in *.
      assert (H1 : q * (2 ^ 52 * X) <= q * Y)
        by (apply Z.mul_le_mono_nonneg_l; lia).
      assert (H3 : (2 ^ 52) * (q * X) <= m * (q * X)).
      { clearbody X Y. clear - HL H1. lia. }
      apply Z.mul_le_mono_pos_r in H3; [lia|]. apply Z.mul_pos_pos; lia. }
  unfold round_ratio. fold L. rewrite HE.
  assert (Hden : 0 < q * 2 ^ Z.max 0 e).
  { apply Z.mul_pos_pos; [lia|apply Z.pow_pos_nonneg; lia]. }
  rewrite (proj2 (Z.eqb_neq p 0)) by lia.
  rewrite Hpq, Z.div_mul, Z.mod_mul by lia.
  rewrite (proj2 (Z.ltb_lt (2 * 0) _)) by lia.
  rewrite (proj2 (Z.eqb_neq m (2 ^ prec))) by (unfold prec; lia).
  rewrite (proj2 (Z.ltb_ge emax e)) by (unfold emax; lia).
  reflexivity.
Qed.

(** The sign is put on at the end. *)
Lemma round_ratio_neg p q : round_ratio true p q = negate (round_ratio false p q).
Proof.
  unfold round_ratio. destruct (p =? 0); [reflexivity|]. cbv zeta.
  match goal with |- context [if ?c then (_, _) else _] => destruct c end;
    match goal with |- context [emax <? ?x] => destruct (emax <? x) end;
    reflexivity.
Qed.

End Rounding.

(** *** Decimal digits *)

Section Digits.

Lemma dec_val_app acc ds1 ds2 :
  dec_val acc (ds1 ++ ds2) = dec_val (dec_val acc ds1) ds2.
Proof. revert acc. induction ds1 as [|d ds1 IH]; intros acc; simpl; auto. Qed.

Lemma dec_val_shift acc ds :
  dec_val acc ds = acc * 10 ^ Z.of_nat (length ds) + dec_val 0 ds.
Proof.
  revert acc. induction ds as [|d ds IH]; intros acc.
  - simpl. lia.
  - cbn [dec_val length]. rewrite IH, (IH (0 * 10 + d)).
    rewrite Nat2Z.inj_succ, Z.pow_succ_r by lia. ring.
Qed.

Lemma dec_val_zeros acc n :
  dec_val acc (repeat 0 n) = acc * 10 ^ Z.of_nat n.
Proof.
  revert acc. induction n as [|n IH]; intros acc.
  - simpl. lia.
  - cbn [repeat dec_val]. rewrite IH, Nat2Z.inj_succ, Z.pow_succ_r by lia. ring.
Qed.

Lemma digits_fuel_acc fuel n acc :
  digits_fuel fuel n acc = digits_fuel fuel n [] ++ acc.
Proof.
  revert n acc. induction fuel as [|fuel IH]; intros n acc; [reflexivity|].
  cbn [digits_fuel]. destruct (n <? 10); [reflexivity|].
  rewrite IH, (IH _ [n mod 10]), <- app_assoc. reflexivity.
Qed.

Lemma digits_fuel_spec fuel n :
  0 <= n < 10 ^ Z.of_nat (S fuel) ->
  let ds := digits_fuel (S fuel) n [] in
  Forall is_dec ds /\ dec_val 0 ds = n /\
  exists d ds', ds = d :: ds' /\ (0 < n -> d <> 0).
Proof.
  revert n. induction fuel as [|fuel IH]; intros n Hn; cbn zeta.
  - change (10 ^ Z.of_nat 1) with 10 in Hn.
    cbn [digits_fuel]. rewrite (proj2 (Z.ltb_lt n 10)) by lia.
    rewrite Z.mod_small by lia. repeat split.
    + repeat constructor; lia.
    + exists n, []. split; [reflexivity|lia].
  - remember (S fuel) as f eqn:Ef. cbn [digits_fuel].
    destruct (n <? 10) eqn:Hlt.
    + apply Z.ltb_lt in Hlt. rewrite Z.mod_small by lia. repeat split.
      * repeat constructor; lia.
      * exists n, []. split; [reflexivity|lia].
    + apply Z.ltb_ge in Hlt. rewrite digits_fuel_acc.
      assert (Hdiv : 0 <= n / 10 < 10 ^ Z.of_nat f).
      { split; [apply Z.div_pos; lia|].
        apply Z.div_lt_upper_bound; [lia|].
        rewrite Nat2Z.inj_succ, Z.pow_succ_r in Hn by lia. lia. }
      subst f. destruct (IH (n / 10) Hdiv) as (Hall & Hval & d & ds' & Eds & Hd).
      pose proof (Z.mod_pos_bound n 10 ltac:(lia)) as Hmod.
      repeat split.
      * apply Forall_app. split; [exact Hall|]. repeat constructor; lia.
      * rewrite dec_val_app, Hval. cbn [dec_val].
        pose proof (Z.div_mod n 10 ltac:(lia)). lia.
      * exists d, (ds' ++ [n mod 10]). rewrite Eds. split; [reflexivity|].
        intros _. apply Hd. apply Z.div_str_pos. lia.
Qed.

Lemma digits_spec n :
  0 <= n ->
  Forall is_dec (digits n) /\ dec_val 0 (digits n) = n /\
  exists d ds', digits n = d :: ds' /\ (0 < n -> d <> 0).
Proof.
  intros Hn. unfold digits. apply digits_fuel_spec. split; [exact Hn|].
  destruct (Z.eq_dec n 0) as [-> | Hne]; [reflexivity|].
  pose proof (Z.log2_spec n ltac:(lia)) as [_ Hlog].
  pose proof (Z.log2_nonneg n) as Hnn.
  rewrite Nat2Z.inj_succ, Z2Nat.id by lia.
  eapply Z.lt_le_trans; [exact Hlog|].
  apply Z.pow_le_mono_l. lia.
Qed.

(** Reading digits back. *)


Lemma is_digit_char d : is_dec d -> is_digit (digit_char d) = true.
Proof. unfold is_dec, is_digit, digit_char. intros H. apply andb_true_iff. lia. Qed.

Lemma read_digits_chars ds rest acc len :
  Forall is_dec ds -> not_digit_first rest ->
  read_digits (List.map digit_char ds ++ rest) acc len
  = (dec_val acc ds, len + Z.of_nat (length ds), rest).
Proof.
  intros Hds Hrest. revert acc len.
  induction Hds as [|d ds Hd _ IH]; intros acc len.
  - cbn [List.map app dec_val length]. rewrite Z.add_0_r.
    destruct rest as [|c rest]; [reflexivity|].
    cbn [read_digits]. cbn in Hrest. now rewrite Hrest.
  - cbn [List.map app read_digits dec_val length].
    rewrite is_digit_char by exact Hd. rewrite IH.
    unfold digit_char. replace (48 + d - 48) with d by lia.
    rewrite Nat2Z.inj_succ.
    replace (len + 1 + Z.of_nat (length ds)) with (len + Z.succ (Z.of_nat (length ds))) by lia.
    reflexivity.
Qed.

End Digits.

(** *** Reading back what [format_decimal] lays out *)

Section ReadFormat.

Lemma value_end_not_digit rest : value_end rest -> not_digit_first rest.
Proof.
  destruct rest as [|c rest]; [easy|]. cbn.
  intros [-> | [-> | ->]]; reflexivity.
Qed.

Lemma read_frac_end i rest : value_end rest -> read_frac i rest = Some (i, 0, rest).
Proof.
  destruct rest as [|c rest]; [easy|]. cbn [value_end].
  intros [-> | [-> | ->]]; reflexivity.
Qed.

Lemma read_exp_end rest : value_end rest -> read_exp rest = Some (0, rest).
Proof.
  destruct rest as [|c rest]; [easy|]. cbn [value_end].
  intros [-> | [-> | ->]]; reflexivity.
Qed.

Lemma digit_chars_map n : digit_chars n = List.map digit_char (digits n).
Proof. reflexivity. Qed.

Lemma zeros_map n : zeros n = List.map digit_char (repeat 0 (Z.to_nat n)).
Proof.
  unfold zeros. induction (Z.to_nat n) as [|k IH]; [reflexivity|].
  cbn [repeat List.map]. now rewrite IH.
Qed.

Lemma Forall_is_dec_zeros k : Forall is_dec (repeat 0 k).
Proof. induction k; constructor; [unfold is_dec; lia|assumption]. Qed.

Lemma read_exp_written e rest :
  e <> 0 -> not_digit_first rest ->
  read_exp (lit "e" ++ (if e <? 0 then lit "-" else lit "+")
            ++ digit_chars (Z.abs e) ++ rest)
  = Some (e, rest).
Proof.
  intros He Hrest.
  destruct (digits_spec (Z.abs e) ltac:(lia)) as (Hall & Hval & d & ds' & Eds & _).
  change (lit "e") with [101]. cbn [app read_exp].
  change ((101 =? 101) || (101 =? 69)) with true. cbv iota.
  assert (Hread : read_digits (digit_chars (Z.abs e) ++ rest) 0 0
                  = (Z.abs e, Z.of_nat (length (digits (Z.abs e))), rest)).
  { rewrite digit_chars_map, read_digits_chars by assumption.
    now rewrite Hval, Z.add_0_l. }
  assert (Hlen : Z.eqb (Z.of_nat (length (digits (Z.abs e)))) 0 = false).
  { rewrite Eds. cbn [length]. apply Z.eqb_neq. lia. }
  destruct (e <? 0) eqn:Hneg.
  - change (lit "-") with [45]. cbn [app eat].
    change (45 =? 43) with false. change (45 =? 45) with true. cbv iota.
    rewrite Hread, Hlen. apply Z.ltb_lt in Hneg. do 2 f_equal. lia.
  - change (lit "+") with [43]. cbn [app eat].
    change (43 =? 43) with true. cbv iota.
    rewrite Hread, Hlen. apply Z.ltb_ge in Hneg. do 2 f_equal. lia.
Qed.

Lemma round_decimal_scaled neg s t :
  0 <= t -> round_decimal neg (s * 10 ^ t) 0 = round_decimal neg s t.
Proof.
  intros Ht. unfold round_decimal.
  rewrite (Z.max_r 0 t), (Z.max_l 0 (- t)) by lia.
  change (Z.max 0 0) with 0. change (Z.max 0 (- 0)) with 0.
  now rewrite Z.pow_0_r, Z.mul_1_r.
Qed.

(** The sign of the text is the sign given to the rounding. *)
Lemma read_number_signed (neg : bool) c body :
  is_digit c = true ->
  read_number ((if neg then lit "-" else []) ++ c :: body)
  = match read_int (c :: body) with
    | None => None
    | Some (i, s2) =>
        match read_frac i s2 with
        | None => None
        | Some (d, flen, s3) =>
            match read_exp s3 with
            | None => None
            | Some (ex, s4) => Some (round_decimal neg d (ex - flen), s4)
            end
        end
    end.
Proof.
  intros Hc. unfold read_number. destruct neg.
  - change (lit "-") with [45]. cbn [app eat].
    change (45 =? 45) with true. reflexivity.
  - cbn [app eat].
    assert (Z.eqb c 45 = false) as ->; [|reflexivity].
    unfold is_digit in Hc. apply andb_true_iff in Hc. lia.
Qed.

Lemma read_int_digits d ds rest :
  is_dec d -> d <> 0 -> Forall is_dec ds -> not_digit_first rest ->
  read_int (List.map digit_char (d :: ds) ++ rest)
  = Some (dec_val 0 (d :: ds), rest).
Proof.
  intros Hd Hd0 Hds Hrest. unfold read_int.
  cbn [List.map app].
  assert (Z.eqb (digit_char d) 48 = false) as ->
    by (unfold digit_char; apply Z.eqb_neq; lia).
  rewrite is_digit_char by exact Hd.
  change (digit_char d :: List.map digit_char ds ++ rest)
    with (List.map digit_char (d :: ds) ++ rest).
  rewrite read_digits_chars; [reflexivity| |exact Hrest].
  now constructor.
Qed.

Lemma read_frac_exp i body :
  read_frac i (lit "e" ++ body) = Some (i, 0, lit "e" ++ body).
Proof. reflexivity. Qed.

Lemma read_frac_point i body :
  read_frac i (lit "." ++ body)
  = let '(v, len, r) := read_digits body i 0 in
    if len =? 0 then None else Some (v, len, r).
Proof. reflexivity. Qed.

Lemma read_number_format s t (neg : bool) rest :
  0 < s -> value_end rest ->
  read_number ((if neg then lit "-" else []) ++
               format_decimal (digit_chars s)
                 (Z.of_nat (length (digit_chars s)) + t) ++ rest)
  = Some (round_decimal neg s t, rest).
Proof.
  intros Hs Hrest.
  destruct (digits_spec s ltac:(lia)) as (Hall & Hval & d & ds & Eds & Hd).
  specialize (Hd Hs). rewrite digit_chars_map, Eds in *.
  apply Forall_cons in Hall as [Hd9 Hds].
  pose proof (value_end_not_digit rest Hrest) as Hnd.
  assert (Ek : Z.of_nat (length (List.map digit_char (d :: ds)))
               = 1 + Z.of_nat (length ds)).
  { rewrite length_map. cbn [length]. lia. }
  unfold format_decimal. rewrite Ek.
  set (k := 1 + Z.of_nat (length ds)) in *.
  destruct ((-6 <? k + t) && (k + t <=? 21)) eqn:Hrange.
  - destruct (k <=? k + t) eqn:Hk.
    + (* digits, then zeros *)
      apply Z.leb_le in Hk.
      rewrite zeros_map, <- List.map_app, <- app_comm_cons.
      cbn [List.map app]. rewrite read_number_signed by now apply is_digit_char.
      change (digit_char d :: List.map digit_char (ds ++ repeat 0 (Z.to_nat (k + t - k))) ++ rest)
        with (List.map digit_char (d :: ds ++ repeat 0 (Z.to_nat (k + t - k))) ++ rest).
      rewrite read_int_digits; [|assumption|assumption| |assumption].
      2:{ apply Forall_app. split; [assumption|apply Forall_is_dec_zeros]. }
      rewrite read_frac_end, read_exp_end by assumption.
      rewrite app_comm_cons, dec_val_app, dec_val_zeros, Hval.
      rewrite Z2Nat.id by lia. replace (k + t - k) with t by lia.
      change (0 - 0) with 0. now rewrite round_decimal_scaled by lia.
    + apply Z.leb_gt in Hk. destruct (0 <? k + t) eqn:Hpos.
      * (* digits, a point, digits *)
        apply Z.ltb_lt in Hpos.
        assert (Em : Z.to_nat (k + t) = S (Z.to_nat (k + t - 1))) by lia.
        set (m := Z.to_nat (k + t - 1)) in *.
        assert (Hm : (m < length ds)%nat) by lia.
        rewrite Em, List.firstn_map, List.skipn_map.
        cbn [take drop List.map app].
        rewrite read_number_signed by now apply is_digit_char.
        rewrite <- !app_assoc.
        change (digit_char d :: List.map digit_char (take m ds)
                ++ lit "." ++ List.map digit_char (drop m ds) ++ rest)
          with (List.map digit_char (d :: take m ds)
                ++ 46 :: List.map digit_char (drop m ds) ++ rest).
        rewrite read_int_digits; [|assumption|assumption| |reflexivity].
        2:{ now apply Forall_take. }
        unfold read_frac. cbn [eat]. change (46 =? 46) with true. cbv iota.
        rewrite read_digits_chars; [|now apply Forall_drop|assumption].
        rewrite length_drop.
        assert (Z.eqb (0 + Z.of_nat (length ds - m)) 0 = false) as ->
          by (apply Z.eqb_neq; lia).
        rewrite read_exp_end by assumption.
        rewrite <- dec_val_app, <- app_comm_cons, take_drop, Hval.
        do 3 f_equal. lia.
      * (* 0, a point, zeros, digits *)
        apply Z.ltb_ge in Hpos.
        change (lit "0.") with [48; 46]. cbn [app].
        rewrite (read_number_signed neg 48) by reflexivity.
        unfold read_int. change (48 =? 48) with true. cbv iota.
        unfold read_frac. cbn [eat]. change (46 =? 46) with true. cbv iota.
        rewrite zeros_map, <- List.map_app.
        rewrite read_digits_chars; [| |assumption].
        2:{ apply Forall_app. split; [apply Forall_is_dec_zeros|now constructor]. }
        rewrite length_app, repeat_length. cbn [length].
        assert (Z.eqb (0 + Z.of_nat (Z.to_nat (- (k + t)) + S (length ds))) 0
                = false) as -> by (apply Z.eqb_neq; lia).
        rewrite read_exp_end by assumption.
        rewrite dec_val_app, dec_val_zeros, Z.mul_0_l, Hval.
        do 3 f_equal. lia.
  - (* exponent notation *)
    assert (He : k + t - 1 <> 0).
    { apply andb_false_iff in Hrange as [H | H];
        [apply Z.ltb_ge in H|apply Z.leb_gt in H]; lia. }
    set (ex := k + t - 1) in *.
    set (etext := lit "e" ++ (if ex <? 0 then lit "-" else lit "+")
                  ++ digit_chars (Z.abs ex) ++ rest).
    cbn [List.map]. destruct ds as [|d2 ds2].
    + cbn [List.map app]. rewrite <- !app_assoc. fold etext.
      rewrite read_number_signed by now apply is_digit_char.
      pose proof (read_int_digits d [] etext Hd9 Hd (List.Forall_nil _) eq_refl) as Hri.
      cbn [List.map app] in Hri. rewrite Hri.
      unfold etext at 1. rewrite read_frac_exp. fold etext.
      unfold etext. rewrite read_exp_written by assumption.
      rewrite Hval. do 3 f_equal. subst ex k. cbn [length]. lia.
    + repeat progress (cbn [List.map app]; rewrite <- ?app_assoc). fold etext.
      rewrite read_number_signed by now apply is_digit_char.
      pose proof (read_int_digits d []
                    (lit "." ++ List.map digit_char (d2 :: ds2) ++ etext)
                    Hd9 Hd (List.Forall_nil _) eq_refl) as Hri.
      cbn [List.map app] in Hri. rewrite Hri.
      pose proof (read_frac_point (dec_val 0 [d])
                    (List.map digit_char (d2 :: ds2) ++ etext)) as Hrf.
      rewrite read_digits_chars in Hrf; [|assumption|reflexivity].
      cbn [List.map app] in Hrf. rewrite Hrf.
      assert (Z.eqb (0 + Z.of_nat (length (d2 :: ds2))) 0 = false) as ->
        by (apply Z.eqb_neq; cbn [length]; lia).
      unfold etext. rewrite read_exp_written by assumption.
      change (dec_val (dec_val 0 [d]) (d2 :: ds2)) with (dec_val 0 (d :: d2 :: ds2)).
      rewrite Hval. do 3 f_equal. subst ex k. lia.
Qed.

End ReadFormat.

(** *** [Number::toString] reads back *)

Section ToString.

Lemma round_decimal_zero neg t : round_decimal neg 0 t = Finite 0 emin.
Proof. unfold round_decimal. rewrite Z.mul_0_l. reflexivity. Qed.

Lemma round_decimal_neg s t :
  round_decimal true s t = negate (round_decimal false s t).
Proof. apply round_ratio_neg. Qed.

Lemma shortest_step_sound x W t0 D k s t :
  0 <= W -> shortest_step x W t0 D k = Some (s, t) ->
  round_decimal false s t = x /\ 0 <= s.
Proof.
  intros HW. unfold shortest_step.
  set (lo := W / 10 ^ (D - k)).
  assert (Hlo : 0 <= lo).
  { unfold lo. destruct (Z.le_gt_cases 0 (D - k)) as [H|H].
    - apply Z.div_pos; [lia|]. apply Z.pow_pos_nonneg; lia.
    - rewrite Z.pow_neg_r by lia. now rewrite Z.div_0_r. }
  destruct (lo + 1 =? 10 ^ k) eqn:Hcarry.
  - assert (Hhi : 0 <= 10 ^ (k - 1)) by (apply Z.pow_nonneg; lia).
    repeat case_bool_decide; repeat case_match;
      intros [= <- <-]; auto.
  - repeat case_bool_decide; repeat case_match;
      intros [= <- <-]; auto with zarith.
Qed.

Lemma shortest_from_sound fuel x W t0 D k :
  0 <= W -> round_decimal false W t0 = x ->
  round_decimal false (shortest_from fuel x W t0 D k).1
    (shortest_from fuel x W t0 D k).2 = x /\
  0 <= (shortest_from fuel x W t0 D k).1.
Proof.
  intros HW Hx. revert k. induction fuel as [|fuel IH]; intros k.
  - cbn. split; assumption.
  - cbn [shortest_from].
    destruct (shortest_step x W t0 D k) as [[s t]|] eqn:E; [|apply IH].
    cbn [fst snd]. eapply shortest_step_sound; eassumption.
Qed.

Lemma exact_decimal_sound m e :
  0 < m -> wf_number (Finite m e) = true ->
  0 < (exact_decimal m e).1 /\
  round_decimal false (exact_decimal m e).1 (exact_decimal m e).2 = Finite m e.
Proof.
  intros Hm Hwf. unfold exact_decimal, round_decimal.
  destruct (0 <=? e) eqn:He; cbn [fst snd].
  - apply Z.leb_le in He.
    assert (0 < 2 ^ e) by (apply Z.pow_pos_nonneg; lia).
    split; [lia|]. change (Z.max 0 0) with 0. change (Z.max 0 (- 0)) with 0.
    rewrite Z.pow_0_r, Z.mul_1_r.
    apply round_ratio_exact; [lia|lia|exact Hm|exact Hwf|].
    rewrite (Z.max_l 0 (- e)), (Z.max_r 0 e) by lia.
    rewrite Z.pow_0_r. ring.
  - apply Z.leb_gt in He.
    assert (0 < 5 ^ (- e)) by (apply Z.pow_pos_nonneg; lia).
    assert (0 < 10 ^ (- e)) by (apply Z.pow_pos_nonneg; lia).
    split; [lia|].
    rewrite (Z.max_l 0 e), (Z.max_r 0 (- e)) by lia.
    rewrite Z.pow_0_r, Z.mul_1_r.
    apply round_ratio_exact; [lia|lia|exact Hm|exact Hwf|].
    rewrite (Z.max_r 0 (- e)), (Z.max_l 0 e) by lia.
    rewrite Z.pow_0_r, Z.mul_1_r, <- Z.mul_assoc, <- Z.pow_mul_l. reflexivity.
Qed.

Lemma shortest_decimal_sound m e :
  0 < m -> wf_number (Finite m e) = true ->
  0 < (shortest_decimal m e).1 /\
  round_decimal false (shortest_decimal m e).1 (shortest_decimal m e).2
  = Finite m e.
Proof.
  intros Hm Hwf. unfold shortest_decimal.
  destruct (exact_decimal_sound m e Hm Hwf) as [HW Hexact].
  destruct (exact_decimal m e) as [W t0]. cbn [fst snd] in *.
  match goal with
  | |- context [shortest_from ?f ?x ?w ?t ?d ?k] =>
      destruct (shortest_from_sound f x w t d k ltac:(lia) Hexact) as [Hr Hs];
      destruct (shortest_from f x w t d k) as [s t'] eqn:E
  end.
  cbn [fst snd] in *. split; [|exact Hr].
  destruct (Z.eq_dec s 0) as [-> | Hne]; [|lia].
  rewrite round_decimal_zero in Hr. injection Hr as <- _. lia.
Qed.

(** Reading the text of a finite Number gives the Number back. *)
Lemma read_number_toString x rest :
  is_finite x = true -> wf_number x = true -> value_end rest ->
  read_number (toString x ++ rest) = Some (x, rest).
Proof.
  destruct x as [m e| |]; [|discriminate|discriminate].
  intros _ Hwf Hrest. unfold toString.
  destruct (m =? 0) eqn:Hm0.
  - apply Z.eqb_eq in Hm0 as ->.
    apply wf_number_Finite in Hwf as (_ & _ & [H | ->]); [cbn in H; lia|].
    change (lit "0" ++ rest) with ((if false then lit "-" else []) ++ 48 :: rest).
    rewrite read_number_signed by reflexivity.
    unfold read_int. change (48 =? 48) with true. cbv iota.
    rewrite read_frac_end, read_exp_end by assumption.
    now rewrite round_decimal_zero.
  - apply Z.eqb_neq in Hm0.
    assert (Hwf' : wf_number (Finite (Z.abs m) e) = true).
    { unfold wf_number in *. now rewrite (Z.abs_eq (Z.abs m)) by apply Z.abs_nonneg. }
    destruct (shortest_decimal_sound (Z.abs m) e ltac:(lia) Hwf') as [Hs Hr].
    destruct (shortest_decimal (Z.abs m) e) as [s t]. cbn [fst snd] in *.
    rewrite <- app_assoc, read_number_format by assumption.
    destruct (m <? 0) eqn:Hneg.
    + apply Z.ltb_lt in Hneg. rewrite round_decimal_neg, Hr. cbn [negate].
      do 3 f_equal. lia.
    + apply Z.ltb_ge in Hneg. rewrite Hr. do 3 f_equal. lia.
Qed.

Lemma format_decimal_first c ds n :
  is_digit c = true ->
  exists c' body,
    format_decimal (c :: ds) n = c' :: body /\ is_digit c' = true.
Proof.
  intros Hc. unfold format_decimal.
  destruct ((-6 <? n) && (n <=? 21)).
  - destruct (Z.of_nat (length (c :: ds)) <=? n); [now exists c; eexists|].
    destruct (0 <? n) eqn:Hn; [|now exists 48; eexists].
    apply Z.ltb_lt in Hn.
    replace (Z.to_nat n) with (S (Z.to_nat (n - 1))) by lia.
    now exists c; eexists.
  - destruct ds; now exists c; eexists.
Qed.

Lemma toString_first x :
  is_finite x = true -> wf_number x = true ->
  exists c body, toString x = c :: body /\ (is_digit c = true \/ c = 45).
Proof.
  destruct x as [m e| |]; [|discriminate|discriminate]. intros _ Hwf.
  unfold toString. destruct (m =? 0) eqn:Hm0; [exists 48, []; now split; [|left]|].
  apply Z.eqb_neq in Hm0.
  assert (Hwf' : wf_number (Finite (Z.abs m) e) = true).
  { unfold wf_number in *. now rewrite (Z.abs_eq (Z.abs m)) by apply Z.abs_nonneg. }
  destruct (shortest_decimal_sound (Z.abs m) e ltac:(lia) Hwf') as [Hs _].
  destruct (shortest_decimal (Z.abs m) e) as [s t]. cbn [fst] in Hs.
  destruct (m <? 0); [exists 45; eexists; split; [reflexivity|now right]|].
  destruct (digits_spec s ltac:(lia)) as (Hall & _ & d & ds & Eds & _).
  rewrite digit_chars_map, Eds in *. apply Forall_cons in Hall as [Hd _].
  cbn [List.map app].
  destruct (format_decimal_first (digit_char d) (List.map digit_char ds)
              (Z.of_nat (length (digit_char d :: List.map digit_char ds)) + t)
              (is_digit_char d Hd)) as (c' & body & E & Hc').
  exists c', body. split; [exact E|now left].
Qed.

End ToString.

(** ** String literals: what is quoted reads back *)

Section Strings.

Implicit Types (c : Z) (s rest : list Z).

Lemma read_plain c rest :
  c <> 34 -> c <> 92 -> 32 <= c ->
  read_string_chars (c :: rest) = cons_chars c (read_string_chars rest).
Proof.
  intros H34 H92 H32. cbn [read_string_chars].
  rewrite (proj2 (Z.eqb_neq c 34)), (proj2 (Z.eqb_neq c 92)) by assumption.
  now rewrite (proj2 (Z.ltb_ge c 32)) by assumption.
Qed.

Lemma read_simple e rest :
  e <> 117 ->
  read_string_chars (92 :: e :: rest)
  = match simple_escape e with
    | Some u => cons_chars u (read_string_chars rest)
    | None => None
    end.
Proof.
  intros H. cbn [read_string_chars].
  change (92 =? 34) with false. change (92 =? 92) with true. cbv iota.
  now rewrite (proj2 (Z.eqb_neq e 117)) by assumption.
Qed.

Lemma read_unicode h1 h2 h3 h4 rest :
  read_string_chars (92 :: 117 :: h1 :: h2 :: h3 :: h4 :: rest)
  = match hex4 h1 h2 h3 h4 with
    | Some u => cons_chars u (read_string_chars rest)
    | None => None
    end.
Proof. reflexivity. Qed.

Lemma hex_val_char d : 0 <= d < 16 -> hex_val (hex_char d) = Some d.
Proof.
  intros Hd. unfold hex_val, hex_char. destruct (d <? 10) eqn:E.
  - apply Z.ltb_lt in E.
    rewrite (proj2 (andb_true_iff _ _)) by lia. f_equal. lia.
  - apply Z.ltb_ge in E.
    rewrite (proj2 (andb_false_iff _ _)) by lia.
    rewrite (proj2 (andb_true_iff _ _)) by lia. f_equal. lia.
Qed.

Lemma read_unicode_escape c rest :
  0 <= c < 65536 ->
  read_string_chars (unicode_escape c ++ rest)
  = cons_chars c (read_string_chars rest).
Proof.
  intros Hc. unfold unicode_escape. cbn [app]. rewrite read_unicode.
  unfold hex4.
  rewrite !hex_val_char by (apply Z.mod_pos_bound; lia).
  replace (c / 4096 mod 16 * 4096 + c / 256 mod 16 * 256
           + c / 16 mod 16 * 16 + c mod 16) with c; [reflexivity|].
  pose proof (Z.div_mod c 16 ltac:(lia)).
  pose proof (Z.div_mod (c / 16) 16 ltac:(lia)).
  pose proof (Z.div_mod (c / 256) 16 ltac:(lia)).
  replace (c / 256) with (c / 16 / 16) in * by (rewrite Z.div_div by lia; reflexivity).
  replace (c / 4096) with (c / 16 / 16 / 16) by (rewrite !Z.div_div by lia; reflexivity).
  assert (c / 16 / 16 / 16 < 16).
  { apply Z.div_lt_upper_bound; [lia|]. apply Z.div_lt_upper_bound; [lia|].
    apply Z.div_lt_upper_bound; lia. }
  assert (0 <= c / 16 / 16 / 16) by (repeat apply Z.div_pos; lia).
  rewrite (Z.mod_small (c / 16 / 16 / 16)) by lia. lia.
Qed.

Lemma read_quote_unit c rest :
  0 <= c < 65536 ->
  read_string_chars (quote_unit c ++ rest)
  = cons_chars c (read_string_chars rest).
Proof.
  intros Hc. unfold quote_unit.
  repeat match goal with
         | |- context [if ?x =? ?y then _ else _] =>
             destruct (Z.eqb_spec x y); [subst; reflexivity|]
         end.
  destruct ((c <? 32) || is_high_surrogate c || is_low_surrogate c) eqn:E.
  - now apply read_unicode_escape.
  - apply orb_false_iff in E as [E _]. apply orb_false_iff in E as [E _].
    apply Z.ltb_ge in E. cbn [app]. now apply read_plain.
Qed.

Lemma wf_string_cons c s :
  wf_string (c :: s) = true <-> 0 <= c < 65536 /\ wf_string s = true.
Proof.
  unfold wf_string. cbn [forallb].
  rewrite !andb_true_iff, Z.leb_le, Z.ltb_lt. tauto.
Qed.

Lemma read_quote_chars_bounded n s rest :
  (length s <= n)%nat -> wf_string s = true ->
  read_string_chars (quote_chars s ++ 34 :: rest) = Some (s, rest).
Proof.
  revert s. induction n as [|n IH]; intros s Hlen Hwf.
  - destruct s; [reflexivity|cbn in Hlen; lia].
  - destruct s as [|c s]; [reflexivity|].
    apply wf_string_cons in Hwf as [Hc Hwf]. cbn [length] in Hlen.
    cbn [quote_chars]. destruct (is_high_surrogate c) eqn:Hhigh.
    + assert (Hplain : forall r, read_string_chars (c :: r)
                                 = cons_chars c (read_string_chars r)).
      { intros r. unfold is_high_surrogate in Hhigh.
        apply andb_true_iff in Hhigh. apply read_plain; lia. }
      destruct s as [|c2 s].
      * rewrite read_unicode_escape by assumption. reflexivity.
      * destruct (is_low_surrogate c2) eqn:Hlow.
        -- apply wf_string_cons in Hwf as [Hc2 Hwf]. cbn [length] in Hlen.
           cbn [app]. rewrite Hplain.
           assert (read_string_chars (c2 :: quote_chars s ++ 34 :: rest)
                   = cons_chars c2 (read_string_chars (quote_chars s ++ 34 :: rest))) as ->.
           { unfold is_low_surrogate in Hlow. apply andb_true_iff in Hlow.
             apply read_plain; lia. }
           rewrite IH by (assumption || lia). reflexivity.
        -- rewrite <- app_assoc, read_unicode_escape by assumption.
           rewrite IH by (assumption || lia). reflexivity.
    + rewrite <- app_assoc, read_quote_unit by assumption.
      rewrite IH by (assumption || lia). reflexivity.
Qed.

(** A quoted string reads back as the string. *)
Lemma read_quote_chars s rest :
  wf_string s = true ->
  read_string_chars (quote_chars s ++ 34 :: rest) = Some (s, rest).
Proof. apply (read_quote_chars_bounded (length s)). lia. Qed.

End Strings.

(** ** JSON texts: what is written parses back *)

(** Induction on a value and, with it, on the values inside it. *)
Lemma value_induction (P : value -> Prop) :
  P VNull -> (forall b, P (VBool b)) -> (forall x, P (VNum x)) ->
  (forall s, P (VStr s)) ->
  (forall elems, Forall P elems -> P (VArr elems)) ->
  (forall props, Forall (fun p => P (snd p)) props -> P (VObj props)) ->
  forall v, P v.
Proof.
  intros Hnull Hbool Hnum Hstr Harr Hobj. fix IH 1.
  intros [|b|x|s|elems|props].
  - exact Hnull.
  - apply Hbool.
  - apply Hnum.
  - apply Hstr.
  - apply Harr. induction elems as [|v elems IHelems]; constructor.
    + apply IH.
    + exact IHelems.
  - apply Hobj. induction props as [|p props IHprops]; constructor.
    + apply IH.
    + exact IHprops.
Qed.

Section Objects.

Implicit Types (k : list Z) (v : value) (props members : list (list Z * value)).

Lemma define_property_new k v props :
  k ∉ List.map fst props -> define_property k v props = props ++ [(k, v)].
Proof.
  induction props as [|[k' v'] props IH]; intros Hk; [reflexivity|].
  cbn [define_property List.map fst] in *.
  apply not_elem_of_cons in Hk as [Hne Hk].
  rewrite bool_decide_eq_false_2 by exact Hne.
  now rewrite IH.
Qed.

Lemma build_object_from props members :
  NoDup (List.map fst (props ++ members)) ->
  fold_left (fun props m => define_property (fst m) (snd m) props) members props
  = props ++ members.
Proof.
  revert props. induction members as [|[k v] members IH]; intros props Hnd.
  - now rewrite app_nil_r.
  - cbn [fold_left fst snd]. rewrite define_property_new.
    + rewrite IH; rewrite <- app_assoc; [reflexivity|exact Hnd].
    + rewrite List.map_app in Hnd. apply NoDup_app in Hnd as (_ & Hdisj & _).
      intros Hin. apply (Hdisj k Hin). cbn. left.
Qed.

Lemma build_object_nodup members :
  NoDup (List.map fst members) -> build_object members = members.
Proof. intros H. unfold build_object. now rewrite build_object_from. Qed.

End Objects.

Section ReadValue.

Implicit Types (c : Z) (s rest : list Z) (v : value).

Lemma value_start_not_ws c : value_start c -> is_json_ws c = false.
Proof.
  unfold value_start, is_digit, is_json_ws.
  intros [-> | [-> | [-> | [-> | [-> | [-> | [H | ->]]]]]]]; try reflexivity.
  apply andb_true_iff in H as [H1 H2]. apply Z.leb_le in H1, H2.
  rewrite !orb_false_iff, !Z.eqb_neq. lia.
Qed.

Lemma skip_ws_start c s : is_json_ws c = false -> skip_ws (c :: s) = c :: s.
Proof. intros H. cbn [skip_ws]. now rewrite H. Qed.

Lemma skip_ws_end rest : value_end rest -> skip_ws rest = rest.
Proof.
  destruct rest as [|c rest]; [reflexivity|]. cbn [value_end].
  intros [-> | [-> | ->]]; reflexivity.
Qed.

Lemma stringify_first v :
  wf_value v = true -> exists c body, stringify v = c :: body /\ value_start c.
Proof.
  unfold value_start. destruct v as [|b|x|s|elems|props]; cbn [wf_value stringify].
  - intros _. exists 110. eexists. split; [reflexivity|tauto].
  - intros _. destruct b; [exists 116|exists 102]; eexists; (split; [reflexivity|tauto]).
  - intros H. apply andb_true_iff in H as [Hfin Hwf]. rewrite Hfin.
    destruct (toString_first x Hfin Hwf) as (c & body & E & Hc).
    exists c, body. split; [exact E|tauto].
  - intros _. exists 34. eexists. split; [reflexivity|tauto].
  - intros _. exists 91. eexists. split; [reflexivity|tauto].
  - intros _. exists 123. eexists. split; [reflexivity|tauto].
Qed.

Lemma read_value_number f c s :
  is_digit c = true \/ c = 45 ->
  read_value (S f) (c :: s)
  = match read_number (c :: s) with
    | Some (x, r) => Some (VNum x, r)
    | None => None
    end.
Proof.
  intros Hc.
  assert (Hrange : 45 <= c <= 57).
  { destruct Hc as [H | ->]; [|lia]. unfold is_digit in H.
    apply andb_true_iff in H as [H1 H2]. apply Z.leb_le in H1, H2. lia. }
  cbn [read_value]. rewrite skip_ws_start.
  - rewrite !(proj2 (Z.eqb_neq c _)) by lia. reflexivity.
  - unfold is_json_ws. rewrite !orb_false_iff, !Z.eqb_neq. lia.
Qed.


Lemma read_elements_join elems :
  elems <> [] -> Forall reads_back elems -> forallb wf_value elems = true ->
  forall (fuel : nat) rest,
    (list_sum (List.map (fun v => S (need v)) elems) <= fuel)%nat ->
    read_elements fuel (join_comma (List.map stringify elems) ++ 93 :: rest)
    = Some (elems, rest).
Proof.
  intros Hne Hall. induction Hall as [|v elems Hv Hall IH]; [easy|].
  intros Hwf fuel rest Hfuel. clear Hne.
  cbn [forallb] in Hwf. apply andb_true_iff in Hwf as [Hwfv Hwf].
  cbn [List.map list_sum fold_right] in Hfuel.
  destruct fuel as [|fuel]; [lia|]. cbn [read_elements].
  destruct elems as [|v2 elems].
  - cbn [List.map join_comma list_sum fold_right] in *.
    rewrite (Hv Hwfv fuel (93 :: rest)); [|lia|cbn; tauto].
    rewrite skip_ws_start by reflexivity. reflexivity.
  - change (join_comma (List.map stringify (v :: v2 :: elems)))
      with (stringify v ++ 44 :: join_comma (List.map stringify (v2 :: elems))).
    rewrite <- app_assoc. cbn [app].
    rewrite (Hv Hwfv fuel); [|lia|cbn; tauto].
    rewrite skip_ws_start by reflexivity.
    change (44 =? 44) with true. cbv iota.
    rewrite IH; [reflexivity|discriminate|exact Hwf|].
    cbn [List.map list_sum fold_right] in *. lia.
Qed.

Lemma read_members_join props :
  props <> [] -> Forall (fun p => reads_back (snd p)) props ->
  forallb (fun p => wf_string (fst p) && wf_value (snd p)) props = true ->
  forall (fuel : nat) rest,
    (list_sum (List.map (fun p => S (need (snd p))) props) <= fuel)%nat ->
    read_members fuel
      (join_comma (List.map (fun p => quote (fst p) ++ 58 :: stringify (snd p)) props)
       ++ 125 :: rest)
    = Some (props, rest).
Proof.
  intros Hne Hall. induction Hall as [|[k v] props Hv Hall IH]; [easy|].
  intros Hwf fuel rest Hfuel. clear Hne.
  cbn [forallb fst snd] in Hwf, Hv.
  apply andb_true_iff in Hwf as [Hwfp Hwf].
  apply andb_true_iff in Hwfp as [Hwfk Hwfv].
  cbn [List.map list_sum fold_right snd] in Hfuel.
  destruct fuel as [|fuel]; [lia|]. cbn [read_members].
  destruct props as [|p2 props].
  - cbn [List.map join_comma list_sum fold_right fst snd] in *. unfold quote.
    cbn [app]. rewrite skip_ws_start by reflexivity. cbn [eat].
    change (34 =? 34) with true. cbv iota.
    rewrite <- ?app_assoc. cbn [app]. rewrite read_quote_chars by exact Hwfk.
    rewrite skip_ws_start by reflexivity. cbn [eat].
    change (58 =? 58) with true. cbv iota.
    rewrite (Hv Hwfv fuel (125 :: rest)); [|lia|cbn; tauto].
    rewrite skip_ws_start by reflexivity. reflexivity.
  - change (join_comma (List.map (fun p => quote (fst p) ++ 58 :: stringify (snd p))
                          ((k, v) :: p2 :: props)))
      with ((quote k ++ 58 :: stringify v)
            ++ 44 :: join_comma (List.map (fun p => quote (fst p) ++ 58 :: stringify (snd p))
                                   (p2 :: props))).
    unfold quote at 1. cbn [app]. rewrite skip_ws_start by reflexivity. cbn [eat].
    change (34 =? 34) with true. cbv iota.
    rewrite <- ?app_assoc. cbn [app]. rewrite read_quote_chars by exact Hwfk.
    rewrite skip_ws_start by reflexivity. cbn [eat].
    change (58 =? 58) with true. cbv iota.
    rewrite <- ?app_assoc. cbn [app].
    rewrite (Hv Hwfv fuel); [|lia|cbn; tauto].
    rewrite skip_ws_start by reflexivity.
    change (44 =? 44) with true. cbv iota.
    rewrite IH; [reflexivity|discriminate|exact Hwf|].
    cbn [List.map list_sum fold_right] in *. lia.
Qed.

Lemma read_value_start f c s :
  is_json_ws c = false ->
  read_value (S f) (c :: s)
  = (if c =? 34 then
       match read_string_chars s with
       | Some (str, r) => Some (VStr str, r)
       | None => None
       end
     else if c =? 91 then
       match eat 93 (skip_ws s) with
       | Some r => Some (VArr [], r)
       | None =>
           match read_elements f s with
           | Some (elems, r) => Some (VArr elems, r)
           | None => None
           end
       end
     else if c =? 123 then
       match eat 125 (skip_ws s) with
       | Some r => Some (VObj [], r)
       | None =>
           match read_members f s with
           | Some (members, r) => Some (VObj (build_object members), r)
           | None => None
           end
       end
     else if c =? 110 then read_literal (lit "null") VNull (c :: s)
     else if c =? 116 then read_literal (lit "true") (VBool true) (c :: s)
     else if c =? 102 then read_literal (lit "false") (VBool false) (c :: s)
     else
       match read_number (c :: s) with
       | Some (x, r) => Some (VNum x, r)
       | None => None
       end).
Proof. intros H. cbn [read_value]. now rewrite skip_ws_start. Qed.

(** A text that starts a value is not the end of an array or object. *)
Lemma eat_value_start c0 v rest :
  wf_value v = true -> c0 = 93 \/ c0 = 125 ->
  eat c0 (skip_ws (stringify v ++ rest)) = None.
Proof.
  intros Hwf Hc0. destruct (stringify_first v Hwf) as (c & body & E & Hc).
  rewrite E. cbn [app]. rewrite skip_ws_start by now apply value_start_not_ws.
  cbn [eat]. apply value_start_not_ws in Hc as Hws.
  assert (Z.eqb c c0 = false) as ->; [|reflexivity].
  apply Z.eqb_neq. intros ->. unfold value_start, is_digit in Hc.
  destruct Hc0 as [-> | ->];
    destruct Hc as [H | [H | [H | [H | [H | [H | [H | H]]]]]]];
    try discriminate H.
Qed.

Lemma join_comma_cons x l :
  l <> [] -> join_comma (x :: l) = x ++ 44 :: join_comma l.
Proof. destruct l; [easy|reflexivity]. Qed.

Lemma read_value_stringify v : reads_back v.
Proof.
  induction v as [|b|x|str|elems IH|props IH] using value_induction;
    intros Hwf fuel rest Hfuel Hrest;
    (destruct fuel as [|fuel]; [cbn [need] in Hfuel; lia|]).
  - reflexivity.
  - destruct b; reflexivity.
  - cbn [wf_value] in Hwf. apply andb_true_iff in Hwf as [Hfin Hwf].
    cbn [stringify]. rewrite Hfin.
    destruct (toString_first x Hfin Hwf) as (c & body & E & Hc).
    pose proof (read_number_toString x rest Hfin Hwf Hrest) as Hread.
    rewrite E in *. cbn [app] in *.
    now rewrite read_value_number, Hread.
  - cbn [wf_value] in Hwf. cbn [stringify]. unfold quote. cbn [app].
    rewrite read_value_start by reflexivity.
    change (34 =? 34) with true. cbv iota.
    rewrite <- app_assoc. cbn [app]. now rewrite read_quote_chars.
  - cbn [wf_value] in Hwf. cbn [need] in Hfuel. cbn [stringify app].
    rewrite read_value_start by reflexivity.
    change (91 =? 34) with false. change (91 =? 91) with true. cbv iota.
    rewrite <- app_assoc. cbn [app].
    destruct elems as [|v elems]; [reflexivity|].
    assert (eat 93 (skip_ws (join_comma (List.map stringify (v :: elems))
                             ++ 93 :: rest)) = None) as ->.
    { apply andb_true_iff in Hwf as [Hwfv _]. cbn [List.map].
      destruct elems as [|v2 elems].
      - cbn [List.map join_comma]. apply eat_value_start; [exact Hwfv|tauto].
      - rewrite join_comma_cons by discriminate.
        rewrite <- app_assoc. apply eat_value_start; [exact Hwfv|tauto]. }
    rewrite read_elements_join; [reflexivity|discriminate|exact IH|exact Hwf|lia].
  - cbn [wf_value] in Hwf. apply andb_true_iff in Hwf as [Hwf Hnd].
    apply bool_decide_eq_true in Hnd.
    cbn [need] in Hfuel. cbn [stringify app].
    rewrite read_value_start by reflexivity.
    change (123 =? 34) with false. change (123 =? 91) with false.
    change (123 =? 123) with true. cbv iota.
    rewrite <- app_assoc. cbn [app].
    destruct props as [|[k v] props]; [reflexivity|].
    assert (eat 125 (skip_ws (join_comma
                                (List.map (fun p => quote (fst p) ++ 58 :: stringify (snd p))
                                   ((k, v) :: props))
                              ++ 125 :: rest)) = None) as ->.
    { cbn [List.map fst snd]. unfold quote at 1.
      destruct props as [|p2 props]; reflexivity. }
    rewrite read_members_join; [|discriminate|exact IH|exact Hwf|lia].
    now rewrite build_object_nodup.
Qed.

End ReadValue.

Section Parse.

Lemma join_comma_bound {A} (f : A -> nat) (g : A -> list Z) (l : list A) :
  Forall (fun a => (f a <= 2 * length (g a))%nat) l ->
  (list_sum (List.map (fun a => S (f a)) l)
   <= 2 * length (join_comma (List.map g l)) + 1)%nat.
Proof.
  induction 1 as [|a l Ha _ IH]; [cbn; lia|].
  destruct l as [|b l].
  - cbn [List.map list_sum fold_right join_comma]. lia.
  - cbn [List.map] in *. rewrite join_comma_cons by discriminate.
    cbn [list_sum fold_right] in *.
    rewrite length_app. cbn [length]. lia.
Qed.

Lemma need_bound v :
  wf_value v = true -> (need v <= 2 * length (stringify v))%nat.
Proof.
  induction v as [|b|x|str|elems IH|props IH] using value_induction;
    intros Hwf.
  1-4: destruct (stringify_first _ Hwf) as (c & body & -> & _);
       cbn [need length]; lia.
  - cbn [wf_value] in Hwf. cbn [need stringify length].
    rewrite length_app. cbn [length].
    assert (H : Forall (fun v => (need v <= 2 * length (stringify v))%nat) elems).
    { rewrite forallb_forall in Hwf. rewrite List.Forall_forall in *.
      intros v Hin. apply IH; [exact Hin|]. now apply Hwf. }
    pose proof (join_comma_bound need stringify elems H). lia.
  - cbn [wf_value] in Hwf. apply andb_true_iff in Hwf as [Hwf _].
    cbn [need stringify length]. rewrite length_app. cbn [length].
    assert (H : Forall (fun p : list Z * value =>
                          (need (snd p)
                           <= 2 * length (quote (fst p) ++ 58%Z :: stringify (snd p)))%nat)
                  props).
    { rewrite forallb_forall in Hwf. rewrite List.Forall_forall in *.
      intros p Hin. specialize (Hwf p Hin).
      apply andb_true_iff in Hwf as [_ Hwf].
      specialize (IH p Hin Hwf). rewrite length_app. cbn [length]. lia. }
    pose proof (join_comma_bound (fun p => need (snd p))
                  (fun p => quote (fst p) ++ 58 :: stringify (snd p)) props H).
    lia.
Qed.

(** [JSON.parse(JSON.stringify(v))] is [v]. *)
Lemma JSON_parse_stringify v :
  wf_value v = true -> JSON_parse (JSON_stringify v) = Ok v.
Proof.
  intros Hwf. unfold JSON_parse, JSON_stringify.
  pose proof (read_value_stringify v Hwf (parse_fuel (stringify v)) []) as H.
  rewrite app_nil_r in H. rewrite H; [reflexivity| |exact I].
  pose proof (need_bound v Hwf). unfold parse_fuel. lia.
Qed.

End Parse.

(** *** The fuel of [JSON_parse] never runs out *)

Section Fuel.

Implicit Types (s r : list Z) (f : nat).

Lemma skip_ws_length s : (length (skip_ws s) <= length s)%nat.
Proof.
  induction s as [|c s IH]; [reflexivity|]. cbn [skip_ws].
  destruct (is_json_ws c); cbn [length]; lia.
Qed.

Lemma eat_length c s r : eat c s = Some r -> (length r < length s)%nat.
Proof.
  destruct s as [|d s]; [discriminate|]. cbn [eat].
  destruct (d =? c); [|discriminate]. intros [= <-]. cbn [length]. lia.
Qed.

Lemma cons_chars_length c res str r n :
  (forall str' r', res = Some (str', r') -> (length r' < n)%nat) ->
  cons_chars c res = Some (str, r) -> (length r < n)%nat.
Proof.
  intros H. destruct res as [[str' r']|]; [|discriminate].
  intros [= _ <-]. now apply (H str').
Qed.

Lemma read_string_chars_length_bounded n s str r :
  (length s <= n)%nat ->
  read_string_chars s = Some (str, r) -> (length r < length s)%nat.
Proof.
  revert s str r. induction n as [|n IH]; intros s str r Hn.
  - destruct s; [discriminate|cbn in Hn; lia].
  - destruct s as [|c s]; [discriminate|]. cbn [length] in *.
    cbn [read_string_chars]. destruct (c =? 34); [intros [= _ <-]; lia|].
    destruct (c =? 92).
    + destruct s as [|e s]; [discriminate|]. cbn [length] in *.
      destruct (e =? 117).
      * destruct s as [|h1 [|h2 [|h3 [|h4 s]]]]; try discriminate.
        cbn [length] in *. destruct (hex4 h1 h2 h3 h4); [|discriminate].
        intros H. eapply cons_chars_length in H;
          [|intros str' r' E; apply (IH s str' r'); [lia|exact E]]. lia.
      * destruct (simple_escape e); [|discriminate].
        intros H. eapply cons_chars_length in H;
          [|intros str' r' E; apply (IH s str' r'); [lia|exact E]]. lia.
    + destruct (c <? 32); [discriminate|].
      intros H. eapply cons_chars_length in H;
        [|intros str' r' E; apply (IH s str' r'); [lia|exact E]]. lia.
Qed.

Lemma read_string_chars_length s str r :
  read_string_chars s = Some (str, r) -> (length r < length s)%nat.
Proof. now apply (read_string_chars_length_bounded (length s)). Qed.

Lemma read_digits_length s acc len :
  (length (read_digits s acc len).2 <= length s)%nat.
Proof.
  revert acc len. induction s as [|c s IH]; intros acc len; [reflexivity|].
  cbn [read_digits]. destruct (is_digit c); [|reflexivity].
  specialize (IH (acc * 10 + (c - 48)) (len + 1)). cbn [length]. lia.
Qed.

Lemma read_int_length s i r : read_int s = Some (i, r) -> (length r <= length s)%nat.
Proof.
  unfold read_int. destruct s as [|c s]; [discriminate|].
  destruct (c =? 48); [intros [= _ <-]; cbn [length]; lia|].
  destruct (is_digit c); [|discriminate].
  pose proof (read_digits_length (c :: s) 0 0) as H.
  destruct (read_digits (c :: s) 0 0) as [[v l] r']. now intros [= _ <-].
Qed.

Lemma read_frac_length i s d flen r :
  read_frac i s = Some (d, flen, r) -> (length r <= length s)%nat.
Proof.
  unfold read_frac. destruct (eat 46 s) as [s'|] eqn:E.
  - apply eat_length in E. pose proof (read_digits_length s' i 0) as H.
    destruct (read_digits s' i 0) as [[v l] r'].
    destruct (l =? 0); [discriminate|]. intros [= _ _ <-]. cbn [snd] in H. lia.
  - now intros [= _ _ <-].
Qed.

Lemma read_exp_length s ex r :
  read_exp s = Some (ex, r) -> (length r <= length s)%nat.
Proof.
  unfold read_exp. destruct s as [|c s]; [now intros [= _ <-]|].
  destruct ((c =? 101) || (c =? 69)); [|now intros [= _ <-]].
  assert (H : forall s'', (length s'' <= length s)%nat ->
              forall (neg : bool),
                (let '(v, len, r0) := read_digits s'' 0 0 in
                 if len =? 0 then None else Some (if neg then - v else v, r0))
                = Some (ex, r) -> (length r <= length (c :: s))%nat).
  { intros s'' Hs'' neg. pose proof (read_digits_length s'' 0 0) as H.
    destruct (read_digits s'' 0 0) as [[v l] r'].
    destruct (l =? 0); [discriminate|]. intros [= _ <-].
    cbn [snd length] in *. lia. }
  destruct (eat 43 s) as [r1|] eqn:E1.
  - apply eat_length in E1. exact (H r1 ltac:(lia) false).
  - destruct (eat 45 s) as [r2|] eqn:E2.
    + apply eat_length in E2. exact (H r2 ltac:(lia) true).
    + exact (H s ltac:(lia) false).
Qed.

Lemma read_number_length s x r :
  read_number s = Some (x, r) -> (length r <= length s)%nat.
Proof.
  unfold read_number.
  assert (H : forall (neg : bool) s1, (length s1 <= length s)%nat ->
              match read_int s1 with
              | Some (i, s2) =>
                  match read_frac i s2 with
                  | Some (d, flen, s3) =>
                      match read_exp s3 with
                      | Some (ex, s4) => Some (round_decimal neg d (ex - flen), s4)
                      | None => None
                      end
                  | None => None
                  end
              | None => None
              end = Some (x, r) -> (length r <= length s)%nat).
  { intros neg s1 Hs1.
    destruct (read_int s1) as [[i s2]|] eqn:E1; [|discriminate].
    destruct (read_frac i s2) as [[[d flen] s3]|] eqn:E2; [|discriminate].
    destruct (read_exp s3) as [[ex s4]|] eqn:E3; [|discriminate].
    intros [= _ <-]. apply read_int_length in E1.
    apply read_frac_length in E2. apply read_exp_length in E3. lia. }
  destruct (eat 45 s) as [r1|] eqn:E.
  - apply eat_length in E. exact (H true r1 ltac:(lia)).
  - exact (H false s ltac:(lia)).
Qed.

Lemma starts_with_length word s r :
  starts_with word s = Some r -> (length r <= length s)%nat.
Proof.
  revert s. induction word as [|w word IH]; intros s.
  - now intros [= <-].
  - destruct s as [|c s]; [discriminate|]. cbn [starts_with].
    destruct (w =? c); [|discriminate]. intros H. apply IH in H.
    cbn [length]. lia.
Qed.

Lemma read_literal_length word v s v' r :
  read_literal word v s = Some (v', r) -> (length r <= length s)%nat.
Proof.
  unfold read_literal. destruct (starts_with word s) eqn:E; [|discriminate].
  intros [= _ <-]. now apply starts_with_length in E.
Qed.

(** What is left after a value is no longer than what was there. *)
Lemma read_rest_length f :
  (forall s v r, read_value f s = Some (v, r) -> (length r <= length s)%nat) /\
  (forall s vs r, read_elements f s = Some (vs, r) -> (length r <= length s)%nat) /\
  (forall s ms r, read_members f s = Some (ms, r) -> (length r <= length s)%nat).
Proof.
  induction f as [|f (IHv & IHe & IHm)]; [repeat split; discriminate|].
  repeat split.
  - intros s v r. cbn [read_value].
    pose proof (skip_ws_length s) as Hws.
    destruct (skip_ws s) as [|c s']; [discriminate|]. cbn [length] in Hws.
    destruct (c =? 34).
    { destruct (read_string_chars s') as [[str r']|] eqn:E; [|discriminate].
      intros [= _ <-]. apply read_string_chars_length in E. lia. }
    pose proof (skip_ws_length s') as Hws'.
    destruct (c =? 91).
    { destruct (eat 93 (skip_ws s')) as [r'|] eqn:E.
      - intros [= _ <-]. apply eat_length in E. lia.
      - destruct (read_elements f s') as [[vs r']|] eqn:E'; [|discriminate].
        intros [= _ <-]. apply IHe in E'. lia. }
    destruct (c =? 123).
    { destruct (eat 125 (skip_ws s')) as [r'|] eqn:E.
      - intros [= _ <-]. apply eat_length in E. lia.
      - destruct (read_members f s') as [[ms r']|] eqn:E'; [|discriminate].
        intros [= _ <-]. apply IHm in E'. lia. }
    destruct (c =? 110);
      [intros H; apply read_literal_length in H; cbn [length] in H; lia|].
    destruct (c =? 116);
      [intros H; apply read_literal_length in H; cbn [length] in H; lia|].
    destruct (c =? 102);
      [intros H; apply read_literal_length in H; cbn [length] in H; lia|].
    destruct (read_number (c :: s')) as [[x r']|] eqn:E; [|discriminate].
    intros [= _ <-]. apply read_number_length in E. cbn [length] in E. lia.
  - intros s vs r. cbn [read_elements].
    destruct (read_value f s) as [[v r1]|] eqn:E1; [|discriminate].
    apply IHv in E1. pose proof (skip_ws_length r1) as Hws.
    destruct (skip_ws r1) as [|c r2]; [discriminate|]. cbn [length] in Hws.
    destruct (c =? 44).
    + destruct (read_elements f r2) as [[vs' r3]|] eqn:E2; [|discriminate].
      intros [= _ <-]. apply IHe in E2. lia.
    + destruct (c =? 93); [|discriminate]. intros [= _ <-]. lia.
  - intros s ms r. cbn [read_members].
    pose proof (skip_ws_length s) as Hws.
    destruct (eat 34 (skip_ws s)) as [s1|] eqn:E0; [|discriminate].
    apply eat_length in E0.
    destruct (read_string_chars s1) as [[k s2]|] eqn:E1; [|discriminate].
    apply read_string_chars_length in E1.
    pose proof (skip_ws_length s2) as Hws2.
    destruct (eat 58 (skip_ws s2)) as [s3|] eqn:E2; [|discriminate].
    apply eat_length in E2.
    destruct (read_value f s3) as [[v s4]|] eqn:E3; [|discriminate].
    apply IHv in E3. pose proof (skip_ws_length s4) as Hws4.
    destruct (skip_ws s4) as [|c s5]; [discriminate|]. cbn [length] in Hws4.
    destruct (c =? 44).
    + destruct (read_members f s5) as [[ms' r3]|] eqn:E4; [|discriminate].
      intros [= _ <-]. apply IHm in E4. lia.
    + destruct (c =? 125); [|discriminate]. intros [= _ <-]. lia.
Qed.

(** The three readers, one step unfolded. *)
Lemma read_value_S f s :
  read_value (S f) s
  = match skip_ws s with
    | [] => None
    | c :: s' =>
        if c =? 34 then
          match read_string_chars s' with
          | Some (str, r) => Some (VStr str, r)
          | None => None
          end
        else if c =? 91 then
          match eat 93 (skip_ws s') with
          | Some r => Some (VArr [], r)
          | None =>
              match read_elements f s' with
              | Some (elems, r) => Some (VArr elems, r)
              | None => None
              end
          end
        else if c =? 123 then
          match eat 125 (skip_ws s') with
          | Some r => Some (VObj [], r)
          | None =>
              match read_members f s' with
              | Some (members, r) => Some (VObj (build_object members), r)
              | None => None
              end
          end
        else if c =? 110 then read_literal (lit "null") VNull (c :: s')
        else if c =? 116 then read_literal (lit "true") (VBool true) (c :: s')
        else if c =? 102 then read_literal (lit "false") (VBool false) (c :: s')
        else
          match read_number (c :: s') with
          | Some (x, r) => Some (VNum x, r)
          | None => None
          end
    end.
Proof. reflexivity. Qed.

Lemma read_elements_S f s :
  read_elements (S f) s
  = match read_value f s with
    | None => None
    | Some (v, r) =>
        match skip_ws r with
        | c :: r' =>
            if c =? 44 then
              match read_elements f r' with
              | Some (elems, r'') => Some (v :: elems, r'')
              | None => None
              end
            else if c =? 93 then Some ([v], r')
            else None
        | [] => None
        end
    end.
Proof. reflexivity. Qed.

Lemma read_members_S f s :
  read_members (S f) s
  = match eat 34 (skip_ws s) with
    | Some s1 =>
        match read_string_chars s1 with
        | None => None
        | Some (k, s2) =>
            match eat 58 (skip_ws s2) with
            | Some s3 =>
                match read_value f s3 with
                | None => None
                | Some (v, s4) =>
                    match skip_ws s4 with
                    | c :: s5 =>
                        if c =? 44 then
                          match read_members f s5 with
                          | Some (members, r) => Some ((k, v) :: members, r)
                          | None => None
                          end
                        else if c =? 125 then Some ([(k, v)], s5)
                        else None
                    | [] => None
                    end
                end
            | None => None
            end
        end
    | None => None
    end.
Proof. reflexivity. Qed.

(** Past two units of fuel for each character, one more unit changes
    nothing. *)
Lemma read_more_fuel f :
  (forall s, (2 * length s + 1 <= f)%nat -> read_value (S f) s = read_value f s) /\
  (forall s, (2 * length s + 2 <= f)%nat ->
             read_elements (S f) s = read_elements f s) /\
  (forall s, (2 * length s + 2 <= f)%nat ->
             read_members (S f) s = read_members f s).
Proof.
  induction f as [|f (IHv & IHe & IHm)]; [repeat split; intros s H; lia|].
  destruct (read_rest_length f) as (Lv & _ & _).
  repeat split.
  - intros s Hf. rewrite (read_value_S (S f)), (read_value_S f).
    pose proof (skip_ws_length s) as Hws.
    destruct (skip_ws s) as [|c s']; [reflexivity|]. cbn [length] in Hws.
    rewrite IHe, IHm by lia. reflexivity.
  - intros s Hf. rewrite (read_elements_S (S f)), (read_elements_S f), IHv by lia.
    destruct (read_value f s) as [[v r1]|] eqn:E1; [|reflexivity].
    apply Lv in E1. pose proof (skip_ws_length r1) as Hws.
    destruct (skip_ws r1) as [|c r2]; [reflexivity|]. cbn [length] in Hws.
    rewrite IHe by lia. reflexivity.
  - intros s Hf. rewrite (read_members_S (S f)), (read_members_S f).
    pose proof (skip_ws_length s) as Hws.
    destruct (eat 34 (skip_ws s)) as [s1|] eqn:E0; [|reflexivity].
    apply eat_length in E0.
    destruct (read_string_chars s1) as [[k s2]|] eqn:E1; [|reflexivity].
    apply read_string_chars_length in E1.
    pose proof (skip_ws_length s2) as Hws2.
    destruct (eat 58 (skip_ws s2)) as [s3|] eqn:E2; [|reflexivity].
    apply eat_length in E2. rewrite IHv by lia.
    destruct (read_value f s3) as [[v s4]|] eqn:E3; [|reflexivity].
    apply Lv in E3. pose proof (skip_ws_length s4) as Hws4.
    destruct (skip_ws s4) as [|c s5]; [reflexivity|]. cbn [length] in Hws4.
    rewrite IHm by lia. reflexivity.
Qed.

(** [JSON_parse] gives its text all the fuel that can be used: with
    more, [read_value] returns the same. *)
Lemma parse_fuel_enough s (extra : nat) :
  read_value (parse_fuel s + extra) s = read_value (parse_fuel s) s.
Proof.
  induction extra as [|extra IH]; [now rewrite Nat.add_0_r|].
  rewrite Nat.add_succ_r, <- IH.
  apply (read_more_fuel (parse_fuel s + extra)). unfold parse_fuel. lia.
Qed.

End Fuel.

(** ** The state updates *)

Section Updates.

Implicit Types (l : list Todo) (i : number) (st : AppState).

Lemma strict_eq_true x y : strict_eq x y = true -> x = y.
Proof.
  destruct x, y; simpl; try discriminate; intros H;
    now apply bool_decide_eq_true in H.
Qed.

Lemma toggled_twice todo :
  set_completed (negb (negb (completed todo)))
    (set_completed (negb (completed todo)) todo) = todo.
Proof. destruct todo; unfold set_completed; simpl. now rewrite negb_involutive. Qed.

Lemma editTodo_lookup i newText l n :
  editTodo i newText l !! n =
  (fun todo => if strict_eq (id todo) i then set_text newText todo else todo)
    <$> l !! n.
Proof. unfold editTodo. now rewrite list_lookup_fmap. Qed.

Lemma editTodo_ids i newText l : List.map id (editTodo i newText l) = List.map id l.
Proof.
  unfold editTodo. rewrite List.map_map. apply List.map_ext.
  intros todo. now destruct (strict_eq (id todo) i).
Qed.

Lemma toggleTodo_ids i l : List.map id (toggleTodo i l) = List.map id l.
Proof.
  unfold toggleTodo. rewrite List.map_map. apply List.map_ext.
  intros todo. now destruct (strict_eq (id todo) i).
Qed.

Lemma handleSubmit_blank inputValue :
  trim inputValue = [] -> fst (handleSubmit inputValue) = None.
Proof. unfold handleSubmit. now intros ->. Qed.

Lemma handleSubmit_text inputValue :
  truthy (trim inputValue) = true ->
  fst (handleSubmit inputValue) = Some (trim inputValue).
Proof. unfold handleSubmit. now intros ->. Qed.

Lemma add_todos env inputValue st :
  truthy (trim inputValue) = true ->
  todos (add env inputValue st) = newTodo env (trim inputValue) :: todos st.
Proof. intros H. unfold add. now rewrite handleSubmit_text. Qed.

End Updates.

(** C2: adding a text that is empty once trimmed changes nothing: the
    collection, the store and the trace of writes stay as they were. *)
Theorem add_blank_noop (env : Env) (inputValue : jsstring) (st : AppState) :
  trim inputValue = [] -> add env inputValue st = st.
Proof. intros H. unfold add. now rewrite handleSubmit_blank. Qed.

Lemma add_blank_noop_witness :
  (trim (lit "   ") = [] /\
   add Scenario.env_a (lit "   ") (initial Scenario.no_storage)
   = initial Scenario.no_storage) /\
  (trim [] = [] /\
   add Scenario.env_a [] (initial Scenario.no_storage)
   = initial Scenario.no_storage).
Proof.
  split; (split; [reflexivity|]).
  - apply (add_blank_noop Scenario.env_a (lit "   ")). reflexivity.
  - apply (add_blank_noop Scenario.env_a []). reflexivity.
Defined.

(** C3: saving an edit whose text, once trimmed, is empty or is the text
    the item already has, changes nothing: [onEditTodo] is not called, so
    the collection, the store and the trace (no [setItem]) stay as they
    were. *)
Theorem edit_blank_or_same_noop (st : AppState) (i : number) (todo : Todo)
    (newText : jsstring) :
  In todo (todos st) -> id todo = i ->
  trim newText = [] \/ trim newText = text todo ->
  edit todo newText st = st.
Proof.
  intros _ _ H. unfold edit, handleEdit. simpl.
  destruct H as [-> | ->]; simpl; [reflexivity|].
  rewrite bool_decide_eq_true_2 by reflexivity.
  now rewrite andb_false_r.
Qed.

Lemma edit_blank_or_same_noop_witness :
  let st := run (initial Scenario.no_storage)
              [Add Scenario.env_a (lit "buy milk")] in
  edit Scenario.milk (lit "  ") st = st /\
  edit Scenario.milk (lit " buy milk ") st = st.
Proof.
  split.
  - apply (edit_blank_or_same_noop _ (id Scenario.milk) Scenario.milk (lit "  "));
      [left; reflexivity | reflexivity | left; reflexivity].
  - apply (edit_blank_or_same_noop _ (id Scenario.milk) Scenario.milk
             (lit " buy milk "));
      [left; reflexivity | reflexivity | right; reflexivity].
Defined.

(** C5: [n] submissions of texts that are not empty once trimmed put [n]
    new todos in front of the collection, the last one added first, each
    with [completed] false. *)
Theorem adds_prepend_newest_first (st : AppState)
    (inputs : list (Env * jsstring)) :
  Forall (fun p => truthy (trim (snd p)) = true) inputs ->
  let st' := run st (List.map (fun p => Add (fst p) (snd p)) inputs) in
  let created :=
    rev (List.map (fun p => newTodo (fst p) (trim (snd p))) inputs) in
  todos st' = created ++ todos st /\
  length (todos st') = (length inputs + length (todos st))%nat /\
  Forall (fun todo => completed todo = false) created.
Proof.
  intros H. cbn zeta.
  assert (E : todos (run st (List.map (fun p => Add (fst p) (snd p)) inputs))
              = rev (List.map (fun p => newTodo (fst p) (trim (snd p))) inputs)
                ++ todos st).
  { revert st. induction H as [|[env v] inputs Hv _ IH]; intros st; [reflexivity|].
    cbn [List.map run fold_left step fst snd] in *.
    unfold run in IH. rewrite IH. rewrite add_todos by exact Hv.
    cbn [rev]. now rewrite <- app_assoc. }
  split; [exact E|]. split.
  - rewrite E, length_app, length_rev, length_map. reflexivity.
  - apply List.Forall_rev, List.Forall_forall. intros todo Hin.
    apply List.in_map_iff in Hin as [p [<- _]]. reflexivity.
Qed.

Lemma adds_prepend_newest_first_witness :
  List.map text
    (todos (run (initial Scenario.no_storage)
              [Add Scenario.env_a (lit " buy milk");
               Add Scenario.env_c (lit "walk dog ")]))
  = [lit "walk dog"; lit "buy milk"].
Proof.
  pose proof (adds_prepend_newest_first (initial Scenario.no_storage)
                [(Scenario.env_a, lit " buy milk");
                 (Scenario.env_c, lit "walk dog ")]) as H.
  cbn zeta in H. destruct H as [E _].
  - repeat constructor.
  - cbn [List.map fst snd] in E. rewrite E. reflexivity.
Defined.

(** C8: toggling the same id twice gives back the collection, so every
    [completed] is what it was; toggling an id that no todo has gives the
    collection back at once. *)
Theorem toggleTodo_involutive (l : list Todo) (i : number) :
  toggleTodo i (toggleTodo i l) = l /\
  (forallb (fun todo => negb (strict_eq (id todo) i)) l = true ->
   toggleTodo i l = l).
Proof.
  split.
  - unfold toggleTodo. rewrite List.map_map.
    rewrite <- (List.map_id l) at 2. apply List.map_ext.
    intros todo. destruct (strict_eq (id todo) i) eqn:E.
    + cbn [id set_completed completed]. rewrite E.
      destruct todo; unfold set_completed; simpl. now rewrite negb_involutive.
    + now rewrite E.
  - intros H. unfold toggleTodo.
    rewrite <- (List.map_id l) at 2. apply List.map_ext_in.
    intros todo Hin. rewrite forallb_forall in H.
    specialize (H todo Hin). now destruct (strict_eq (id todo) i).
Qed.

Lemma toggleTodo_involutive_witness :
  toggleTodo (id Scenario.milk) (toggleTodo (id Scenario.milk) Scenario.two_todos)
  = Scenario.two_todos /\
  toggleTodo (of_Z 7) Scenario.two_todos = Scenario.two_todos.
Proof.
  split.
  - apply (toggleTodo_involutive Scenario.two_todos (id Scenario.milk)).
  - apply (toggleTodo_involutive Scenario.two_todos (of_Z 7)).
    vm_compute. reflexivity.
Defined.

(** C9: [editTodo] keeps the length and the order of the collection; at
    each place, a todo of the given id keeps its [id], [completed] and
    [createdAt] and takes the new text, and a todo of another id stays
    as it is.  In a collection where the ids are all different, the
    result is the collection with that one todo replaced. *)
Theorem editTodo_replaces_text_only (l : list Todo) (i : number)
    (newText : list Z) :
  length (editTodo i newText l) = length l /\
  (forall (n : nat) (todo : Todo),
      l !! n = Some todo ->
      editTodo i newText l !! n =
      Some (if strict_eq (id todo) i
            then {| id := id todo; text := newText;
                    completed := completed todo;
                    createdAt := createdAt todo |}
            else todo)) /\
  (forall (n : nat) (todo : Todo),
      ids_unique l -> l !! n = Some todo -> strict_eq (id todo) i = true ->
      truthy (trim newText) = true ->
      editTodo i newText l
      = <[n := {| id := id todo; text := newText;
                  completed := completed todo;
                  createdAt := createdAt todo |}]> l).
Proof.
  split; [unfold editTodo; apply length_map|]. split.
  - intros n todo H. rewrite editTodo_lookup, H. reflexivity.
  - intros n todo Huniq Hn Hid _. apply list_eq. intros m.
    rewrite editTodo_lookup.
    destruct (decide (m = n)) as [-> | Hne].
    + rewrite list_lookup_insert_eq by (eapply lookup_lt_Some; eassumption).
      rewrite Hn. cbn. now rewrite Hid.
    + rewrite list_lookup_insert_ne by congruence.
      destruct (l !! m) as [todo'|] eqn:Hm; [|reflexivity]. cbn.
      destruct (strict_eq (id todo') i) eqn:Hid'; [exfalso|reflexivity].
      apply strict_eq_true in Hid, Hid'. apply Hne.
      unfold ids_unique in Huniq.
      eapply (NoDup_lookup (List.map id l) m n (id todo')); [exact Huniq| |].
      * change (List.map id l) with (id <$> l).
        now rewrite list_lookup_fmap, Hm.
      * change (List.map id l) with (id <$> l).
        rewrite list_lookup_fmap, Hn. cbn. congruence.
Qed.

Lemma editTodo_replaces_text_only_witness :
  editTodo (id Scenario.milk) (lit "buy oat milk") Scenario.two_todos
  = [Scenario.dog;
     {| id := id Scenario.milk; text := lit "buy oat milk";
        completed := false; createdAt := createdAt Scenario.milk |}].
Proof.
  destruct (editTodo_replaces_text_only Scenario.two_todos (id Scenario.milk)
              (lit "buy oat milk")) as (_ & _ & H).
  apply (H 1%nat Scenario.milk).
  - unfold ids_unique. apply (bool_decide_unpack _). vm_compute. exact I.
  - reflexivity.
  - vm_compute. reflexivity.
  - reflexivity.
Defined.

(** C10: the three counters agree with each other and with the lists
    that [TodoList] shows under the filters. *)
Theorem stats_consistent (l : list Todo) :
  totalTodos l = Z.of_nat (length l) /\
  totalTodos l = completedTodos l + pendingTodos l /\
  completedTodos l = Z.of_nat (length (filteredTodos l (lit "completed"))) /\
  pendingTodos l = Z.of_nat (length (filteredTodos l (lit "pending"))).
Proof.
  assert (Ec : filteredTodos l (lit "completed")
               = List.filter (fun todo => completed todo) l).
  { unfold filteredTodos. apply List.filter_ext. intros todo.
    now rewrite bool_decide_eq_true_2 by reflexivity. }
  assert (Ep : filteredTodos l (lit "pending")
               = List.filter (fun todo => negb (completed todo)) l).
  { unfold filteredTodos. apply List.filter_ext. intros todo.
    rewrite bool_decide_eq_false_2 by (vm_compute; discriminate).
    now rewrite bool_decide_eq_true_2 by reflexivity. }
  rewrite Ec, Ep. unfold pendingTodos, completedTodos, totalTodos.
  split; [reflexivity|]. split; [lia|]. split; [reflexivity|].
  clear Ec Ep. induction l as [|todo l IH]; [reflexivity|].
  cbn [List.filter length].
  destruct (completed todo); cbn [negb length]; lia.
Qed.

(** The scenario of the specification: two todos added, the older one
    toggled, then the three views and the counters. *)
Example scenario_milk_and_dog :
  let st := run (initial Scenario.no_storage)
              [Add Scenario.env_a (lit "buy milk");
               Add Scenario.env_c (lit "walk dog");
               Toggle (id Scenario.milk)] in
  List.map text (todos st) = [lit "walk dog"; lit "buy milk"] /\
  List.map text (filteredTodos (todos st) (lit "completed")) = [lit "buy milk"] /\
  List.map text (filteredTodos (todos st) (lit "pending")) = [lit "walk dog"] /\
  (totalTodos (todos st), completedTodos (todos st), pendingTodos (todos st))
  = (2, 1, 1).
Proof. vm_compute. repeat split; reflexivity. Qed.

(** ** The invariant of the texts *)

Section Texts.

Implicit Types (st : AppState) (l : list Todo).

Lemma trimmed_text_ok v :
  js_length v <= maxLength -> truthy (trim v) = true -> text_ok (trim v) = true.
Proof.
  intros Hlen Ht. unfold text_ok. rewrite Ht, trim_idem.
  rewrite bool_decide_eq_true_2 by reflexivity. cbn [andb].
  apply Z.leb_le. unfold js_length in *. pose proof (trim_length v). lia.
Qed.

Lemma texts_ok_add st env inputValue :
  texts_ok (todos st) -> js_length inputValue <= maxLength ->
  texts_ok (todos (add env inputValue st)).
Proof.
  intros Hst Hlen. unfold add, handleSubmit.
  destruct (truthy (trim inputValue)) eqn:Ht; cbn [fst]; [|exact Hst].
  cbn [setTodos todos addTodo]. constructor; [|exact Hst].
  cbn [newTodo text]. now apply trimmed_text_ok.
Qed.

Lemma texts_ok_editTodo l i t :
  texts_ok l -> text_ok t = true -> texts_ok (editTodo i t l).
Proof.
  intros Hl Ht. unfold texts_ok, editTodo in *. rewrite List.Forall_map.
  eapply List.Forall_impl; [|exact Hl]. intros todo Htodo. cbn beta.
  destruct (strict_eq (id todo) i); [exact Ht|exact Htodo].
Qed.

Lemma texts_ok_edit st todo newText :
  texts_ok (todos st) -> js_length newText <= maxLength ->
  texts_ok (todos (edit todo newText st)).
Proof.
  intros Hst Hlen. unfold edit, handleEdit. cbn [isEditing editValue].
  destruct (truthy (trim newText)) eqn:Ht; cbn [andb fst]; [|exact Hst].
  destruct (negb (bool_decide (trim newText = text todo))); cbn [fst];
    [|exact Hst].
  cbn [setTodos todos]. apply texts_ok_editTodo; [exact Hst|].
  now apply trimmed_text_ok.
Qed.

Lemma texts_ok_toggleTodo l i : texts_ok l -> texts_ok (toggleTodo i l).
Proof.
  intros Hl. unfold texts_ok, toggleTodo in *. rewrite List.Forall_map.
  eapply List.Forall_impl; [|exact Hl]. intros todo Htodo. cbn beta.
  destruct (strict_eq (id todo) i); exact Htodo.
Qed.

Lemma texts_ok_deleteTodo l i : texts_ok l -> texts_ok (deleteTodo i l).
Proof.
  intros Hl. unfold texts_ok, deleteTodo in *.
  apply List.Forall_forall. intros todo Hin. apply List.filter_In in Hin as [Hin _].
  revert todo Hin. now apply List.Forall_forall.
Qed.

Lemma texts_ok_step st ev :
  texts_ok (todos st) -> event_ok ev = true -> texts_ok (todos (step st ev)).
Proof.
  intros Hst Hev. destruct ev as [env v|i|i|n v]; cbn [step event_ok] in *.
  - apply texts_ok_add; [exact Hst|now apply Z.leb_le].
  - now apply texts_ok_toggleTodo.
  - now apply texts_ok_deleteTodo.
  - destruct (todos st !! n); [|exact Hst].
    apply texts_ok_edit; [exact Hst|now apply Z.leb_le].
Qed.

End Texts.

(** C4: in a collection reached from one whose texts are all right
    (the empty one of the start is) by submitting, toggling, deleting and
    editing, with inputs no longer than their [maxLength], every text is
    not empty, trimmed, and at most 100 code units long; submitting and
    editing each keep it so. *)
Theorem texts_ok_reachable :
  texts_ok [] /\
  (forall (st : AppState) (env : Env) (inputValue : jsstring),
      texts_ok (todos st) -> js_length inputValue <= maxLength ->
      texts_ok (todos (add env inputValue st))) /\
  (forall (st : AppState) (todo : Todo) (newText : jsstring),
      texts_ok (todos st) -> js_length newText <= maxLength ->
      texts_ok (todos (edit todo newText st))) /\
  (forall (st : AppState) (evs : list event),
      texts_ok (todos st) -> Forall (fun ev => event_ok ev = true) evs ->
      texts_ok (todos (run st evs))).
Proof.
  split; [constructor|]. split; [exact texts_ok_add|].
  split; [exact texts_ok_edit|].
  intros st evs Hst Hevs. revert st Hst.
  induction Hevs as [|ev evs Hev _ IH]; intros st Hst; [exact Hst|].
  cbn [run fold_left]. apply IH. now apply texts_ok_step.
Qed.

Lemma texts_ok_reachable_witness :
  List.map text
    (todos (run (initial Scenario.no_storage)
              [Add Scenario.env_a (lit "  buy milk ");
               Edit 0 (lit " buy oat milk  ")]))
  = [lit "buy oat milk"] /\
  texts_ok
    (todos (run (initial Scenario.no_storage)
              [Add Scenario.env_a (lit "  buy milk ");
               Edit 0 (lit " buy oat milk  ")])).
Proof.
  split; [reflexivity|].
  destruct texts_ok_reachable as (H0 & _ & _ & Hrun).
  apply Hrun; [exact H0|]. repeat constructor.
Defined.

(** ** The ids *)

Section Ids.

Implicit Types (l : list Todo) (i : number).

(** With an id that no todo of the collection has, [addTodo] keeps the
    ids apart; the other updates never bring two ids together. *)
Lemma ids_unique_addTodo env t l :
  id (newTodo env t) ∉ List.map id l -> ids_unique l ->
  ids_unique (addTodo env t l).
Proof. intros Hnew Hl. unfold ids_unique, addTodo. cbn [List.map]. now constructor. Qed.

Lemma ids_unique_toggleTodo i l : ids_unique l -> ids_unique (toggleTodo i l).
Proof. unfold ids_unique. now rewrite toggleTodo_ids. Qed.

Lemma ids_unique_editTodo i t l : ids_unique l -> ids_unique (editTodo i t l).
Proof. unfold ids_unique. now rewrite editTodo_ids. Qed.

Lemma ids_unique_deleteTodo i l : ids_unique l -> ids_unique (deleteTodo i l).
Proof.
  unfold ids_unique, deleteTodo. induction l as [|todo l IH]; [easy|].
  cbn [List.map List.filter]. intros H. apply NoDup_cons in H as [Hnotin Hl].
  destruct (negb (strict_eq (id todo) i)); [|now apply IH].
  cbn [List.map]. apply NoDup_cons. split; [|now apply IH].
  intros Hin. apply Hnotin.
  apply list_elem_of_In, List.in_map_iff in Hin as [t' [E Hin]].
  apply List.filter_In in Hin as [Hin _].
  apply list_elem_of_In, List.in_map_iff. now exists t'.
Qed.

End Ids.

(** C1, at two submissions within one millisecond: the clock reads
    1700000000000 both times and [Math.random()] returns 0.3125, then
    0.31256103515625.  Both sums round to the same Number,
    1700000000000.3125, and the collection holds two todos with that id. *)
Theorem two_adds_share_id :
  env_ok Scenario.env_a = true /\ env_ok Scenario.env_b = true /\
  toString (Math_random Scenario.env_a) = lit "0.3125" /\
  toString (Math_random Scenario.env_b) = lit "0.31256103515625" /\
  (let l := todos (run (initial Scenario.no_storage) Scenario.two_adds) in
   List.map text l = [lit "walk dog"; lit "buy milk"] /\
   List.map id l = [Finite 6963200000001280 (-12); Finite 6963200000001280 (-12)] /\
   List.map (fun todo => toString (id todo)) l
   = [lit "1700000000000.3125"; lit "1700000000000.3125"] /\
   ~ ids_unique l).
Proof.
  split; [reflexivity|]. split; [reflexivity|].
  split; [vm_compute; reflexivity|]. split; [vm_compute; reflexivity|].
  cbn zeta.
  assert (E : List.map id (todos (run (initial Scenario.no_storage) Scenario.two_adds))
              = [Finite 6963200000001280 (-12); Finite 6963200000001280 (-12)])
    by (vm_compute; reflexivity).
  split; [vm_compute; reflexivity|]. split; [exact E|].
  split; [vm_compute; reflexivity|].
  unfold ids_unique. rewrite E. intros H.
  apply NoDup_cons in H as [H _]. apply H. left.
Qed.

(** ** The effect of mount *)

(** C6 fails with the empty string in the store: it is there, it is not
    JSON, and [load] gives the empty collection without a report. *)
Lemma load_empty_string_unreported :
  Scenario.empty_string_stored !! todoApp_todos = Some [] /\
  JSON_parse [] = Throw SyntaxError /\
  load Scenario.empty_string_stored = Ok (VArr [], []) /\
  ~ (exists v tr message error,
        load Scenario.empty_string_stored = Ok (v, tr) /\
        In (ConsoleError message error) tr).
Proof.
  assert (E : load Scenario.empty_string_stored = Ok (VArr [], []))
    by (vm_compute; reflexivity).
  split; [vm_compute; reflexivity|]. split; [vm_compute; reflexivity|].
  split; [exact E|].
  intros (v & tr & message & error & Hload & Hin).
  rewrite E in Hload. injection Hload as <- <-. destruct Hin.
Qed.

(** C6, amended: [load] never throws.  With nothing under the key, or
    the empty string, it gives the empty collection and reports nothing;
    with a text that is not empty and is not JSON, it gives the empty
    collection and reports the error to the console; with JSON it gives
    its value. *)
Theorem load_never_throws (storage : gmap jsstring jsstring) :
  exists (v : value) (tr : list effect),
    load storage = Ok (v, tr) /\
    (storage !! todoApp_todos = None -> v = VArr [] /\ tr = []) /\
    (storage !! todoApp_todos = Some [] -> v = VArr [] /\ tr = []) /\
    (forall s e, storage !! todoApp_todos = Some s -> s <> [] ->
                 JSON_parse s = Throw e ->
                 v = VArr [] /\ tr = [ConsoleError load_error_message e]) /\
    (forall s p, storage !! todoApp_todos = Some s -> s <> [] ->
                 JSON_parse s = Ok p -> v = p /\ tr = []).
Proof.
  unfold load. destruct (storage !! todoApp_todos) as [s|] eqn:Es.
  - destruct s as [|c s]; cbn [truthy].
    + exists (VArr []), []. repeat split; try congruence.
      all: intros s e [= <-]; congruence.
    + destruct (JSON_parse (c :: s)) as [p|e] eqn:Ep; cbn [bind try_catch].
      * exists p, []. split; [reflexivity|]. repeat split; try congruence.
        all: intros s' q [= <-] _ Hq; congruence.
      * exists (VArr []), [ConsoleError load_error_message e].
        split; [reflexivity|]. repeat split; try congruence.
        all: intros s' q [= <-] _ Hq; congruence.
  - exists (VArr []), []. repeat split; congruence.
Qed.

Lemma load_never_throws_witness :
  load Scenario.garbage_stored
  = Ok (VArr [], [ConsoleError load_error_message SyntaxError]).
Proof.
  destruct (load_never_throws Scenario.garbage_stored)
    as (v & tr & E & _ & _ & H & _).
  destruct (H (lit "{oops") SyntaxError) as [-> ->].
  - vm_compute. reflexivity.
  - discriminate.
  - vm_compute. reflexivity.
  - exact E.
Defined.

(** ** Saving and loading *)

Section Persistence.

Implicit Types (todo : Todo) (l : list Todo).

Lemma wf_todo_value todo : wf_todo todo = true -> wf_value (todo_value todo) = true.
Proof.
  unfold wf_todo. rewrite !andb_true_iff. intros [[[Hfin Hnum] Htext] Hcreated].
  cbn [todo_value wf_value forallb fst snd List.map].
  rewrite Hfin, Hnum, Htext, Hcreated. reflexivity.
Qed.

Lemma wf_todos_value l : wf_todos l = true -> wf_value (todos_value l) = true.
Proof.
  unfold wf_todos, todos_value. cbn [wf_value].
  induction l as [|todo l IH]; [reflexivity|].
  cbn [forallb List.map]. rewrite !andb_true_iff. intros [Htodo Hl].
  split; [now apply wf_todo_value|now apply IH].
Qed.

Lemma value_todo_value todo : value_todo (todo_value todo) = Some todo.
Proof. destruct todo. reflexivity. Qed.

Lemma value_todos_value l : value_todos (todos_value l) = Some l.
Proof.
  unfold value_todos, todos_value.
  induction l as [|todo l IH]; [reflexivity|].
  cbn [List.map mapM]. rewrite value_todo_value. cbn [mbind option_bind].
  rewrite IH. reflexivity.
Qed.

Lemma stringify_truthy v : wf_value v = true -> truthy (JSON_stringify v) = true.
Proof.
  intros Hwf. unfold JSON_stringify.
  now destruct (stringify_first v Hwf) as (c & body & -> & _).
Qed.

End Persistence.

(** C7: after [save] of a collection whose ids are finite Numbers and
    whose strings are made of code units, [load] reads the same store and
    gives the collection back, with nothing reported. *)
Theorem save_load_roundtrip (c : list Todo) (storage : gmap (list Z) (list Z)) :
  wf_todos c = true ->
  load (save c storage) = Ok (todos_value c, []) /\
  value_todos (todos_value c) = Some c.
Proof.
  intros Hwf. split; [|apply value_todos_value].
  apply wf_todos_value in Hwf.
  unfold load, save. rewrite lookup_insert_eq.
  rewrite stringify_truthy by exact Hwf.
  rewrite JSON_parse_stringify by exact Hwf. reflexivity.
Qed.

Lemma save_load_roundtrip_witness :
  wf_todos Scenario.two_todos = true /\
  load (save Scenario.two_todos Scenario.garbage_stored)
  = Ok (todos_value Scenario.two_todos, []) /\
  value_todos (todos_value Scenario.two_todos) = Some Scenario.two_todos.
Proof.
  split; [vm_compute; reflexivity|].
  apply (save_load_roundtrip Scenario.two_todos Scenario.garbage_stored).
  vm_compute. reflexivity.
Defined.

(** * Further properties *)

(** ** The updates of the collection *)

Section MoreUpdates.

Implicit Types (l : list Todo) (i j : number) (todo : Todo).

Lemma strict_eq_sym x y : strict_eq x y = strict_eq y x.
Proof.
  destruct x, y; cbn; try reflexivity;
    apply bool_decide_ext; split; congruence.
Qed.

Lemma deleteTodo_elem_of l i todo :
  todo ∈ deleteTodo i l <-> todo ∈ l /\ strict_eq (id todo) i = false.
Proof.
  unfold deleteTodo. rewrite !list_elem_of_In, List.filter_In, negb_true_iff.
  reflexivity.
Qed.

Lemma deleteTodo_sublist l i : deleteTodo i l `sublist_of` l.
Proof.
  unfold deleteTodo. induction l as [|todo l IH]; [constructor|].
  cbn [List.filter]. destruct (negb (strict_eq (id todo) i));
    now constructor.
Qed.

Lemma deleteTodo_absent l i :
  forallb (fun todo => negb (strict_eq (id todo) i)) l = true ->
  deleteTodo i l = l.
Proof.
  unfold deleteTodo. induction l as [|todo l IH]; [reflexivity|].
  cbn [forallb List.filter]. intros H. apply andb_true_iff in H as [H1 H2].
  rewrite H1. now rewrite IH.
Qed.

Lemma deleteTodo_clean l i :
  forallb (fun todo => negb (strict_eq (id todo) i)) (deleteTodo i l) = true.
Proof.
  unfold deleteTodo. induction l as [|todo l IH]; [reflexivity|].
  cbn [List.filter]. destruct (negb (strict_eq (id todo) i)) eqn:E; [|exact IH].
  cbn [forallb]. now rewrite E, IH.
Qed.

Lemma editTodo_absent l i t :
  forallb (fun todo => negb (strict_eq (id todo) i)) l = true ->
  editTodo i t l = l.
Proof.
  unfold editTodo. induction l as [|todo l IH]; [reflexivity|].
  cbn [forallb List.map]. intros H. apply andb_true_iff in H as [H1 H2].
  apply negb_true_iff in H1. rewrite H1. now rewrite IH.
Qed.

Lemma toggleTodo_absent l i :
  forallb (fun todo => negb (strict_eq (id todo) i)) l = true ->
  toggleTodo i l = l.
Proof.
  unfold toggleTodo. induction l as [|todo l IH]; [reflexivity|].
  cbn [forallb List.map]. intros H. apply andb_true_iff in H as [H1 H2].
  apply negb_true_iff in H1. rewrite H1. now rewrite IH.
Qed.

Lemma deleteTodo_map (f : Todo -> Todo) l i :
  (forall todo, id (f todo) = id todo) ->
  deleteTodo i (List.map f l) = List.map f (deleteTodo i l).
Proof.
  intros Hf. unfold deleteTodo. induction l as [|todo l IH]; [reflexivity|].
  cbn [List.map List.filter]. rewrite Hf.
  destruct (negb (strict_eq (id todo) i)); cbn [List.map]; now rewrite IH.
Qed.

Lemma deleteTodo_comm l i j :
  deleteTodo i (deleteTodo j l) = deleteTodo j (deleteTodo i l).
Proof.
  unfold deleteTodo. induction l as [|todo l IH]; [reflexivity|].
  cbn [List.filter].
  destruct (negb (strict_eq (id todo) i)) eqn:Ei,
           (negb (strict_eq (id todo) j)) eqn:Ej;
    cbn [List.filter]; rewrite ?Ei, ?Ej, IH; reflexivity.
Qed.

End MoreUpdates.

(** X1: [deleteTodo] keeps, in their order, exactly the todos whose id
    is not the given one, and doing it again changes nothing. *)
Theorem deleteTodo_removes (l : list Todo) (i : number) :
  deleteTodo i l `sublist_of` l /\
  (forall todo : Todo,
      todo ∈ deleteTodo i l <-> todo ∈ l /\ strict_eq (id todo) i = false) /\
  deleteTodo i (deleteTodo i l) = deleteTodo i l.
Proof.
  split; [apply deleteTodo_sublist|]. split; [apply deleteTodo_elem_of|].
  apply deleteTodo_absent, deleteTodo_clean.
Qed.

(** X2: with an id that no todo has, [deleteTodo] gives the collection
    back; in a collection where the ids are all different, it takes out
    the one todo of that id and nothing else. *)
Theorem deleteTodo_exactly_one (l : list Todo) (i : number) :
  (forallb (fun todo => negb (strict_eq (id todo) i)) l = true ->
   deleteTodo i l = l) /\
  (forall (n : nat) (todo : Todo),
      ids_unique l -> l !! n = Some todo -> strict_eq (id todo) i = true ->
      deleteTodo i l = delete n l /\
      length (deleteTodo i l) = pred (length l)).
Proof.
  split; [apply deleteTodo_absent|].
  intros n todo Huniq Hn Hid.
  assert (E : deleteTodo i l = delete n l).
  { revert n Huniq Hn. induction l as [|todo' l IH]; intros n Huniq Hn;
      [discriminate|].
    unfold ids_unique in Huniq. cbn [List.map] in Huniq.
    apply NoDup_cons in Huniq as [Hnotin Huniq].
    destruct n as [|n]; cbn in Hn.
    - injection Hn as ->. unfold deleteTodo. cbn [List.filter].
      rewrite Hid. cbn [negb]. apply deleteTodo_absent.
      apply forallb_forall. intros t Hin. apply negb_true_iff.
      destruct (strict_eq (id t) i) eqn:E; [exfalso|reflexivity].
      apply strict_eq_true in E, Hid. apply Hnotin.
      apply list_elem_of_In, List.in_map_iff. exists t.
      split; [congruence|exact Hin].
    - unfold deleteTodo. cbn [List.filter].
      destruct (strict_eq (id todo') i) eqn:E.
      + exfalso. apply strict_eq_true in E, Hid. apply Hnotin.
        apply list_elem_of_In, List.in_map_iff. exists todo. split; [congruence|].
        apply list_elem_of_In. eapply list_elem_of_lookup_2. exact Hn.
      + cbn [negb]. cbn [delete list_delete]. f_equal. now apply IH. }
  split; [exact E|]. rewrite E, length_delete; [lia|]. now exists todo.
Qed.

Lemma deleteTodo_exactly_one_witness :
  deleteTodo (of_Z 7) Scenario.two_todos = Scenario.two_todos /\
  deleteTodo (id Scenario.milk) Scenario.two_todos = [Scenario.dog].
Proof.
  destruct (deleteTodo_exactly_one Scenario.two_todos (of_Z 7)) as [H _].
  destruct (deleteTodo_exactly_one Scenario.two_todos (id Scenario.milk))
    as [_ H'].
  split.
  - apply H. vm_compute. reflexivity.
  - destruct (H' 1%nat Scenario.milk) as [E _].
    + unfold ids_unique. apply (bool_decide_unpack _). vm_compute. exact I.
    + reflexivity.
    + vm_compute. reflexivity.
    + exact E.
Defined.

(** X3: how the updates compose.  A second edit of an id overwrites the
    first; toggling, editing and deleting commute with each other for any
    two ids; deleting an id makes an earlier edit or toggle of it
    irrelevant. *)
Theorem updates_compose (l : list Todo) (i j : number) (t1 t2 : list Z) :
  editTodo i t2 (editTodo i t1 l) = editTodo i t2 l /\
  toggleTodo i (editTodo j t1 l) = editTodo j t1 (toggleTodo i l) /\
  toggleTodo i (toggleTodo j l) = toggleTodo j (toggleTodo i l) /\
  deleteTodo i (editTodo j t1 l) = editTodo j t1 (deleteTodo i l) /\
  deleteTodo i (toggleTodo j l) = toggleTodo j (deleteTodo i l) /\
  deleteTodo i (deleteTodo j l) = deleteTodo j (deleteTodo i l) /\
  deleteTodo i (editTodo i t1 l) = deleteTodo i l /\
  deleteTodo i (toggleTodo i l) = deleteTodo i l.
Proof.
  assert (Hde : forall k t, deleteTodo i (editTodo k t l) = editTodo k t (deleteTodo i l)).
  { intros k t. unfold editTodo. apply deleteTodo_map.
    intros todo. now destruct (strict_eq (id todo) k). }
  assert (Hdt : forall k, deleteTodo i (toggleTodo k l) = toggleTodo k (deleteTodo i l)).
  { intros k. unfold toggleTodo. apply deleteTodo_map.
    intros todo. now destruct (strict_eq (id todo) k). }
  repeat split.
  - unfold editTodo. rewrite List.map_map. apply List.map_ext. intros todo.
    destruct (strict_eq (id todo) i) eqn:E; cbn [id set_text]; now rewrite E.
  - unfold toggleTodo, editTodo. rewrite !List.map_map. apply List.map_ext.
    intros todo.
    destruct (strict_eq (id todo) i) eqn:Ei, (strict_eq (id todo) j) eqn:Ej;
      cbn [id set_text set_completed]; rewrite ?Ei, ?Ej; reflexivity.
  - unfold toggleTodo. rewrite !List.map_map. apply List.map_ext. intros todo.
    destruct (strict_eq (id todo) i) eqn:Ei, (strict_eq (id todo) j) eqn:Ej;
      cbn [id set_completed]; rewrite ?Ei, ?Ej; reflexivity.
  - apply Hde.
  - apply Hdt.
  - apply deleteTodo_comm.
  - rewrite Hde. apply editTodo_absent, deleteTodo_clean.
  - rewrite Hdt. apply toggleTodo_absent, deleteTodo_clean.
Qed.

(** ** What a todo is known by *)

Section Identity.

Implicit Types (l : list Todo) (i : number) (st : AppState) (ev : event).

Lemma sublist_map {A B} (f : A -> B) (l1 l2 : list A) :
  l1 `sublist_of` l2 -> List.map f l1 `sublist_of` List.map f l2.
Proof. induction 1; cbn [List.map]; now constructor. Qed.

Lemma identity_toggleTodo i l :
  List.map Session.identity (toggleTodo i l) = List.map Session.identity l.
Proof.
  unfold toggleTodo. rewrite List.map_map. apply List.map_ext.
  intros todo. now destruct (strict_eq (id todo) i).
Qed.

Lemma identity_editTodo i t l :
  List.map Session.identity (editTodo i t l) = List.map Session.identity l.
Proof.
  unfold editTodo. rewrite List.map_map. apply List.map_ext.
  intros todo. now destruct (strict_eq (id todo) i).
Qed.

Lemma identity_step st ev :
  Session.is_add ev = false ->
  List.map Session.identity (todos (step st ev)) `sublist_of` List.map Session.identity (todos st).
Proof.
  destruct ev as [env v|i|i|n v]; [discriminate| | |]; intros _; cbn [step].
  - cbn [toggle setTodos todos]. now rewrite identity_toggleTodo.
  - cbn [remove setTodos todos]. apply sublist_map, deleteTodo_sublist.
  - destruct (todos st !! n) as [todo|]; [|reflexivity].
    unfold edit. destruct (fst (handleEdit todo _)) as [[i t]|]; [|reflexivity].
    cbn [setTodos todos]. now rewrite identity_editTodo.
Qed.

Lemma ids_of_identity l : List.map id l = List.map fst (List.map Session.identity l).
Proof. rewrite List.map_map. reflexivity. Qed.

Lemma ids_unique_identity_sublist l l' :
  List.map Session.identity l' `sublist_of` List.map Session.identity l ->
  ids_unique l -> ids_unique l'.
Proof.
  unfold ids_unique. rewrite !ids_of_identity. intros Hsub Huniq.
  eapply sublist_NoDup; [exact Huniq|]. now apply sublist_map.
Qed.

End Identity.

(** X4: toggling, editing and deleting never make a todo and never give
    one another id or creation date: after any run of such events, the
    ids with their dates are, in order, among those of before; ids that
    were all different still are. *)
Theorem no_add_no_new_identity (st : AppState) (evs : list event) :
  Forall (fun ev => Session.is_add ev = false) evs ->
  List.map (fun todo => (id todo, createdAt todo)) (todos (run st evs))
    `sublist_of` List.map (fun todo => (id todo, createdAt todo)) (todos st) /\
  (ids_unique (todos st) -> ids_unique (todos (run st evs))).
Proof.
  intros Hevs.
  assert (H : List.map Session.identity (todos (run st evs))
              `sublist_of` List.map Session.identity (todos st)).
  { revert st. induction Hevs as [|ev evs Hev _ IH]; intros st; [reflexivity|].
    cbn [run fold_left]. etransitivity; [apply IH|].
    now apply identity_step. }
  split; [exact H|]. now apply ids_unique_identity_sublist.
Qed.

Lemma no_add_no_new_identity_witness :
  ids_unique
    (todos (run {| todos := Scenario.two_todos;
                   localStorage := Scenario.no_storage; trace := [] |}
              [Toggle (id Scenario.milk); Edit 0 (lit "walk the dog");
               Delete (id Scenario.milk)])).
Proof.
  apply (no_add_no_new_identity
           {| todos := Scenario.two_todos;
              localStorage := Scenario.no_storage; trace := [] |}).
  - repeat constructor.
  - unfold ids_unique. apply (bool_decide_unpack _). vm_compute. exact I.
Defined.

(** X5: an event keeps the ids all different, provided that the id a
    submission makes is not one of the collection. *)
Theorem ids_unique_step (st : AppState) (ev : event) :
  ids_unique (todos st) ->
  (forall env inputValue,
      ev = Add env inputValue -> truthy (trim inputValue) = true ->
      id (newTodo env (trim inputValue)) ∉ List.map id (todos st)) ->
  ids_unique (todos (step st ev)).
Proof.
  intros Huniq Hfresh. destruct (Session.is_add ev) eqn:Hadd.
  - destruct ev as [env v| | |]; try discriminate. cbn [step].
    unfold add, handleSubmit.
    destruct (truthy (trim v)) eqn:Ht; cbn [fst]; [|exact Huniq].
    cbn [setTodos todos]. apply ids_unique_addTodo; [|exact Huniq].
    now apply (Hfresh env v).
  - eapply ids_unique_identity_sublist; [|exact Huniq].
    now apply identity_step.
Qed.

Lemma ids_unique_step_witness :
  ids_unique
    (todos (step {| todos := [Scenario.milk];
                    localStorage := Scenario.no_storage; trace := [] |}
              (Add Scenario.env_c (lit "walk dog")))).
Proof.
  apply ids_unique_step.
  - unfold ids_unique. apply (bool_decide_unpack _). vm_compute. exact I.
  - intros env v [= <- <-] _. apply (bool_decide_unpack _). vm_compute. exact I.
Defined.

(** ** The views and the counters *)

Section Views.

Implicit Types (l : list Todo) (i : number).

Lemma filter_sublist {A} (f : A -> bool) (l : list A) :
  List.filter f l `sublist_of` l.
Proof.
  induction l as [|x l IH]; [constructor|].
  cbn [List.filter]. destruct (f x); now constructor.
Qed.

Lemma completedTodos_cons todo l :
  completedTodos (todo :: l)
  = (if completed todo then 1 else 0) + completedTodos l.
Proof.
  unfold completedTodos. cbn [List.filter].
  destruct (completed todo); cbn [length]; lia.
Qed.

Lemma completedTodos_map (f : Todo -> Todo) l :
  (forall todo, completed (f todo) = completed todo) ->
  completedTodos (List.map f l) = completedTodos l.
Proof.
  intros Hf. induction l as [|todo l IH]; [reflexivity|].
  cbn [List.map]. now rewrite !completedTodos_cons, Hf, IH.
Qed.

Lemma completedTodos_deleteTodo i l :
  completedTodos (deleteTodo i l) <= completedTodos l.
Proof.
  unfold deleteTodo. induction l as [|todo l IH]; [reflexivity|].
  cbn [List.filter]. destruct (negb (strict_eq (id todo) i));
    rewrite !completedTodos_cons; destruct (completed todo); lia.
Qed.

End Views.

(** X6: what [TodoList] shows is, in order, part of the collection:
    under "completed" exactly the todos that are completed, under
    "pending" exactly those that are not, and under any other filter
    all of them. *)
Theorem filteredTodos_views (l : list Todo) (filter : list Z) :
  filteredTodos l filter `sublist_of` l /\
  (forall todo : Todo,
      todo ∈ filteredTodos l (lit "completed")
      <-> todo ∈ l /\ completed todo = true) /\
  (forall todo : Todo,
      todo ∈ filteredTodos l (lit "pending")
      <-> todo ∈ l /\ completed todo = false) /\
  (filter <> lit "completed" -> filter <> lit "pending" ->
   filteredTodos l filter = l).
Proof.
  split; [apply filter_sublist|]. split; [|split].
  - intros todo. unfold filteredTodos.
    rewrite !list_elem_of_In, List.filter_In.
    now rewrite bool_decide_eq_true_2 by reflexivity.
  - intros todo. unfold filteredTodos.
    rewrite !list_elem_of_In, List.filter_In.
    rewrite bool_decide_eq_false_2 by (vm_compute; discriminate).
    rewrite bool_decide_eq_true_2 by reflexivity.
    now rewrite negb_true_iff.
  - intros Hc Hp. unfold filteredTodos.
    rewrite !bool_decide_eq_false_2 by assumption.
    induction l as [|todo l IH]; [reflexivity|].
    cbn [List.filter]. now rewrite IH.
Qed.

Lemma filteredTodos_views_witness :
  filteredTodos Scenario.two_todos (lit "all") = Scenario.two_todos /\
  filteredTodos Scenario.two_todos (lit "done") = Scenario.two_todos.
Proof.
  destruct (filteredTodos_views Scenario.two_todos (lit "all")) as (_ & _ & _ & H1).
  destruct (filteredTodos_views Scenario.two_todos (lit "done")) as (_ & _ & _ & H2).
  split; [apply H1|apply H2]; vm_compute; discriminate.
Defined.

(** X7: what the updates do to the counters.  A new todo adds one to
    the total and to the pending; an edit changes no counter; a toggle
    keeps the total and, when the ids are all different, moves the one
    todo of that id between pending and completed; a delete raises no
    counter. *)
Theorem counters_after_updates (l : list Todo) (env : Env) (t : list Z)
    (i : number) :
  (totalTodos (addTodo env t l) = totalTodos l + 1 /\
   completedTodos (addTodo env t l) = completedTodos l /\
   pendingTodos (addTodo env t l) = pendingTodos l + 1) /\
  (totalTodos (editTodo i t l) = totalTodos l /\
   completedTodos (editTodo i t l) = completedTodos l /\
   pendingTodos (editTodo i t l) = pendingTodos l) /\
  totalTodos (toggleTodo i l) = totalTodos l /\
  (forall (n : nat) (todo : Todo),
      ids_unique l -> l !! n = Some todo -> strict_eq (id todo) i = true ->
      completedTodos (toggleTodo i l)
      = completedTodos l + (if completed todo then -1 else 1)) /\
  (totalTodos (deleteTodo i l) <= totalTodos l /\
   completedTodos (deleteTodo i l) <= completedTodos l /\
   pendingTodos (deleteTodo i l) <= pendingTodos l).
Proof.
  assert (Hedit : completedTodos (editTodo i t l) = completedTodos l).
  { unfold editTodo. apply completedTodos_map.
    intros todo. now destruct (strict_eq (id todo) i). }
  split; [|split; [|split; [|split]]].
  - unfold pendingTodos, addTodo. rewrite completedTodos_cons.
    unfold totalTodos. cbn [length newTodo completed]. lia.
  - unfold pendingTodos. rewrite Hedit.
    unfold totalTodos, editTodo. rewrite length_map. lia.
  - unfold totalTodos, toggleTodo. now rewrite length_map.
  - intros n todo Huniq Hn Hid. clear Hedit. revert n Huniq Hn.
    induction l as [|todo' l IH]; intros n Huniq Hn; [discriminate|].
    unfold ids_unique in Huniq. cbn [List.map] in Huniq.
    apply NoDup_cons in Huniq as [Hnotin Huniq].
    change (toggleTodo i (todo' :: l))
      with ((if strict_eq (id todo') i
             then set_completed (negb (completed todo')) todo' else todo')
            :: toggleTodo i l).
    rewrite !completedTodos_cons. destruct n as [|n]; cbn in Hn.
    + injection Hn as ->. rewrite Hid. cbn [set_completed completed].
      rewrite toggleTodo_absent.
      * destruct (completed todo); cbn [negb]; lia.
      * apply forallb_forall. intros t' Hin. apply negb_true_iff.
        destruct (strict_eq (id t') i) eqn:E; [exfalso|reflexivity].
        apply strict_eq_true in E, Hid. apply Hnotin. rewrite Hid, <- E.
        apply list_elem_of_In, List.in_map. exact Hin.
    + destruct (strict_eq (id todo') i) eqn:E.
      * exfalso. apply strict_eq_true in E, Hid. apply Hnotin. rewrite E, <- Hid.
        apply list_elem_of_In, List.in_map, list_elem_of_In.
        eapply list_elem_of_lookup_2. exact Hn.
      * rewrite (IH n Huniq Hn). lia.
  - pose proof (completedTodos_deleteTodo i l) as Hc.
    assert (Hlen : (length (deleteTodo i l) <= length l)%nat)
      by apply sublist_length, deleteTodo_sublist.
    assert (Hp : pendingTodos (deleteTodo i l) <= pendingTodos l).
    { clear Hedit Hc Hlen. unfold pendingTodos, totalTodos, deleteTodo.
      induction l as [|todo l IH]; [reflexivity|].
      cbn [List.filter]. destruct (negb (strict_eq (id todo) i));
        rewrite ?completedTodos_cons; cbn [length];
        rewrite ?completedTodos_cons; destruct (completed todo); lia. }
    unfold totalTodos. lia.
Qed.

Lemma counters_after_updates_witness :
  completedTodos (toggleTodo (id Scenario.milk) Scenario.two_todos)
  = completedTodos Scenario.two_todos + 1.
Proof.
  refine (proj1 (proj2 (proj2 (proj2
            (counters_after_updates Scenario.two_todos Scenario.env_a []
               (id Scenario.milk))))) 1%nat Scenario.milk _ _ _).
  - unfold ids_unique. apply (bool_decide_unpack _). vm_compute. exact I.
  - reflexivity.
  - reflexivity.
Defined.

(** ** The form and the item *)

Section Forms.

Implicit Types (todo : Todo) (st : ItemState) (v : list Z).

Lemma handleSubmit_call v call :
  fst (handleSubmit v) = Some call ->
  call = trim v /\ truthy call = true /\ snd (handleSubmit v) = [].
Proof.
  unfold handleSubmit. destruct (truthy (trim v)) eqn:E; cbn [fst snd].
  - intros [= <-]. now rewrite E.
  - discriminate.
Qed.

Lemma handleSubmit_after v : trim (snd (handleSubmit v)) = [].
Proof.
  unfold handleSubmit. destruct (truthy (trim v)) eqn:E; cbn [fst snd].
  - reflexivity.
  - now destruct (trim v).
Qed.

(** The call that [handleEdit] makes carries the id of the item and a
    trimmed text that is not empty and not the text of the item. *)
Lemma handleEdit_call todo st c :
  fst (handleEdit todo st) = Some c ->
  isEditing st = true /\ c = (id todo, trim (editValue st)) /\
  truthy (trim (editValue st)) = true /\ trim (editValue st) <> text todo /\
  snd (handleEdit todo st)
  = {| isEditing := false; editValue := editValue st;
       isRemoving := isRemoving st |}.
Proof.
  unfold handleEdit. destruct (isEditing st); [|discriminate].
  destruct (truthy (trim (editValue st))) eqn:E1; [|discriminate].
  destruct (bool_decide (trim (editValue st) = text todo)) eqn:E2; [discriminate|].
  cbn. intros [= <-]. apply bool_decide_eq_false in E2. now repeat split.
Qed.

Lemma handle_call todo st ev c :
  fst (TodoItem.handle todo st ev) = Some c ->
  c = (id todo, trim (editValue st)) /\
  truthy (trim (editValue st)) = true /\ trim (editValue st) <> text todo /\
  TodoItem.is_change ev = false /\
  snd (TodoItem.handle todo st ev)
  = {| isEditing := false; editValue := editValue st;
       isRemoving := isRemoving st |}.
Proof.
  assert (He : fst (handleEdit todo st) = Some c ->
               c = (id todo, trim (editValue st)) /\
               truthy (trim (editValue st)) = true /\
               trim (editValue st) <> text todo /\
               snd (handleEdit todo st)
               = {| isEditing := false; editValue := editValue st;
                    isRemoving := isRemoving st |}).
  { intros H. apply handleEdit_call in H. tauto. }
  destruct ev as [v| |key| |]; cbn [TodoItem.handle TodoItem.is_change fst snd].
  - discriminate.
  - destruct (isEditing st); [|discriminate]. intros H. apply He in H. tauto.
  - destruct (isEditing st); [|discriminate]. unfold TodoItem.handleKeyPress.
    destruct (bool_decide (key = lit "Enter")).
    + intros H. apply He in H. tauto.
    + destruct (bool_decide (key = lit "Escape")); discriminate.
  - discriminate.
  - intros H. apply He in H. tauto.
Qed.

Lemma handle_isRemoving todo st ev :
  isRemoving (snd (TodoItem.handle todo st ev)) = isRemoving st.
Proof.
  destruct ev as [v| |key| |];
    cbn [TodoItem.handle snd];
    unfold TodoItem.handleKeyPress, TodoItem.handleTextClick, TodoItem.onChange,
      handleEdit;
    repeat match goal with
           | |- context [if ?b then _ else _] => destruct b
           end; reflexivity.
Qed.

(** An event other than typing, on an item whose input holds the text of
    the todo up to white space, makes no call and leaves it so. *)
Lemma handle_settled todo st ev :
  trim (editValue st) = text todo -> trim (text todo) = text todo ->
  TodoItem.is_change ev = false ->
  fst (TodoItem.handle todo st ev) = None /\
  trim (editValue (snd (TodoItem.handle todo st ev))) = text todo.
Proof.
  intros HJ Ht Hev.
  assert (He : fst (handleEdit todo st) = None /\
               trim (editValue (snd (handleEdit todo st))) = text todo).
  { unfold handleEdit. rewrite HJ.
    rewrite (bool_decide_eq_true_2 _ eq_refl), andb_false_r.
    destruct (isEditing st); cbn [fst snd editValue]; auto. }
  destruct ev as [v| |key| |]; try discriminate;
    cbn [TodoItem.handle fst snd].
  - destruct (isEditing st); auto.
  - destruct (isEditing st); auto. unfold TodoItem.handleKeyPress.
    destruct (bool_decide (key = lit "Enter")); auto.
    destruct (bool_decide (key = lit "Escape")); cbn [fst snd editValue]; auto.
  - unfold TodoItem.handleTextClick.
    destruct (negb (isEditing st)); cbn [editValue]; auto.
  - exact He.
Qed.

Lemma shown_after_None todo : TodoItem.shown_after todo None = todo.
Proof. reflexivity. Qed.

Lemma shown_after_Some todo t :
  TodoItem.shown_after todo (Some (id todo, t))
  = if strict_eq (id todo) (id todo) then set_text t todo else todo.
Proof. reflexivity. Qed.

Lemma item_run_cons todo st ev evs :
  TodoItem.item_run todo st (ev :: evs)
  = let call := fst (TodoItem.handle todo st ev) in
    let r := TodoItem.item_run (TodoItem.shown_after todo call)
               (snd (TodoItem.handle todo st ev)) evs in
    (fst (fst r), snd (fst r),
     match call with Some c => c :: snd r | None => snd r end).
Proof.
  cbn [TodoItem.item_run]. destruct (TodoItem.handle todo st ev) as [call st'].
  cbn [fst snd].
  now destruct (TodoItem.item_run (TodoItem.shown_after todo call) st' evs)
    as [[todo'' st''] calls].
Qed.

Lemma last_cons_default {A} (x : A) (xs : list A) (d d' : A) :
  List.last (x :: xs) d = List.last (x :: xs) d'.
Proof.
  revert x. induction xs as [|y xs IH]; intros x; [reflexivity|].
  change (List.last (y :: xs) d = List.last (y :: xs) d'). apply IH.
Qed.

Lemma item_run_keeps todo st evs :
  id (fst (fst (TodoItem.item_run todo st evs))) = id todo /\
  completed (fst (fst (TodoItem.item_run todo st evs))) = completed todo /\
  createdAt (fst (fst (TodoItem.item_run todo st evs))) = createdAt todo.
Proof.
  revert todo st. induction evs as [|ev evs IH]; intros todo st.
  - cbn. auto.
  - rewrite item_run_cons. cbn zeta. cbn [fst snd].
    destruct (IH (TodoItem.shown_after todo (fst (TodoItem.handle todo st ev)))
                (snd (TodoItem.handle todo st ev))) as (IH1 & IH2 & IH3).
    rewrite IH1, IH2, IH3.
    destruct (fst (TodoItem.handle todo st ev)) as [c|] eqn:Hc; [|auto].
    apply handle_call in Hc as (-> & _). rewrite shown_after_Some.
    now destruct (strict_eq (id todo) (id todo)).
Qed.

Lemma item_run_bound todo st evs :
  strict_eq (id todo) (id todo) = true ->
  trim (text todo) = text todo ->
  (length (snd (TodoItem.item_run todo st evs))
   <= length (List.filter TodoItem.is_change evs)
      + (if bool_decide (trim (editValue st) = text todo) then 0 else 1))%nat /\
  text (fst (fst (TodoItem.item_run todo st evs)))
  = List.last (List.map snd (snd (TodoItem.item_run todo st evs))) (text todo).
Proof.
  revert todo st. induction evs as [|ev evs IH]; intros todo st Hid Ht.
  - cbn. split; [lia|reflexivity].
  - rewrite item_run_cons. cbn zeta. cbn [fst snd List.filter].
    destruct (fst (TodoItem.handle todo st ev)) as [c|] eqn:Hc.
    + apply handle_call in Hc as (-> & Htr & Hne & Hev & Hst).
      rewrite Hev, Hst, shown_after_Some, Hid.
      rewrite (bool_decide_eq_false_2 _ Hne).
      destruct (IH (set_text (trim (editValue st)) todo)
                  {| isEditing := false; editValue := editValue st;
                     isRemoving := isRemoving st |}) as [IH1 IH2].
      { exact Hid. } { cbn. apply trim_idem. }
      cbn [text set_text editValue] in IH1, IH2.
      rewrite (bool_decide_eq_true_2 _ eq_refl) in IH1.
      split; [cbn [length]; lia|].
      rewrite IH2. cbn [List.map snd].
      destruct (List.map snd (snd (TodoItem.item_run _ _ evs))) as [|x xs];
        [reflexivity|].
      transitivity (List.last (x :: xs) (text todo));
        [apply last_cons_default|reflexivity].
    + rewrite shown_after_None.
      destruct (IH todo (snd (TodoItem.handle todo st ev)) Hid Ht) as [IH1 IH2].
      split; [|exact IH2].
      destruct (TodoItem.is_change ev) eqn:Hev.
      * cbn [length].
        destruct (bool_decide (trim (editValue (snd (TodoItem.handle todo st ev)))
                               = text todo));
          destruct (bool_decide (trim (editValue st) = text todo)); lia.
      * destruct (bool_decide (trim (editValue st) = text todo)) eqn:HJ.
        -- apply bool_decide_eq_true in HJ.
           destruct (handle_settled todo st ev HJ Ht Hev) as [_ HJ'].
           rewrite (bool_decide_eq_true_2 _ HJ') in IH1. lia.
        -- destruct (bool_decide (trim (editValue (snd (TodoItem.handle todo st ev)))
                                  = text todo)); lia.
Qed.

End Forms.

(** X8: the Add button is disabled exactly when submitting would add
    nothing; a submit that adds passes on the trimmed, non-empty input
    and empties the input; and after any submit the button is disabled,
    so that submitting again, by the button or by any key, adds
    nothing. *)
Theorem submit_matches_button (inputValue key : list Z) :
  (AddTodo.disabled inputValue = true <-> fst (handleSubmit inputValue) = None) /\
  (forall call : list Z,
      fst (handleSubmit inputValue) = Some call ->
      call = trim inputValue /\ truthy call = true /\ trim call = call /\
      (length call <= length inputValue)%nat /\
      snd (handleSubmit inputValue) = []) /\
  AddTodo.disabled (snd (handleSubmit inputValue)) = true /\
  fst (handleSubmit (snd (handleSubmit inputValue))) = None /\
  fst (AddTodo.handleKeyPress key (snd (handleSubmit inputValue))) = None.
Proof.
  pose proof (handleSubmit_after inputValue) as Hafter.
  split; [|split; [|split; [|split]]].
  - unfold AddTodo.disabled, handleSubmit.
    destruct (truthy (trim inputValue)); cbn; split; congruence.
  - intros call H. apply handleSubmit_call in H as (-> & H1 & H2).
    repeat split; auto using trim_idem, trim_length.
  - unfold AddTodo.disabled. now rewrite Hafter.
  - now apply handleSubmit_blank.
  - unfold AddTodo.handleKeyPress.
    destruct (bool_decide (key = lit "Enter")); [|reflexivity].
    now apply handleSubmit_blank.
Qed.

Lemma submit_matches_button_witness :
  fst (handleSubmit (lit " buy milk ")) = Some (lit "buy milk") /\
  snd (handleSubmit (lit " buy milk ")) = [].
Proof.
  destruct (submit_matches_button (lit " buy milk ") (lit "Enter"))
    as (_ & H & _).
  destruct (H (lit "buy milk")) as (_ & _ & _ & _ & H'); [reflexivity|].
  split; [reflexivity|exact H'].
Defined.

(** X9: whatever is done to an item, in whatever state, every call of
    [onEditTodo] it makes carries the id of its todo and a text that is
    not empty and has no white space at either end; the todo it shows
    keeps its id, its flag and its date, and nothing done to the text
    marks the item as being removed. *)
Theorem item_calls_shape (todo : Todo) (st : ItemState)
    (evs : list TodoItem.item_event) :
  Forall (fun c : number * list Z =>
            fst c = id todo /\ truthy (snd c) = true /\ trim (snd c) = snd c)
    (snd (TodoItem.item_run todo st evs)) /\
  id (fst (fst (TodoItem.item_run todo st evs))) = id todo /\
  completed (fst (fst (TodoItem.item_run todo st evs))) = completed todo /\
  createdAt (fst (fst (TodoItem.item_run todo st evs))) = createdAt todo /\
  isRemoving (snd (fst (TodoItem.item_run todo st evs))) = isRemoving st.
Proof.
  revert todo st. induction evs as [|ev evs IH]; intros todo st.
  - cbn. repeat split. constructor.
  - rewrite item_run_cons. cbn zeta. cbn [fst snd].
    destruct (fst (TodoItem.handle todo st ev)) as [c|] eqn:Hc.
    + pose proof (handle_isRemoving todo st ev) as Hrem.
      apply handle_call in Hc as (-> & Htr & Hne & Hev & Hst).
      rewrite shown_after_Some.
      set (todo' := if strict_eq (id todo) (id todo)
                    then set_text (trim (editValue st)) todo else todo).
      assert (Hsame : id todo' = id todo /\ completed todo' = completed todo /\
                      createdAt todo' = createdAt todo).
      { subst todo'. now destruct (strict_eq (id todo) (id todo)). }
      destruct Hsame as (Hi & Hco & Hcr).
      destruct (IH todo' (snd (TodoItem.handle todo st ev)))
        as (IH1 & IH2 & IH3 & IH4 & IH5).
      rewrite Hi in IH1. rewrite IH2, IH3, IH4, IH5, Hrem.
      repeat split; auto. constructor; [|exact IH1].
      cbn [fst snd]. auto using trim_idem.
    + rewrite shown_after_None.
      destruct (IH todo (snd (TodoItem.handle todo st ev)))
        as (IH1 & IH2 & IH3 & IH4 & IH5).
      rewrite handle_isRemoving in IH5. auto.
Qed.

(** X10: an item makes no more calls of [onEditTodo] than the user types
    into its input, and the text it shows at the end is the text of the
    last call.  This holds for an item whose id equals itself, whose
    text has no white space at either end, and whose input holds that
    text up to white space at either end, as it does when the item is
    mounted.  Without typing the todo is left as it was. *)
Theorem item_calls_need_typing (todo : Todo) (st : ItemState)
    (evs : list TodoItem.item_event) :
  strict_eq (id todo) (id todo) = true ->
  trim (text todo) = text todo ->
  trim (editValue st) = text todo ->
  (length (snd (TodoItem.item_run todo st evs))
   <= length (List.filter TodoItem.is_change evs))%nat /\
  text (fst (fst (TodoItem.item_run todo st evs)))
  = List.last (List.map snd (snd (TodoItem.item_run todo st evs))) (text todo) /\
  (forallb (fun ev => negb (TodoItem.is_change ev)) evs = true ->
   TodoItem.item_run todo st evs
   = (todo, snd (fst (TodoItem.item_run todo st evs)), [])).
Proof.
  intros Hid Ht HJ.
  destruct (item_run_bound todo st evs Hid Ht) as [H1 H2].
  rewrite (bool_decide_eq_true_2 _ HJ) in H1.
  split; [lia|]. split; [exact H2|].
  intros Hno.
  assert (Hlen : length (List.filter TodoItem.is_change evs) = 0%nat).
  { clear -Hno. induction evs as [|ev evs IH]; [reflexivity|].
    cbn [forallb] in Hno. apply andb_true_iff in Hno as [Hev Hno].
    apply negb_true_iff in Hev. cbn [List.filter]. rewrite Hev. auto. }
  destruct (item_run_keeps todo st evs) as (Hi & Hco & Hcr).
  destruct (TodoItem.item_run todo st evs) as [[todo' st'] calls].
  cbn [fst snd] in *.
  destruct calls; [|cbn [length] in H1; lia].
  cbn in H2. f_equal. f_equal.
  destruct todo', todo; cbn in *; congruence.
Qed.

Lemma item_calls_need_typing_witness :
  (length (snd (TodoItem.item_run Scenario.milk (TodoItem.mounted Scenario.milk)
                  (TodoItem.TextClick :: TodoItem.Change (lit " buy oat milk ")
                   :: Cases.save_twice)))
   <= 1)%nat.
Proof.
  refine (proj1 (item_calls_need_typing Scenario.milk
                   (TodoItem.mounted Scenario.milk)
                   (TodoItem.TextClick :: TodoItem.Change (lit " buy oat milk ")
                    :: Cases.save_twice) _ _ _)); reflexivity.
Defined.

(** ** The Number of a new id *)

Section NewId.

Implicit Types (p q m e k : Z).

Lemma wf_number_intro m e :
  Z.abs m < 2 ^ 53 -> emin <= e <= emax -> (2 ^ 52 <= Z.abs m \/ e = emin) ->
  wf_number (Finite m e) = true.
Proof.
  intros H1 H2 H3. unfold wf_number, prec. change (53 - 1) with 52.
  rewrite !andb_true_iff, orb_true_iff, Z.ltb_lt, !Z.leb_le, Z.eqb_eq. tauto.
Qed.

(** A ratio below [2^k] rounds to a finite Number in normal form, not
    negative and at most [2^k]. *)
Lemma round_ratio_below p q k :
  0 < p -> 0 < q -> 0 <= k <= 1023 -> p < q * 2 ^ k ->
  exists m e,
    round_ratio false p q = Finite m e /\ wf_number (Finite m e) = true /\
    0 <= m /\ m * 2 ^ (e + 1074) <= 2 ^ (k + 1074).
Proof.
  intros Hp Hq Hk Hpq.
  destruct (floor_log2_ratio_spec p q Hp Hq) as [HL HL'].
  set (L := floor_log2_ratio p q) in *.
  assert (HLk : L < k).
  { destruct (Z.lt_ge_cases L k) as [H|H]; [exact H|exfalso].
    pose proof (scaled_le_mono q L k p Hq H HL) as Hc.
    unfold scaled_le in Hc. rewrite (proj2 (Z.leb_le 0 k)) in Hc by lia.
    apply Z.leb_le in Hc. lia. }
  unfold round_ratio. fold L. rewrite (proj2 (Z.eqb_neq p 0)) by lia.
  unfold prec, emin, emax. change (53 - 1) with 52.
  set (e := Z.max (-1074) (L - 52)).
  set (num := p * 2 ^ Z.max 0 (- e)). set (den := q * 2 ^ Z.max 0 e).
  assert (Hden : 0 < den).
  { apply Z.mul_pos_pos; [lia|apply Z.pow_pos_nonneg; lia]. }
  assert (Hnum0 : 0 <= num).
  { apply Z.mul_nonneg_nonneg; [lia|apply Z.pow_nonneg; lia]. }
  set (T := Z.max 0 (- L)). set (K := Z.max 0 (- e) + T).
  assert (H2T : 0 < 2 ^ T) by (apply Z.pow_pos_nonneg; lia).
  assert (HnumK : num * 2 ^ T = p * 2 ^ K).
  { unfold num, K. rewrite Z.pow_add_r by lia. ring. }
  assert (HdenK : forall j, 0 <= j -> den * 2 ^ j * 2 ^ T = q * 2 ^ (e + j + K)).
  { intros j Hj. unfold den, K.
    replace (e + j + (Z.max 0 (- e) + T)) with (Z.max 0 e + j + T) by lia.
    rewrite !Z.pow_add_r by lia. ring. }
  assert (Hupper : num < den * 2 ^ 53).
  { assert (H : ~ q * 2 ^ (L + 1 + K) <= p * 2 ^ K).
    { intros H. apply (scaled_le_shift q (L + 1) p K) in H; [|lia|lia].
      congruence. }
    assert (H' : q * 2 ^ (L + 1 + K) <= q * 2 ^ (e + 53 + K)).
    { apply Z.mul_le_mono_nonneg_l; [lia|]. apply Z.pow_le_mono_r; lia. }
    rewrite <- HdenK, <- HnumK in * by lia.
    apply (Z.mul_lt_mono_pos_r (2 ^ T)); lia. }
  assert (Hlower : -1074 < e -> den * 2 ^ 52 <= num).
  { intros He. apply (scaled_le_shift q L p K) in HL; [|lia|lia].
    replace (L + K) with (e + 52 + K) in HL by lia.
    rewrite <- HdenK, <- HnumK in HL by lia.
    apply (Z.mul_le_mono_pos_r _ _ (2 ^ T)); lia. }
  set (m0 := num / den). set (r := num mod den).
  assert (Hm0 : 0 <= m0 < 2 ^ 53).
  { split; [apply Z.div_pos; lia|].
    apply Z.div_lt_upper_bound; [lia|]. lia. }
  assert (Hm0' : -1074 < e -> 2 ^ 52 <= m0).
  { intros He. apply Z.div_le_lower_bound; [lia|]. specialize (Hlower He). lia. }
  set (m1 := if 2 * r <? den then m0
             else if den <? 2 * r then m0 + 1
                  else if Z.odd m0 then m0 + 1 else m0).
  assert (Hm1 : m0 <= m1 <= m0 + 1).
  { subst m1. destruct (2 * r <? den); [lia|].
    destruct (den <? 2 * r); [lia|]. destruct (Z.odd m0); lia. }
  assert (Hpow : forall a b, 0 <= a <= b -> 2 ^ a <= 2 ^ b).
  { intros a b Hab. apply Z.pow_le_mono_r; lia. }
  destruct (m1 =? 2 ^ 53) eqn:Hcarry.
  - rewrite (proj2 (Z.ltb_ge 971 (e + 1))) by lia.
    exists (2 ^ 52), (e + 1). split; [reflexivity|].
    split; [apply wf_number_intro; unfold emin, emax; rewrite ?Z.abs_eq; lia|].
    split; [lia|]. rewrite <- Z.pow_add_r by lia. apply Hpow. lia.
  - apply Z.eqb_neq in Hcarry.
    rewrite (proj2 (Z.ltb_ge 971 e)) by lia.
    exists m1, e. split; [reflexivity|].
    split; [apply wf_number_intro; unfold emin, emax; rewrite ?Z.abs_eq; lia|].
    split; [lia|].
    assert (H2e : 0 < 2 ^ (e + 1074)) by (apply Z.pow_pos_nonneg; lia).
    transitivity (2 ^ 53 * 2 ^ (e + 1074)); [nia|].
    rewrite <- Z.pow_add_r by lia. apply Hpow. lia.
Qed.

(** The id that [addTodo] gives: the clock and the draw being what the
    engine makes them, a finite Number in normal form that is not
    negative. *)
Lemma newTodo_id env (t : list Z) :
  env_ok env = true ->
  exists m e,
    id (newTodo env t) = Finite m e /\ wf_number (Finite m e) = true /\ 0 <= m.
Proof.
  unfold env_ok, random_ok. intros H.
  apply andb_true_iff in H as [H Hrand]. apply andb_true_iff in H as [Hlo Hhi].
  apply Z.leb_le in Hlo, Hhi.
  destruct (Math_random env) as [m2 e2| |] eqn:Hdraw; try discriminate.
  apply andb_true_iff in Hrand as [Hrand Hsmall].
  apply andb_true_iff in Hrand as [Hwf2 Hm2]. apply Z.leb_le in Hm2.
  apply orb_true_iff in Hsmall. rewrite Z.ltb_lt, Z.eqb_eq in Hsmall.
  apply wf_number_Finite in Hwf2 as (Hm2' & He2 & _).
  rewrite Z.abs_eq in Hm2' by lia. unfold emin, emax in He2.
  cbn [newTodo id]. rewrite Hdraw. set (now := Date_now env) in *.
  assert (Hpow : forall a b, 0 <= a <= b -> 2 ^ a <= 2 ^ b).
  { intros a b Hab. apply Z.pow_le_mono_r; lia. }
  assert (Hnow : exists m1 e1,
             of_Z now = Finite m1 e1 /\ -1074 <= e1 /\ 0 <= m1 /\
             m1 * 2 ^ (e1 + 1074) <= 2 ^ 1127).
  { unfold of_Z. rewrite (proj2 (Z.ltb_ge now 0)), Z.abs_eq by lia.
    destruct (Z.eq_dec now 0) as [->|Hne].
    - exists 0, (-1074). split; [reflexivity|]. split; [lia|]. split; [lia|].
      rewrite Z.mul_0_l. apply Z.pow_nonneg. lia.
    - destruct (round_ratio_below now 1 53) as (m1 & e1 & E & Hwf & Hm1 & Hb);
        [lia|lia|lia|lia|].
      exists m1, e1. split; [exact E|].
      apply wf_number_Finite in Hwf as (_ & He1 & _). unfold emin in He1.
      split; [lia|]. split; [lia|exact Hb]. }
  destruct Hnow as (m1 & e1 & -> & He1 & Hm1 & Hb1).
  cbn [num_add]. set (e := Z.min e1 e2).
  set (s := m1 * 2 ^ (e1 - e) + m2 * 2 ^ (e2 - e)).
  assert (Hs : 0 <= s).
  { unfold s. apply Z.add_nonneg_nonneg; apply Z.mul_nonneg_nonneg;
      try lia; apply Z.pow_nonneg; lia. }
  rewrite (proj2 (Z.ltb_ge s 0)), Z.abs_eq by lia.
  destruct (Z.eq_dec s 0) as [Hs0|Hs0].
  - rewrite Hs0, Z.mul_0_l. exists 0, (-1074). split; [reflexivity|].
    split; [reflexivity|lia].
  - assert (H2e : 0 < 2 ^ Z.max 0 e) by (apply Z.pow_pos_nonneg; lia).
    assert (H2e' : 0 < 2 ^ Z.max 0 (- e)) by (apply Z.pow_pos_nonneg; lia).
    destruct (round_ratio_below (s * 2 ^ Z.max 0 e) (2 ^ Z.max 0 (- e)) 54)
      as (m & e' & E & Hwf & Hm & _); [nia|lia|lia| |now exists m, e'].
    set (X := 2 ^ (1074 - Z.max 0 (- e))).
    assert (HX : 0 < X) by (apply Z.pow_pos_nonneg; lia).
    apply (Z.mul_lt_mono_pos_r X); [exact HX|].
    assert (E1 : s * 2 ^ Z.max 0 e * X
                 = m1 * 2 ^ (e1 + 1074) + m2 * 2 ^ (e2 + 1074)).
    { assert (F : forall a, e <= a ->
                    2 ^ (a - e) * 2 ^ Z.max 0 e * X = 2 ^ (a + 1074)).
      { intros a Ha. unfold X. rewrite <- !Z.pow_add_r by lia. f_equal. lia. }
      unfold s. rewrite <- (F e1), <- (F e2) by lia. ring. }
    assert (E2 : 2 ^ Z.max 0 (- e) * 2 ^ 54 * X = 2 * 2 ^ 1127).
    { transitivity (2 ^ 1128).
      - unfold X. rewrite <- !Z.pow_add_r by lia. f_equal. lia.
      - replace 1128 with (1 + 1127) by lia.
        rewrite Z.pow_add_r by lia. now rewrite Z.pow_1_r. }
    rewrite E1, E2.
    assert (Hdraw' : m2 * 2 ^ (e2 + 1074) < 2 ^ 1127).
    { destruct Hsmall as [Hsmall | ->]; [|rewrite Z.mul_0_l; apply Z.pow_pos_nonneg; lia].
      assert (H2 : 0 < 2 ^ (e2 + 1074)) by (apply Z.pow_pos_nonneg; lia).
      assert (H3 : 2 ^ 53 * 2 ^ (e2 + 1074) <= 2 ^ 1127).
      { rewrite <- Z.pow_add_r by lia. apply Hpow. lia. }
      nia. }
    lia.
Qed.

End NewId.

(** ** A session *)

Section Sessions.

Implicit Types (l : list Todo) (i : number) (st : AppState) (ev : event).

Lemma forallb_trimStart (P : Z -> bool) (s : list Z) :
  forallb P s = true -> forallb P (trimStart s) = true.
Proof.
  induction s as [|c s IH]; [auto|]. intros H. cbn [trimStart].
  destruct (is_white_space c); [|exact H].
  cbn [forallb] in H. apply andb_true_iff in H as [_ H]. auto.
Qed.

Lemma forallb_rev {A} (P : A -> bool) (s : list A) :
  forallb P s = true -> forallb P (rev s) = true.
Proof.
  rewrite !forallb_forall. intros H x Hx. apply H. now apply in_rev.
Qed.

Lemma wf_string_trim (s : list Z) : wf_string s = true -> wf_string (trim s) = true.
Proof.
  unfold wf_string, trim, trimEnd. intros H.
  now apply forallb_rev, forallb_trimStart, forallb_rev, forallb_trimStart.
Qed.

Lemma wf_todo_newTodo env (t : list Z) :
  env_ok env = true -> wf_string (Date_toISOString env) = true ->
  wf_string t = true -> wf_todo (newTodo env t) = true.
Proof.
  intros Henv Hiso Ht. destruct (newTodo_id env t Henv) as (m & e & E & Hwf & _).
  unfold wf_todo. rewrite E, Hwf. cbn [is_finite newTodo text createdAt].
  now rewrite Ht, Hiso.
Qed.

Lemma wf_todos_map (f : Todo -> Todo) l :
  (forall todo, wf_todo todo = true -> wf_todo (f todo) = true) ->
  wf_todos l = true -> wf_todos (List.map f l) = true.
Proof.
  intros Hf. unfold wf_todos. rewrite !forallb_forall. intros H todo Hin.
  apply List.in_map_iff in Hin as (todo0 & <- & Hin). auto.
Qed.

Lemma wf_todos_editTodo i (t : list Z) l :
  wf_string t = true -> wf_todos l = true -> wf_todos (editTodo i t l) = true.
Proof.
  intros Ht. apply wf_todos_map. intros todo Hwf.
  destruct (strict_eq (id todo) i); [|exact Hwf].
  unfold wf_todo in *. cbn [set_text id text createdAt].
  rewrite !andb_true_iff in *. tauto.
Qed.

Lemma wf_todos_toggleTodo i l :
  wf_todos l = true -> wf_todos (toggleTodo i l) = true.
Proof.
  apply wf_todos_map. intros todo Hwf.
  destruct (strict_eq (id todo) i); exact Hwf.
Qed.

Lemma wf_todos_deleteTodo i l :
  wf_todos l = true -> wf_todos (deleteTodo i l) = true.
Proof.
  unfold wf_todos, deleteTodo. rewrite !forallb_forall. intros H todo Hin.
  apply List.filter_In in Hin as [Hin _]. auto.
Qed.

Lemma wf_todos_step st ev :
  wf_todos (todos st) = true -> Session.event_wf ev = true ->
  wf_todos (todos (step st ev)) = true.
Proof.
  intros Hst Hev. destruct ev as [env v|i|i|n v]; cbn [step Session.event_wf] in *.
  - apply andb_true_iff in Hev as [Hev Hv]. apply andb_true_iff in Hev as [Henv Hiso].
    unfold add, handleSubmit. destruct (truthy (trim v)); cbn [fst]; [|exact Hst].
    cbn [setTodos todos]. unfold addTodo, wf_todos. cbn [forallb].
    fold (wf_todos (todos st)). rewrite Hst, andb_true_r.
    apply wf_todo_newTodo; auto using wf_string_trim.
  - now apply wf_todos_toggleTodo.
  - now apply wf_todos_deleteTodo.
  - destruct (todos st !! n) as [todo|]; [|exact Hst].
    unfold edit. destruct (fst (handleEdit todo _)) as [[i t]|] eqn:Hcall;
      [|exact Hst].
    cbn [setTodos todos]. apply wf_todos_editTodo; [|exact Hst].
    unfold handleEdit in Hcall. cbn [isEditing editValue] in Hcall.
    destruct (truthy (trim v) && negb (bool_decide (trim v = text todo)));
      [|discriminate].
    cbn [fst] in Hcall. injection Hcall as _ <-. now apply wf_string_trim.
Qed.

Lemma wf_todos_run st evs :
  wf_todos (todos st) = true -> Forall (fun ev => Session.event_wf ev = true) evs ->
  wf_todos (todos (run st evs)) = true.
Proof.
  intros Hst Hevs. revert st Hst.
  induction Hevs as [|ev evs Hev _ IH]; intros st Hst; [exact Hst|].
  cbn [run fold_left]. apply IH. now apply wf_todos_step.
Qed.

(** An event leaves the state as it is or is one [setTodos]. *)
Lemma step_setTodos st ev :
  step st ev = st \/ exists update, step st ev = setTodos update st.
Proof.
  destruct ev as [env v|i|i|n v]; cbn [step].
  - unfold add. destruct (fst (handleSubmit v)); eauto.
  - right. now exists (toggleTodo i).
  - right. now exists (deleteTodo i).
  - destruct (todos st !! n) as [todo|]; [|now left].
    unfold edit. destruct (fst (handleEdit todo _)) as [[i t]|]; eauto.
Qed.

Lemma synced_setTodos update st : Session.synced (setTodos update st).
Proof. unfold Session.synced, setTodos, save. cbn. apply lookup_insert_eq. Qed.

Lemma other_keys_setTodos update st (k : list Z) :
  k <> todoApp_todos ->
  localStorage (setTodos update st) !! k = localStorage st !! k.
Proof.
  intros Hk. unfold setTodos, save. cbn [localStorage].
  now apply lookup_insert_ne.
Qed.

Lemma session_step st ev :
  (forall k : list Z, k <> todoApp_todos ->
                      localStorage (step st ev) !! k = localStorage st !! k) /\
  (exists writes, trace (step st ev) = trace st ++ writes /\ Forall Session.is_save writes) /\
  (Session.synced st -> Session.synced (step st ev)).
Proof.
  destruct (step_setTodos st ev) as [-> | [update ->]].
  - split; [auto|]. split; [|auto]. exists []. now rewrite app_nil_r.
  - split; [intros k Hk; now apply other_keys_setTodos|].
    split; [|intros _; apply synced_setTodos].
    eexists. split; [reflexivity|]. repeat constructor. now eexists.
Qed.

Lemma session_run st evs :
  (forall k : list Z, k <> todoApp_todos ->
                      localStorage (run st evs) !! k = localStorage st !! k) /\
  (exists writes, trace (run st evs) = trace st ++ writes /\ Forall Session.is_save writes) /\
  (Session.synced st -> Session.synced (run st evs)).
Proof.
  revert st. induction evs as [|ev evs IH]; intros st.
  - split; [auto|]. split; [|auto]. exists []. now rewrite app_nil_r.
  - cbn [run fold_left]. fold (run (step st ev) evs).
    destruct (IH (step st ev)) as (IH1 & (w2 & IH2 & IH2') & IH3).
    destruct (session_step st ev) as (H1 & (w1 & H2 & H2') & H3).
    split; [intros k Hk; rewrite IH1, H1; auto|]. split; [|auto].
    exists (w1 ++ w2). rewrite IH2, H2, app_assoc. split; [reflexivity|].
    now apply Forall_app.
Qed.

Lemma load_synced st :
  wf_todos (todos st) = true -> Session.synced st ->
  load (localStorage st) = Ok (todos_value (todos st), []).
Proof.
  intros Hwf Hs. unfold load. rewrite Hs.
  pose proof (wf_todos_value _ Hwf) as Hv.
  rewrite (stringify_truthy _ Hv), (JSON_parse_stringify _ Hv). reflexivity.
Qed.

Lemma mount_synced_store (storage : gmap (list Z) (list Z)) l :
  wf_todos l = true ->
  storage !! todoApp_todos = Some (JSON_stringify (todos_value l)) ->
  Session.mount storage
  = Some {| todos := l; localStorage := storage;
            trace := [SetItem todoApp_todos (JSON_stringify (todos_value []));
                      SetItem todoApp_todos (JSON_stringify (todos_value l))] |}.
Proof.
  intros Hwf Hs. unfold Session.mount. rewrite Hs.
  pose proof (wf_todos_value _ Hwf) as Hv.
  rewrite (stringify_truthy _ Hv), (JSON_parse_stringify _ Hv).
  rewrite value_todos_value. unfold setTodos, Session.first_render, save.
  cbn [todos localStorage trace app]. f_equal. f_equal.
  rewrite insert_insert_eq. now apply insert_id.
Qed.

End Sessions.

(** X11: the clock and the draw being what the engine makes them, the id
    of a new todo is a finite Number in normal form, and so equal to
    itself.  When no other todo has it, the id reaches the new todo and
    nothing else: deleting by it undoes the addition, toggling by it
    completes the new todo only, editing by it changes its text only. *)
Theorem new_todo_addressable (env : Env) (t t' : list Z) (l : list Todo) :
  env_ok env = true ->
  is_finite (id (newTodo env t)) = true /\
  wf_number (id (newTodo env t)) = true /\
  strict_eq (id (newTodo env t)) (id (newTodo env t)) = true /\
  (forallb (fun todo => negb (strict_eq (id todo) (id (newTodo env t)))) l = true ->
   deleteTodo (id (newTodo env t)) (addTodo env t l) = l /\
   toggleTodo (id (newTodo env t)) (addTodo env t l)
   = set_completed true (newTodo env t) :: l /\
   editTodo (id (newTodo env t)) t' (addTodo env t l)
   = set_text t' (newTodo env t) :: l).
Proof.
  intros Henv. destruct (newTodo_id env t Henv) as (m & e & E & Hwf & _).
  assert (Hself : strict_eq (id (newTodo env t)) (id (newTodo env t)) = true).
  { rewrite E. cbn [strict_eq]. now apply bool_decide_eq_true_2. }
  rewrite E at 1 2. split; [reflexivity|]. split; [exact Hwf|].
  split; [exact Hself|]. intros Hfresh.
  unfold addTodo, deleteTodo, toggleTodo, editTodo.
  cbn [List.filter List.map]. rewrite Hself. cbn [negb].
  fold (deleteTodo (id (newTodo env t)) l).
  fold (toggleTodo (id (newTodo env t)) l).
  fold (editTodo (id (newTodo env t)) t' l).
  rewrite deleteTodo_absent, toggleTodo_absent, editTodo_absent by exact Hfresh.
  auto.
Qed.

Lemma new_todo_addressable_witness :
  deleteTodo (id Scenario.dog) Scenario.two_todos = [Scenario.milk].
Proof.
  refine (proj1 (proj2 (proj2 (proj2
            (new_todo_addressable Scenario.env_c (lit "walk dog") []
               [Scenario.milk] _))) _)); reflexivity.
Defined.

(** X12: whatever the user does to the todos, the script writes to the
    store nothing but the text of a collection under the key of the
    todos: every other key keeps what it held, the trace grows by such
    writes only, and a store that held the text of the collection still
    does. *)
Theorem session_writes_todos_only (st : AppState) (evs : list event) :
  (forall k : list Z, k <> todoApp_todos ->
                      localStorage (run st evs) !! k = localStorage st !! k) /\
  (exists writes : list effect,
      trace (run st evs) = trace st ++ writes /\
      Forall (fun ef => exists l : list Todo,
                  ef = SetItem todoApp_todos (JSON_stringify (todos_value l)))
        writes) /\
  (Session.synced st -> Session.synced (run st evs)).
Proof. apply session_run. Qed.

Lemma session_writes_todos_only_witness :
  Session.synced
    (run {| todos := Scenario.two_todos; localStorage := Cases.both_stored;
            trace := [] |} Cases.session).
Proof.
  apply (session_writes_todos_only
           {| todos := Scenario.two_todos; localStorage := Cases.both_stored;
              trace := [] |} Cases.session).
  reflexivity.
Defined.

(** X13: what is in the store at the end of a session is the collection
    of the end of the session.  From a state whose collection can be
    written as JSON and is in the store, after any run of events with
    proper clocks, draws and strings, the collection can still be
    written as JSON, the effect of mount reads exactly it from the store
    without an error, and a new mount of the script on that store ends
    with the same collection and the same store. *)
Theorem reload_restores (st : AppState) (evs : list event) :
  wf_todos (todos st) = true -> Session.synced st ->
  Forall (fun ev => Session.event_wf ev = true) evs ->
  wf_todos (todos (run st evs)) = true /\
  load (localStorage (run st evs)) = Ok (todos_value (todos (run st evs)), []) /\
  exists st' : AppState,
    Session.mount (localStorage (run st evs)) = Some st' /\
    todos st' = todos (run st evs) /\
    localStorage st' = localStorage (run st evs).
Proof.
  intros Hwf Hs Hevs.
  pose proof (wf_todos_run st evs Hwf Hevs) as Hwf'.
  destruct (session_run st evs) as (_ & _ & Hs'). specialize (Hs' Hs).
  split; [exact Hwf'|]. split; [exact (load_synced _ Hwf' Hs')|].
  eexists. split; [exact (mount_synced_store _ _ Hwf' Hs')|]. now split.
Qed.

Lemma reload_restores_witness :
  exists st' : AppState,
    Session.mount
      (localStorage (run (Session.first_render Scenario.no_storage [])
                       Cases.session)) = Some st' /\
    todos st' = todos (run (Session.first_render Scenario.no_storage [])
                         Cases.session) /\
    localStorage st'
    = localStorage (run (Session.first_render Scenario.no_storage [])
                      Cases.session).
Proof.
  refine (proj2 (proj2 (reload_restores
                          (Session.first_render Scenario.no_storage [])
                          Cases.session _ _ _))).
  - reflexivity.
  - reflexivity.
  - repeat constructor.
Defined.



(** ** The theme *)

Section Themes.

Lemma keys_differ : Theme.todoApp_darkMode <> todoApp_todos.
Proof. vm_compute. discriminate. Qed.

Lemma initial_isDarkMode_other (s s' : gmap (list Z) (list Z)) :
  s' !! Theme.todoApp_darkMode = s !! Theme.todoApp_darkMode ->
  Theme.initial_isDarkMode s' = Theme.initial_isDarkMode s.
Proof. unfold Theme.initial_isDarkMode. now intros ->. Qed.

Lemma initial_isDarkMode_effect (v : value) (s : gmap (list Z) (list Z)) :
  wf_value v = true ->
  Theme.initial_isDarkMode (Theme.theme_effect v s) = Ok v.
Proof.
  intros Hv. unfold Theme.initial_isDarkMode, Theme.theme_effect.
  rewrite lookup_insert_eq.
  now rewrite (stringify_truthy _ Hv), (JSON_parse_stringify _ Hv).
Qed.

End Themes.

(** X15: the theme survives a reload.  A value that [JSON] writes and
    reads back unchanged, a boolean above all, is what the initial state
    of [isDarkMode] is after the effect has stored it.  [toggleTheme]
    always makes a boolean, whatever [isDarkMode] was read from the
    store; it changes the colour scheme, and a second toggle brings the
    first scheme back. *)
Theorem theme_survives_reload (v : value) (storage : gmap (list Z) (list Z)) :
  (wf_value v = true ->
   Theme.initial_isDarkMode (Theme.theme_effect v storage) = Ok v) /\
  Theme.initial_isDarkMode (Theme.theme_effect (Theme.toggleTheme v) storage)
  = Ok (Theme.toggleTheme v) /\
  Theme.color_scheme (Theme.toggleTheme v) <> Theme.color_scheme v /\
  Theme.color_scheme (Theme.toggleTheme (Theme.toggleTheme v))
  = Theme.color_scheme v.
Proof.
  split; [apply initial_isDarkMode_effect|].
  split; [now apply initial_isDarkMode_effect|].
  unfold Theme.color_scheme, Theme.toggleTheme. cbn [Theme.to_boolean].
  destruct (Theme.to_boolean v); cbn [negb]; split;
    try reflexivity; vm_compute; discriminate.
Qed.

Lemma theme_survives_reload_witness :
  Theme.initial_isDarkMode
    (Theme.theme_effect (VNum (of_Z 1)) Scenario.no_storage)
  = Ok (VNum (of_Z 1)).
Proof.
  apply (proj1 (theme_survives_reload (VNum (of_Z 1)) Scenario.no_storage)).
  reflexivity.
Defined.

(** X16: the theme and the todos do not touch each other's key.  What
    the effect of mount reads and what a mount shows is the same with or
    without a stored theme; the initial theme is the same whatever is
    saved as the collection and whatever the user does to the todos. *)
Theorem theme_and_todos_apart (v : value) (c : list Todo) (st : AppState)
    (evs : list event) (storage : gmap (list Z) (list Z)) :
  load (Theme.theme_effect v storage) = load storage /\
  todos <$> Session.mount (Theme.theme_effect v storage)
  = todos <$> Session.mount storage /\
  Theme.initial_isDarkMode (save c storage) = Theme.initial_isDarkMode storage /\
  Theme.initial_isDarkMode (localStorage (run st evs))
  = Theme.initial_isDarkMode (localStorage st).
Proof.
  assert (Hk : (Theme.theme_effect v storage) !! todoApp_todos
               = storage !! todoApp_todos).
  { unfold Theme.theme_effect. apply lookup_insert_ne, keys_differ. }
  split; [unfold load; now rewrite Hk|].
  split; [|split].
  - unfold Session.mount. rewrite Hk.
    destruct (storage !! todoApp_todos) as [s|]; [|reflexivity].
    destruct (truthy s); [|reflexivity].
    destruct (JSON_parse s) as [p|e]; [|reflexivity].
    now destruct (value_todos p).
  - apply initial_isDarkMode_other. unfold save.
    apply lookup_insert_ne. intros H. now apply keys_differ.
  - apply initial_isDarkMode_other.
    apply (proj1 (session_run st evs)), keys_differ.
Qed.

(** X17: nothing catches an error in the initial state of the theme.
    It is a thrown [SyntaxError] exactly when the key of the theme holds
    a text that is not empty and that [JSON.parse] rejects; with the key
    absent or holding the empty string the theme is light. *)
Theorem theme_initial_throws (storage : gmap (list Z) (list Z)) (e : exn) :
  (Theme.initial_isDarkMode storage = Throw e
   <-> exists s : list Z,
        storage !! Theme.todoApp_darkMode = Some s /\ s <> [] /\
        JSON_parse s = Throw e) /\
  (storage !! Theme.todoApp_darkMode = None \/
   storage !! Theme.todoApp_darkMode = Some [] ->
   Theme.initial_isDarkMode storage = Ok (VBool false) /\
   Theme.color_scheme (VBool false) = lit "light").
Proof.
  unfold Theme.initial_isDarkMode. split.
  - destruct (storage !! Theme.todoApp_darkMode) as [s|].
    + destruct s as [|c s]; cbn [truthy].
      * split; [discriminate|]. intros (s' & [= <-] & H & _). now destruct H.
      * split.
        -- intros H. now exists (c :: s).
        -- now intros (s' & [= <-] & _ & H).
    + split; [discriminate|]. now intros (s' & H & _).
  - intros [-> | ->]; now split.
Qed.

Lemma theme_initial_throws_witness :
  Theme.initial_isDarkMode Cases.garbage_theme = Throw SyntaxError.
Proof.
  apply (proj1 (theme_initial_throws Cases.garbage_theme SyntaxError)).
  exists (lit "dark"). split; [reflexivity|]. split; [discriminate|reflexivity].
Defined.

(** ** The views, the counters and an edit *)

Section EditSession.

Implicit Types (todo : Todo) (st : ItemState) (v : list Z).


End EditSession.

(** X18: the numbers in the header are the lengths of the three views:
    the view of every filter other than "completed" and "pending" has
    [totalTodos] items, the view of "completed" has [completedTodos],
    the view of "pending" has [pendingTodos]; and the two partial views
    have together as many items as the whole. *)
Theorem views_match_counters (l : list Todo) (filter : list Z) :
  (filter <> lit "completed" -> filter <> lit "pending" ->
   Z.of_nat (length (filteredTodos l filter)) = totalTodos l) /\
  Z.of_nat (length (filteredTodos l (lit "completed"))) = completedTodos l /\
  Z.of_nat (length (filteredTodos l (lit "pending"))) = pendingTodos l /\
  (length (filteredTodos l (lit "completed"))
   + length (filteredTodos l (lit "pending")) = length l)%nat.
Proof.
  assert (Hc : filteredTodos l (lit "completed")
               = List.filter (fun todo => completed todo) l).
  { unfold filteredTodos. now rewrite (bool_decide_eq_true_2 _ eq_refl). }
  assert (Hp : filteredTodos l (lit "pending")
               = List.filter (fun todo => negb (completed todo)) l).
  { unfold filteredTodos.
    rewrite bool_decide_eq_false_2 by (vm_compute; discriminate).
    now rewrite (bool_decide_eq_true_2 _ eq_refl). }
  assert (Hsum : (length (List.filter (fun todo => completed todo) l)
                  + length (List.filter (fun todo => negb (completed todo)) l)
                  = length l)%nat).
  { clear. induction l as [|todo l IH]; [reflexivity|].
    cbn [List.filter]. destruct (completed todo); cbn [negb length]; lia. }
  split; [|split; [|split]].
  - intros H1 H2. unfold filteredTodos, totalTodos.
    rewrite !bool_decide_eq_false_2 by assumption.
    f_equal. clear. induction l as [|todo l IH]; [reflexivity|].
    cbn [List.filter length]. now rewrite IH.
  - now rewrite Hc.
  - rewrite Hp. unfold pendingTodos, totalTodos, completedTodos. lia.
  - now rewrite Hc, Hp.
Qed.

Lemma views_match_counters_witness :
  Z.of_nat (length (filteredTodos Scenario.two_todos (lit "all")))
  = totalTodos Scenario.two_todos.
Proof.
  apply (proj1 (views_match_counters Scenario.two_todos (lit "all")));
    vm_compute; discriminate.
Defined.


